(** * pyomo.dae.init_cond: deactivation at points of a continuous set,
      consistency of initial conditions, and the deactivate/solve/reactivate
      transaction.

    The development embeds [src/pyomo/dae/init_cond.py].  A Pyomo model is a
    tree of components; every component owns data objects addressed by an
    index, and the data objects of a Block own further components.  The
    [active] attribute of a data object is mutable, so it lives in a store
    keyed by the identity of the object. *)

From Stdlib Require Import ZArith Floats List String Bool Lia.
From stdpp Require Import base option list gmap.
Import ListNotations.

Local Open Scope Z_scope.

(** ** Data model *)

(** The two component types that the module traverses. *)
Inductive ctype : Type := Block | Constraint.

Definition ctype_eqb (a b : ctype) : bool :=
  match a, b with
  | Block, Block | Constraint, Constraint => true
  | _, _ => false
  end.

(** An index set: its identity (Python compares sets with [is]), its members
    in iteration order and, for a ContinuousSet, the entry ['scheme'] of
    [get_discretization_info()] when the set has been discretized. *)
Record OrderedSet : Type := mkSet {
  set_id : nat;
  set_elems : list Z;
  set_scheme : option string
}.

(** A full index is the tuple of values, one per declared dimension. *)
Abbreviation index := (list Z).

(** A component and its data objects.  [cid] and [did] stand for Python's
    [id(...)] of the component and of the data object; [cactive] is the
    [active] attribute of the component itself, which the module reads and
    never assigns; [centries] is the dictionary of the component, from
    indices to data objects.  A data object carries the values of [body],
    [lower] and [upper] (used for a Constraint) and the components it owns
    (for a Block).  The values are Python floats: IEEE 754 doubles. *)
Inductive component : Type :=
  Comp (cid : nat) (ckind : ctype) (cactive : bool)
       (cdims : list OrderedSet) (centries : list (index * cdata))
with cdata : Type :=
  CData (did : nat) (body lower upper : float) (subs : list component).

Definition cid (c : component) : nat := let 'Comp i _ _ _ _ := c in i.
Definition ckind (c : component) : ctype := let 'Comp _ k _ _ _ := c in k.
Definition cactive (c : component) : bool := let 'Comp _ _ a _ _ := c in a.
Definition cdims (c : component) : list OrderedSet :=
  let 'Comp _ _ _ ds _ := c in ds.
Definition centries (c : component) : list (index * cdata) :=
  let 'Comp _ _ _ _ es := c in es.

Definition did (d : cdata) : nat := let 'CData i _ _ _ _ := d in i.
Definition body (d : cdata) : float := let 'CData _ b _ _ _ := d in b.
Definition lower (d : cdata) : float := let 'CData _ _ l _ _ := d in l.
Definition upper (d : cdata) : float := let 'CData _ _ _ u _ := d in u.
Definition subs (d : cdata) : list component :=
  let 'CData _ _ _ _ cs := d in cs.

(** A component as the traversal hands it out: the component together with
    the chain of Block components that enclose it, innermost first (what
    [parent_block().parent_component()] walks in Python). *)
Record located : Type := mkLoc {
  loc_comp : component;
  loc_parents : list component
}.

(** A block given as the root of a traversal: its data and the Block
    components above it. *)
Record block : Type := mkBlock {
  blk_data : cdata;
  blk_parents : list component
}.

(** ** Store, exceptions and the monad of the module *)

(** The exceptions the module can raise or let through. *)
Inductive exn : Type :=
  | ValueError            (* raise ValueError(msg) *)
  | KeyError              (* comp[index] or info['scheme'] has no entry *)
  | NotImplementedError   (* unsupported discretization scheme *)
  | NotIndexedError       (* get_index_set_except: the set occurs twice *)
  | IndexError.           (* first() of an empty set *)

(** [index_warning(name, index)]: the component is named by its identity. *)
Definition index_warning (name : nat) (idx : index) : nat * index :=
  (name, idx).

Record store : Type := mkStore {
  flags : gmap nat bool;        (* the [active] attribute of data objects *)
  printed : list (nat * index)  (* what [print] has written, oldest first *)
}.

(** The [active] attribute of a data object; data objects are created
    active. *)
Definition is_active (s : store) (d : nat) : bool :=
  default true (flags s !! d).

Definition M (A : Type) : Type := store -> store * (exn + A).

Definition ret {A} (a : A) : M A := fun s => (s, inr a).
Definition raise {A} (e : exn) : M A := fun s => (s, inl e).
Definition bind {A B} (m : M A) (k : A -> M B) : M B :=
  fun s => match m s with
           | (s', inl e) => (s', inl e)
           | (s', inr a) => k a s'
           end.

Notation "x <- m ;; k" := (bind m (fun x => k))
  (at level 100, m at next level, right associativity).
Notation "m ;;; k" := (bind m (fun _ => k))
  (at level 100, right associativity).

(** Modelled from the spec: reading the flag of a data object and the
    methods [deactivate()] and [activate()] of [pyomo.core] (section 6);
    [print] appends to what has been written. *)
Definition get_active (d : nat) : M bool := fun s => (s, inr (is_active s d)).
Definition deactivate (d : nat) : M unit :=
  fun s => (mkStore (<[d := false]> (flags s)) (printed s), inr tt).
Definition activate (d : nat) : M unit :=
  fun s => (mkStore (<[d := true]> (flags s)) (printed s), inr tt).
Definition print (w : nat * index) : M unit :=
  fun s => (mkStore (flags s) (printed s ++ [w]), inr tt).

(** [for x in l: acc = f(acc, x)], stopping at the first exception. *)
Section FoldM.
Context {A B : Type}.
Variable f : A -> B -> M A.

Fixpoint foldM (a : A) (l : list B) : M A :=
  match l with
  | [] => ret a
  | x :: l' => a' <- f a x ;; foldM a' l'
  end.
End FoldM.

(** ** The collaborators from [pyomo.dae.set_utils] and [pyomo.core] *)

Definition same_set (s t : OrderedSet) : bool :=
  Nat.eqb (set_id s) (set_id t).

(** Modelled from the spec: [is_explicitly_indexed_by] of
    [pyomo.dae.set_utils] (section 4.2): the set is one of the component's
    own declared index dimensions. *)
Definition is_explicitly_indexed_by (comp : component) (s : OrderedSet) : bool :=
  existsb (same_set s) (cdims comp).

(** Modelled from the spec: [is_in_block_indexed_by] of
    [pyomo.dae.set_utils] (section 4.2): some strict ancestor Block is
    explicitly indexed by the set. *)
Definition is_in_block_indexed_by (comp : located) (s : OrderedSet) : bool :=
  existsb (fun p => is_explicitly_indexed_by p s) (loc_parents comp).

(** Cartesian product of the listed dimensions, in declared order; the
    product of no dimension has the empty tuple as its only member. *)
Fixpoint cross (dims : list (list Z)) : list index :=
  match dims with
  | [] => [[]]
  | d :: ds => flat_map (fun x => map (cons x) (cross ds)) d
  end.

(** Position of the first dimension that is the set [s]. *)
Fixpoint position (s : OrderedSet) (dims : list OrderedSet) : nat :=
  match dims with
  | [] => O
  | d :: ds => if same_set s d then O else S (position s ds)
  end.

Definition occurrences (s : OrderedSet) (dims : list OrderedSet) : nat :=
  length (List.filter (same_set s) dims).

Record index_info : Type := mkInfo {
  set_except : list index;
  index_getter : index -> Z -> index
}.

(** Modelled from the spec: [get_index_set_except] of [pyomo.dae.set_utils]
    (section 4.1): the product of the other dimensions and the function that
    puts a value of the set back at its slot; an error unless the set occurs
    exactly once. *)
Definition get_index_set_except (comp : component) (s : OrderedSet)
  : exn + index_info :=
  if Nat.eqb (occurrences s (cdims comp)) 1 then
    let p := position s (cdims comp) in
    inr {| set_except :=
             cross (map set_elems
                      (List.filter (fun d => negb (same_set s d))
                         (cdims comp)));
           index_getter := fun other t => take p other ++ t :: drop p other |}
  else inl NotIndexedError.

Definition index_eqb (i j : index) : bool := bool_decide (i = j).

(** Modelled from the spec: [comp[index]] of [pyomo.core] (section 6):
    the data object stored at the index, [KeyError] when there is none. *)
Definition getitem (comp : component) (i : index) : exn + cdata :=
  match find (fun e => index_eqb (fst e) i) (centries comp) with
  | Some e => inr (snd e)
  | None => inl KeyError
  end.

Definition lift {A} (r : exn + A) : M A :=
  match r with
  | inl e => raise e
  | inr a => ret a
  end.

(** Modelled from the spec: [time.first()] (section 3). *)
Definition first (s : OrderedSet) : exn + Z :=
  match set_elems s with
  | [] => inl IndexError
  | t :: _ => inr t
  end.

(** Modelled from the spec: [pt in cset] (section 3). *)
Definition contains (s : OrderedSet) (pt : Z) : bool :=
  existsb (Z.eqb pt) (set_elems s).

(** Modelled from the spec: [component_objects(ctypes, active=True)] of
    [pyomo.core] (sections 4.3 and 6): a generator that walks the active
    block data below a root in prefix order and hands out, block after
    block, the active components of the requested types.  The generator is
    consumed by a [for] loop, so the walk is interleaved with the loop body:
    the [active] flag of a block data is read when the walk reaches it, after
    the body has run on everything handed out before. *)
Section ComponentObjects.
Context {A : Type}.
Variable ctypes : list ctype.
Variable loop_body : A -> located -> M A.

Definition requested (c : component) : bool :=
  existsb (ctype_eqb (ckind c)) ctypes && cactive c.

Definition hand_out (parents : list component) (a : A) (c : component)
  : M A :=
  if requested c then loop_body a (mkLoc c parents) else ret a.

Fixpoint for_component_objects (parents : list component) (d : cdata)
    (a : A) {struct d} : M A :=
  match d with
  | CData i _ _ _ cs =>
      act <- get_active i ;;
      if act then
        a1 <- foldM (hand_out parents) a cs ;;
        foldM (fun a2 c =>
                 match c with
                 | Comp _ k on _ es =>
                     if ctype_eqb k Block && on then
                       foldM (fun a3 e =>
                                for_component_objects (c :: parents)
                                  (snd e) a3) a2 es
                     else ret a2
                 end) a1 cs
      else ret a
  end.
End ComponentObjects.

(** ** [deactivate_model_at] *)

(** The argument [pts]: a value or a list of values. *)
Inductive points : Type :=
  | Single (pt : Z)
  | Many (pts : list Z).

Definition as_list (pts : points) : list Z :=
  match pts with
  | Single pt => [pt]
  | Many l => l
  end.

(** The dictionary [deactivated]: points to lists of data objects. *)
Abbreviation deactivated_map := (gmap Z (list nat)).

(** [{pt: [] for pt in pts}]. *)
Definition empty_lists (pts : list Z) : deactivated_map :=
  foldr (fun pt m => <[pt := []]> m) ∅ pts.

(** The body of the innermost loop (lines 61 to 71). *)
Definition deactivate_index (comp : component) (getter : index -> Z -> index)
    (allow_skip suppress_warnings : bool)
    (non_cset_index : index) (deactivated : deactivated_map) (pt : Z)
  : M deactivated_map :=
  let idx := getter non_cset_index pt in
  match getitem comp idx with
  | inr d =>
      deactivate (did d) ;;;
      ret (<[pt := default [] (deactivated !! pt) ++ [did d]]> deactivated)
  | inl _ =>
      (if suppress_warnings then ret tt
       else print (index_warning (cid comp) idx)) ;;;
      if allow_skip then ret deactivated else raise KeyError
  end.

(** The body of the loop over [component_objects] (lines 49 to 71); the
    accumulator holds the locals [visited] and [deactivated]. *)
Definition deactivate_component (cset : OrderedSet) (pts : list Z)
    (allow_skip suppress_warnings : bool)
    (acc : gset nat * deactivated_map) (comp : located)
  : M (gset nat * deactivated_map) :=
  let '(visited, deactivated) := acc in
  if bool_decide (cid (loc_comp comp) ∈ visited) then ret acc
  else
    let visited := {[cid (loc_comp comp)]} ∪ visited in
    if is_explicitly_indexed_by (loc_comp comp) cset
       && negb (is_in_block_indexed_by comp cset)
    then
      info <- lift (get_index_set_except (loc_comp comp) cset) ;;
      deactivated' <-
        foldM (fun dm non_cset_index =>
                 foldM (deactivate_index (loc_comp comp) (index_getter info)
                          allow_skip suppress_warnings non_cset_index)
                       dm pts)
              deactivated (set_except info) ;;
      ret (visited, deactivated')
    else ret (visited, deactivated).

(** Lines 39 to 42. *)
Definition check_points (cset : OrderedSet) (pts : list Z) : M unit :=
  foldM (fun _ pt => if contains cset pt then ret tt else raise ValueError)
        tt pts.

Definition deactivate_model_at (b : block) (cset : OrderedSet) (pts : points)
    (allow_skip suppress_warnings : bool) : M deactivated_map :=
  let pts := as_list pts in
  check_points cset pts ;;;
  r <- for_component_objects [Block; Constraint]
         (deactivate_component cset pts allow_skip suppress_warnings)
         (blk_parents b) (blk_data b) (∅, empty_lists pts) ;;
  ret (snd r).

(** ** [get_inconsistent_initial_conditions] *)

(** Python's [x > y] on floats: false when either side is NaN. *)
Definition float_gt (x y : float) : bool := PrimFloat.ltb y x.

(** The test of lines 114 to 115 and 136 to 137, in the double precision
    arithmetic of Python's floats: both differences are rounded before they
    are compared with the tolerance. *)
Definition violated (tol : float) (condata : cdata) : bool :=
  float_gt (PrimFloat.sub (body condata) (upper condata)) tol
  || float_gt (PrimFloat.sub (lower condata) (body condata)) tol.

(** Python's [max(a, b)]: the first argument unless the second is larger. *)
Definition float_max (a b : float) : float :=
  if PrimFloat.ltb a b then b else a.

(** The specification's wording of the same test:
    [violation = max(body - upper, lower - body)] and
    [violation > tolerance]. *)
Definition violation (condata : cdata) : float :=
  float_max (PrimFloat.sub (body condata) (upper condata))
            (PrimFloat.sub (lower condata) (body condata)).

Definition violation_exceeds (tol : float) (condata : cdata) : bool :=
  float_gt (violation condata) tol.

(** A [ComponentSet]: data objects in insertion order, one per identity. *)
Definition cs_mem (d : cdata) (set : list cdata) : bool :=
  existsb (fun x => Nat.eqb (did x) (did d)) set.

Definition cs_add (d : cdata) (set : list cdata) : list cdata :=
  if cs_mem d set then set else set ++ [d].

(** Modelled from the spec: [component_data_objects(ctypes, active=True)]
    of [pyomo.core] (section 6): the active data objects of the components
    handed out by [component_objects]. *)
Definition for_component_data_objects {A : Type} (ctypes : list ctype)
    (loop_body : A -> cdata -> M A) (parents : list component) (d : cdata)
    (a : A) : M A :=
  for_component_objects ctypes
    (fun a1 comp =>
       foldM (fun a2 e =>
                act <- get_active (did (snd e)) ;;
                if act then loop_body a2 (snd e) else ret a2)
             a1 (centries (loc_comp comp)))
    parents d a.

(** The body of the first loop (lines 96 to 116). *)
Definition check_constraint (time : OrderedSet) (tol : float) (t0 : Z)
    (allow_skip suppress_warnings : bool)
    (inconsistent : list cdata) (con : located) : M (list cdata) :=
  if negb (is_explicitly_indexed_by (loc_comp con) time) then ret inconsistent
  else if is_in_block_indexed_by con time then ret inconsistent
  else
    info <- lift (get_index_set_except (loc_comp con) time) ;;
    foldM (fun inc non_time_index =>
             let idx := index_getter info non_time_index t0 in
             match getitem (loc_comp con) idx with
             | inl _ =>
                 (if suppress_warnings then ret tt
                  else print (index_warning (cid (loc_comp con)) idx)) ;;;
                 if allow_skip then ret inc else raise KeyError
             | inr condata =>
                 if violated tol condata then ret (cs_add condata inc)
                 else ret inc
             end)
          inconsistent (set_except info).

(** The body of the second loop (lines 124 to 143). *)
Definition check_block (time : OrderedSet) (tol : float) (t0 : Z)
    (inconsistent : list cdata) (blk : located) : M (list cdata) :=
  if negb (is_explicitly_indexed_by (loc_comp blk) time) then ret inconsistent
  else if is_in_block_indexed_by blk time then ret inconsistent
  else
    info <- lift (get_index_set_except (loc_comp blk) time) ;;
    foldM (fun inc non_time_index =>
             let idx := index_getter info non_time_index t0 in
             blkdata <- lift (getitem (loc_comp blk) idx) ;;
             for_component_data_objects [Constraint]
               (fun inc' condata =>
                  if violated tol condata then
                    if cs_mem condata inc' then raise ValueError
                    else ret (cs_add condata inc')
                  else ret inc')
               (loc_comp blk :: loc_parents blk) blkdata inc)
          inconsistent (set_except info).

Definition get_inconsistent_initial_conditions (model : block)
    (time : OrderedSet) (tol : float) (t0 : option Z)
    (allow_skip suppress_warnings : bool) : M (list cdata) :=
  t0 <- match t0 with
        | None => lift (first time)
        | Some t => ret t
        end ;;
  inconsistent <-
    for_component_objects [Constraint]
      (check_constraint time tol t0 allow_skip suppress_warnings)
      (blk_parents model) (blk_data model) [] ;;
  for_component_objects [Block] (check_block time tol t0)
    (blk_parents model) (blk_data model) inconsistent.

(** The default [tol=1e-8]: the double nearest to the decimal. *)
Definition default_tol : float := 0x1.5798ee2308c3ap-27%float.

(** ** [solve_consistent_initial_conditions] *)

(** The test of line 176. *)
Definition unsupported_scheme (scheme : string) : bool :=
  negb (String.eqb scheme "LAGRANGE-RADAU")
  && negb (String.eqb scheme "BACKWARD Difference").

(** [d[k]] on a dictionary. *)
Definition dict_get {V : Type} (d : gmap Z V) (k : Z) : exn + V :=
  match d !! k with
  | Some v => inr v
  | None => inl KeyError
  end.

(** Lines 186 to 188: [comp.activate()] for every recorded data object. *)
Definition reactivate (timelist : list Z) (deactivated_dict : deactivated_map)
  : M unit :=
  foldM (fun _ t =>
           comps <- lift (dict_get deactivated_dict t) ;;
           foldM (fun _ comp => activate comp) tt comps)
        tt timelist.

Section Solve.
Context {R : Type}.
(** The solver: [solver.solve(model)] is any computation on the store. *)
Variable solver : block -> M R.

Definition solve_consistent_initial_conditions (model : block)
    (time : OrderedSet) : M R :=
  scheme <- lift (match set_scheme time with
                  | Some s => inr s
                  | None => inl KeyError
                  end) ;;
  if unsupported_scheme scheme then raise NotImplementedError
  else
    t0 <- lift (first time) ;;
    let timelist := tail (set_elems time) in
    deactivated_dict <-
      deactivate_model_at model time (Many timelist) true false ;;
    result <- solver model ;;
    reactivate timelist deactivated_dict ;;;
    ret result.
End Solve.

(** ** Definitions used by the statements and proofs *)

(** Induction on a block data: the property holds for the data objects of
    every component the data owns. *)
Section CdataInd.
Variable P : cdata -> Prop.
Hypothesis step : forall i b l u cs,
  Forall (fun c => Forall (fun e => P (snd e)) (centries c)) cs ->
  P (CData i b l u cs).

Fixpoint cdata_nested_ind (d : cdata) : P d :=
  match d with
  | CData i b l u cs =>
      step i b l u cs
        ((fix over_comps (cs : list component)
            : Forall (fun c => Forall (fun e => P (snd e)) (centries c)) cs :=
            match cs with
            | [] => List.Forall_nil _
            | c :: cs' =>
                List.Forall_cons _ c cs'
                  (match c return Forall (fun e => P (snd e)) (centries c)
                   with
                   | Comp _ _ _ _ es =>
                       (fix over_entries (es : list (index * cdata))
                          : Forall (fun e => P (snd e)) es :=
                          match es with
                          | [] => List.Forall_nil _
                          | e :: es' =>
                              List.Forall_cons _ e es'
                                (cdata_nested_ind (snd e))
                                (over_entries es')
                          end) es
                   end)
                  (over_comps cs')
            end) cs)
  end.
End CdataInd.

(** The located components below a block data, whatever their flags. *)
Fixpoint located_below (parents : list component) (d : cdata) : list located :=
  match d with
  | CData _ _ _ _ cs =>
      flat_map (fun c =>
                  mkLoc c parents ::
                  match c with
                  | Comp _ _ _ _ es =>
                      flat_map (fun e => located_below (c :: parents) (snd e))
                               es
                  end) cs
  end.

(** Hoare triples for computations that may raise: [Q] holds after a normal
    return, [E] after an exception. *)
Definition triple {A} (P : store -> Prop) (m : M A)
    (Q : A -> store -> Prop) (E : exn -> store -> Prop) : Prop :=
  forall s, P s ->
    match m s with
    | (s', inr a) => Q a s'
    | (s', inl e) => E e s'
    end.


(** *** What a traversal looks at, statically *)

(** The test of lines 53 to 54, 96 to 99 and 124 to 127. *)
Definition eligible (cset : OrderedSet) (comp : located) : bool :=
  is_explicitly_indexed_by (loc_comp comp) cset
  && negb (is_in_block_indexed_by comp cset).

(** What [component_objects] hands out when the flags are [act] and do not
    change during the walk. *)
Fixpoint component_objects (act : nat -> bool) (ctypes : list ctype)
    (parents : list component) (d : cdata) : list located :=
  match d with
  | CData i _ _ _ cs =>
      if act i then
        map (fun c => mkLoc c parents) (List.filter (requested ctypes) cs)
        ++ flat_map (fun c =>
                       match c with
                       | Comp _ k on _ es =>
                           if ctype_eqb k Block && on then
                             flat_map (fun e =>
                                         component_objects act ctypes
                                           (c :: parents) (snd e)) es
                           else []
                       end) cs
      else []
  end.

(** The same walk, keeping the eligible components only. *)
Fixpoint eligible_objects (act : nat -> bool) (cset : OrderedSet)
    (ctypes : list ctype) (parents : list component) (d : cdata)
  : list located :=
  match d with
  | CData i _ _ _ cs =>
      if act i then
        List.filter (eligible cset)
          (map (fun c => mkLoc c parents) (List.filter (requested ctypes) cs))
        ++ flat_map (fun c =>
                       match c with
                       | Comp _ k on _ es =>
                           if ctype_eqb k Block && on then
                             flat_map (fun e =>
                                         eligible_objects act cset ctypes
                                           (c :: parents) (snd e)) es
                           else []
                       end) cs
      else []
  end.

(** Identities of the components below a block data. *)
Fixpoint cids_below (d : cdata) : list nat :=
  match d with
  | CData _ _ _ _ cs =>
      flat_map (fun c =>
                  cid c ::
                  match c with
                  | Comp _ _ _ _ es =>
                      flat_map (fun e => cids_below (snd e)) es
                  end) cs
  end.

(** Identities of the data objects below a block data. *)
Fixpoint dids_below (d : cdata) : list nat :=
  match d with
  | CData _ _ _ _ cs =>
      flat_map (fun c =>
                  match c with
                  | Comp _ _ _ _ es =>
                      flat_map (fun e => did (snd e) :: dids_below (snd e)) es
                  end) cs
  end.

(** What lines 55 to 71 do with one eligible component. *)
Definition deactivate_eligible (cset : OrderedSet) (pts : list Z)
    (allow_skip suppress_warnings : bool)
    (deactivated : deactivated_map) (comp : located) : M deactivated_map :=
  info <- lift (get_index_set_except (loc_comp comp) cset) ;;
  foldM (fun dm non_cset_index =>
           foldM (deactivate_index (loc_comp comp) (index_getter info)
                    allow_skip suppress_warnings non_cset_index)
                 dm pts)
        deactivated (set_except info).

(** A run that carries [visited] agrees with a run that does not. *)
Definition agree (bound : nat -> Prop)
    (r1 : store * (exn + gset nat * deactivated_map))
    (r2 : store * (exn + deactivated_map)) : Prop :=
  fst r1 = fst r2 /\
  match snd r1, snd r2 with
  | inl e1, inl e2 => e1 = e2
  | inr (visited, dm1), inr dm2 =>
      dm1 = dm2 /\ forall x, x ∈ visited -> bound x
  | _, _ => False
  end.

(** Some Block of the chain is explicitly indexed by the set. *)
Definition under (cset : OrderedSet) (parents : list component) : bool :=
  existsb (fun p => is_explicitly_indexed_by p cset) parents.

(** The flags of two stores differ at most on the listed identities. *)
Definition unchanged_outside (ids : list nat) (s s' : store) : Prop :=
  forall i, ~ In i ids -> flags s' !! i = flags s !! i.

(** Identities of the data objects of a component. *)
Definition entry_ids (c : component) : list nat :=
  map (fun e => did (snd e)) (centries c).

(** A computation that touches no flag outside [ids], whether it returns
    or raises. *)
Definition frame {A} (ids : list nat) (m : M A) : Prop :=
  forall s0, triple (unchanged_outside ids s0) m
               (fun _ => unchanged_outside ids s0)
               (fun _ => unchanged_outside ids s0).

(** The interleaved walk of [deactivate_model_at] below [d] does what the
    static walk announces, when identities are not shared. *)
Definition walk_agrees (cset : OrderedSet) (pts : list Z)
    (allow_skip suppress_warnings : bool) (d : cdata) : Prop :=
  forall parents vis dm s,
    NoDup (cids_below d) ->
    (forall x, In x (cids_below d) -> x ∉ vis) ->
    NoDup (dids_below d) ->
    agree (fun x => x ∈ vis \/ In x (cids_below d))
      (for_component_objects [Block; Constraint]
         (deactivate_component cset pts allow_skip suppress_warnings)
         parents d (vis, dm) s)
      (foldM (deactivate_eligible cset pts allow_skip suppress_warnings) dm
         (eligible_objects (is_active s) cset [Block; Constraint] parents d)
         s).

(** Either nothing below [parents] is eligible, or the flags of the listed
    data are the same in both stores. *)
Definition stable (cset : OrderedSet) (parents : list component)
    (ids : list nat) (s0 s : store) : Prop :=
  under cset parents = true \/
  forall i, In i ids -> is_active s i = is_active s0 i.

(** Identities below the data objects of one component. *)
Definition sub_cids (c : component) : list nat :=
  flat_map (fun e => cids_below (snd e)) (centries c).

Definition sub_dids (c : component) : list nat :=
  flat_map (fun e => did (snd e) :: dids_below (snd e)) (centries c).

(** *** What [deactivate_model_at] is expected to do *)

(** The data objects one eligible component has at the requested points,
    in the order of lines 59 to 64, each with its point. *)
Definition targets_of (cset : OrderedSet) (pts : list Z) (comp : located)
  : list (Z * nat) :=
  match get_index_set_except (loc_comp comp) cset with
  | inl _ => []
  | inr info =>
      flat_map (fun non_cset_index =>
                  flat_map (fun pt =>
                              match getitem (loc_comp comp)
                                      (index_getter info non_cset_index pt)
                              with
                              | inr d => [(pt, did d)]
                              | inl _ => []
                              end) pts)
               (set_except info)
  end.

(** [d.deactivate()] for every listed data object. *)
Definition deactivate_all (targets : list (Z * nat)) (f : gmap nat bool)
  : gmap nat bool :=
  foldl (fun f t => <[snd t := false]> f) f targets.

(** [deactivated[pt].append(d)] for every listed data object. *)
Definition record_all (targets : list (Z * nat)) (dm : deactivated_map)
  : deactivated_map :=
  foldl (fun m t => <[fst t := default [] (m !! fst t) ++ [snd t]]> m)
        dm targets.

(** The data object [i] is what an eligible component handed out by
    [component_objects] has at some other index and at the point [pt]. *)
Definition target (act : nat -> bool) (b : block) (cset : OrderedSet)
    (pts : list Z) (pt : Z) (i : nat) : Prop :=
  exists comp info non_cset_index d,
    In comp (component_objects act [Block; Constraint] (blk_parents b)
               (blk_data b))
    /\ eligible cset comp = true
    /\ get_index_set_except (loc_comp comp) cset = inr info
    /\ In non_cset_index (set_except info)
    /\ In pt pts
    /\ getitem (loc_comp comp) (index_getter info non_cset_index pt) = inr d
    /\ did d = i.

(** What the loop of [deactivate_model_at] maintains, starting from the
    store [s0]: the dictionary has the requested points as keys, and a flag
    that is not as in [s0] is off and belongs to a recorded data object. *)
Definition recorded (pts : list Z) (s0 : store) (dm : deactivated_map)
    (s : store) : Prop :=
  (forall k, is_Some (dm !! k) <-> In k pts)
  /\ (forall i, flags s !! i = flags s0 !! i
                \/ (flags s !! i = Some false
                    /\ exists pt, In pt pts /\ In i (default [] (dm !! pt)))).

(** The data object [i] is in one of the lists that [reactivate] goes
    through. *)
Definition is_recorded (timelist : list Z) (dm : deactivated_map) (i : nat)
  : bool :=
  existsb (fun t => existsb (Nat.eqb i) (default [] (dm !! t))) timelist.

(** Nothing makes lines 55 to 71 raise on this component: the set occurs
    once in its index, and either missing data are skipped or none is
    missing at the requested points. *)
Definition complete (cset : OrderedSet) (pts : list Z) (allow_skip : bool)
    (comp : located) : Prop :=
  exists info,
    get_index_set_except (loc_comp comp) cset = inr info
    /\ (allow_skip = true
        \/ forall other pt,
             In other (set_except info) -> In pt pts ->
             exists d,
               getitem (loc_comp comp) (index_getter info other pt) = inr d).

(** One pass through lines 61 to 71: a component, the full index and the
    point. *)
Record combo : Type := mkCombo {
  co_comp : located;
  co_index : index;
  co_pt : Z
}.

(** The passes that lines 59 to 60 make for one eligible component, in
    order. *)
Definition combos_of (cset : OrderedSet) (pts : list Z) (comp : located)
  : list combo :=
  match get_index_set_except (loc_comp comp) cset with
  | inl _ => []
  | inr info =>
      flat_map (fun non_cset_index =>
                  map (fun pt =>
                         mkCombo comp (index_getter info non_cset_index pt) pt)
                      pts)
               (set_except info)
  end.

(** Every pass that the static walk from the flags [act] makes. *)
Definition combos (act : nat -> bool) (b : block) (cset : OrderedSet)
    (pts : list Z) : list combo :=
  flat_map (combos_of cset pts)
    (List.filter (eligible cset)
       (component_objects act [Block; Constraint] (blk_parents b)
          (blk_data b))).

Definition co_lookup (c : combo) : exn + cdata :=
  getitem (loc_comp (co_comp c)) (co_index c).

(** Lines 61 to 71 on one pass. *)
Definition deactivate_combo (allow_skip suppress_warnings : bool)
    (dm : deactivated_map) (c : combo) : M deactivated_map :=
  deactivate_index (loc_comp (co_comp c)) (fun _ _ => co_index c)
    allow_skip suppress_warnings [] dm (co_pt c).

(** *** What [get_inconsistent_initial_conditions] looks at, statically *)

(** [for x in l: acc = g(acc, x)] without store. *)
Section FoldE.
Context {A B : Type}.
Variable g : A -> B -> exn + A.

Fixpoint foldE (a : A) (l : list B) : exn + A :=
  match l with
  | [] => inr a
  | x :: l' =>
      match g a x with
      | inl e => inl e
      | inr a' => foldE a' l'
      end
  end.
End FoldE.

(** What a loop meets: an exception, an index without data, or a data
    object. *)
Inductive event : Type :=
  | Fail (e : exn)
  | Missing
  | Found (d : cdata).

(** What [component_data_objects] hands out when the flags are [act]. *)
Definition component_data_objects (act : nat -> bool) (ctypes : list ctype)
    (parents : list component) (d : cdata) : list cdata :=
  flat_map (fun lc =>
              List.filter (fun x => act (did x))
                          (map snd (centries (loc_comp lc))))
           (component_objects act ctypes parents d).

(** The lookups of lines 100 to 106 for one constraint. *)
Definition constraint_events_of (time : OrderedSet) (t0 : Z) (con : located)
  : list event :=
  match get_index_set_except (loc_comp con) time with
  | inl e => [Fail e]
  | inr info =>
      map (fun non_time_index =>
             match getitem (loc_comp con)
                     (index_getter info non_time_index t0) with
             | inl _ => Missing
             | inr d => Found d
             end) (set_except info)
  end.

Definition constraint_events (act : nat -> bool) (model : block)
    (time : OrderedSet) (t0 : Z) : list event :=
  flat_map (constraint_events_of time t0)
    (List.filter (eligible time)
       (component_objects act [Constraint] (blk_parents model)
          (blk_data model))).

(** Lines 107 to 116 on one lookup. *)
Definition constraint_step (allow_skip : bool) (tol : float)
    (inconsistent : list cdata) (ev : event) : exn + list cdata :=
  match ev with
  | Fail e => inl e
  | Missing => if allow_skip then inr inconsistent else inl KeyError
  | Found condata =>
      inr (if violated tol condata then cs_add condata inconsistent
           else inconsistent)
  end.

(** The violated constraint data that lines 128 to 137 reach below one
    block, in order. *)
Definition block_events_of (act : nat -> bool) (time : OrderedSet) (tol : float)
    (t0 : Z) (blk : located) : list event :=
  match get_index_set_except (loc_comp blk) time with
  | inl e => [Fail e]
  | inr info =>
      flat_map (fun non_time_index =>
                  match getitem (loc_comp blk)
                          (index_getter info non_time_index t0) with
                  | inl _ => [Missing]
                  | inr blkdata =>
                      map Found
                        (List.filter (violated tol)
                           (component_data_objects act [Constraint]
                              (loc_comp blk :: loc_parents blk) blkdata))
                  end) (set_except info)
  end.

Definition block_events (act : nat -> bool) (model : block)
    (time : OrderedSet) (tol : float) (t0 : Z) : list event :=
  flat_map (block_events_of act time tol t0)
    (List.filter (eligible time)
       (component_objects act [Block] (blk_parents model) (blk_data model))).

(** Lines 133 and 138 to 143 on what the second loop meets. *)
Definition block_step (inconsistent : list cdata) (ev : event)
  : exn + list cdata :=
  match ev with
  | Fail e => inl e
  | Missing => inl KeyError
  | Found condata =>
      if cs_mem condata inconsistent then inl ValueError
      else inr (cs_add condata inconsistent)
  end.

(** The result of [get_inconsistent_initial_conditions] as a function of
    the model and the initial flags. *)
Definition inconsistent_from (act : nat -> bool) (model : block)
    (time : OrderedSet) (tol : float) (t0 : option Z) (allow_skip : bool)
  : exn + list cdata :=
  match match t0 with
        | None => first time
        | Some t => inr t
        end with
  | inl e => inl e
  | inr t =>
      match foldE (constraint_step allow_skip tol) []
              (constraint_events act model time t) with
      | inl e => inl e
      | inr inconsistent =>
          foldE block_step inconsistent (block_events act model time tol t)
      end
  end.

(** The data object belongs to a component of the model. *)
Definition in_model (model : block) (d : cdata) : Prop :=
  exists lc,
    In lc (located_below (blk_parents model) (blk_data model))
    /\ In d (map snd (centries (loc_comp lc))).

(** *** Definitions for the further properties *)

(** Two computations that, run from stores related by [R], end in stores
    related by [R] with the same outcome. *)
Definition related (R : store -> store -> Prop) {A} (m m' : M A) : Prop :=
  forall s s', R s s' ->
    R (fst (m s)) (fst (m' s')) /\ snd (m s) = snd (m' s').

(** The stores have the same flags. *)
Definition same_flags (s s' : store) : Prop := flags s = flags s'.

(** The warning that line 68 prints on a pass without data. *)
Definition warning_of (c : combo) : nat * index :=
  index_warning (cid (loc_comp (co_comp c))) (co_index c).

(** The passes without data. *)
Definition missing (c : combo) : bool :=
  match co_lookup c with
  | inl _ => true
  | inr _ => false
  end.

(** Every data object in the dictionary is inactive. *)
Definition all_off (dm : deactivated_map) (s : store) : Prop :=
  forall pt i, In i (default [] (dm !! pt)) -> flags s !! i = Some false.

(** A solver that raises without touching the store. *)
Definition failing_solver : block -> M nat := fun _ => raise ValueError.

(** ** Example models *)

Module Demo.
Definition time : OrderedSet :=
  mkSet 1 [0; 1; 2] (Some "LAGRANGE-RADAU"%string).
Definition space : OrderedSet := mkSet 2 [7; 8] None.
(** A set discretized with a scheme the module does not support. *)
Definition forward_time : OrderedSet :=
  mkSet 1 [0; 1; 2] (Some "FORWARD Difference"%string).

Definition condata (i : nat) (b l u : float) : cdata := CData i b l u [].

(** [con1(t)], violated at [t = 0] only. *)
Definition con1 : component :=
  Comp 6 Constraint true [time]
    [([0], condata 40 1 0 0); ([1], condata 41 0 0 0);
     ([2], condata 42 0 0 0)].

(** [con2(x)], not indexed by time. *)
Definition con2 : component :=
  Comp 7 Constraint true [space]
    [([7], condata 50 0 0 0); ([8], condata 51 0 0 0)].

(** A scalar constraint inside a block data. *)
Definition inner_con (i : nat) (b : float) : component :=
  Comp (100 + i) Constraint true [] [([], condata (200 + i) b 0 0)].

(** [b2(t, x)], with no data at [(1, 8)]. *)
Definition b2 : component :=
  Comp 5 Block true [time; space]
    [([0; 7], CData 30 0 0 0 [inner_con 30 3]);
     ([0; 8], CData 31 0 0 0 [inner_con 31 0]);
     ([1; 7], CData 32 0 0 0 [inner_con 32 3]);
     ([2; 7], CData 34 0 0 0 [inner_con 34 3]);
     ([2; 8], CData 35 0 0 0 [inner_con 35 3])].

Definition fs : component :=
  Comp 1 Block true [] [([], CData 2 0 0 0 [b2; con1; con2])].

Definition m : block := mkBlock (CData 0 0 0 0 [fs]) [].

(** A model without [b2], hence without missing index. *)
Definition dense : block := mkBlock (CData 0 0 0 0 [con1; con2]) [].

(** A block indexed by time inside a block indexed by time. *)
Definition inner_blk (i : nat) : component :=
  Comp (300 + i) Block true [time]
    [([0], CData (400 + i) 0 0 0 [inner_con (500 + i) 3]);
     ([1], CData (410 + i) 0 0 0 [inner_con (510 + i) 3])].

Definition outer_blk : component :=
  Comp 8 Block true [time]
    [([0], CData 60 0 0 0 [inner_blk 0]);
     ([1], CData 61 0 0 0 [inner_blk 1])].

Definition nested : block := mkBlock (CData 0 0 0 0 [outer_blk]) [].

(** A block data that holds the same constraint under two names, as a
    [Reference] does. *)
Definition twice : component :=
  Comp 9 Block true [time]
    [([0], CData 70 0 0 0 [inner_con 1 3; inner_con 1 3])].

Definition aliased : block := mkBlock (CData 0 0 0 0 [twice]) [].

Definition fresh : store := mkStore ∅ [].

(** A store in which [con1[1]] has been deactivated by the user. *)
Definition con1_1_off : store := mkStore {[ 41%nat := false ]} [].

(** A solver that leaves the store alone and reports [0]. *)
Definition idle_solver : block -> M nat := fun _ => ret 0%nat.
End Demo.
(** ** Reasoning principles *)

Lemma triple_ret {A} (a : A) (Q : A -> store -> Prop) E :
  triple (Q a) (ret a) Q E.
Proof. intros s H. exact H. Qed.

Lemma triple_bind {A B} P (m : M A) (k : A -> M B) Q R E :
  triple P m Q E ->
  (forall a, triple (Q a) (k a) R E) ->
  triple P (bind m k) R E.
Proof.
  intros Hm Hk s Hs. unfold bind. specialize (Hm s Hs).
  destruct (m s) as [s' [e | a]]; [exact Hm |]. exact (Hk a s' Hm).
Qed.

Lemma triple_weaken {A} (P P' : store -> Prop) (m : M A)
    (Q Q' : A -> store -> Prop) (E E' : exn -> store -> Prop) :
  triple P m Q E ->
  (forall s, P' s -> P s) ->
  (forall a s, Q a s -> Q' a s) ->
  (forall e s, E e s -> E' e s) ->
  triple P' m Q' E'.
Proof.
  intros Hm HP HQ HE s Hs. specialize (Hm s (HP s Hs)).
  destruct (m s) as [s' [e | a]]; auto.
Qed.

Lemma triple_foldM {A B} (f : A -> B -> M A) (I : A -> store -> Prop) E l :
  (forall a x, In x l -> triple (I a) (f a x) I E) ->
  forall a, triple (I a) (foldM f a l) I E.
Proof.
  induction l as [| x l IH]; intros Hf a; simpl.
  - apply triple_ret.
  - eapply triple_bind.
    + apply Hf. now left.
    + intros a'. apply IH. intros a'' y Hy. apply Hf. now right.
Qed.

Lemma triple_get_active (P : store -> Prop) d E :
  triple P (get_active d) (fun _ => P) E.
Proof. intros s H. exact H. Qed.

Lemma located_below_sub parents i b l u cs c e :
  In c cs -> In e (centries c) ->
  forall lc, In lc (located_below (c :: parents) (snd e)) ->
             In lc (located_below parents (CData i b l u cs)).
Proof.
  intros Hc He lc Hlc. simpl. apply in_flat_map. exists c. split; [exact Hc |].
  right. destruct c as [ci k on ds es]. simpl in He.
  apply in_flat_map. exists e. auto.
Qed.

Lemma located_below_own parents i b l u cs c :
  In c cs -> In (mkLoc c parents) (located_below parents (CData i b l u cs)).
Proof.
  intros Hc. simpl. apply in_flat_map. exists c. split; [exact Hc | now left].
Qed.

(** An invariant of the loop body on every component below the root is an
    invariant of the whole loop over [component_objects]. *)
Lemma triple_for_component_objects {A} ctypes (loop_body : A -> located -> M A)
    (I : A -> store -> Prop) E (d : cdata) :
  forall parents,
  (forall a lc, In lc (located_below parents d) ->
                triple (I a) (loop_body a lc) I E) ->
  forall a, triple (I a) (for_component_objects ctypes loop_body parents d a) I E.
Proof.
  induction d as [i b l u cs IH] using cdata_nested_ind.
  intros parents Hbody a. simpl.
  eapply triple_bind; [apply triple_get_active |].
  intros [|]; [| apply triple_ret].
  eapply triple_bind.
  - apply triple_foldM. intros a1 c Hc. unfold hand_out.
    destruct (requested ctypes c); [| apply triple_ret].
    apply Hbody. now apply located_below_own.
  - intros a1. apply triple_foldM. intros a2 c Hc.
    rewrite List.Forall_forall in IH. specialize (IH c Hc).
    destruct c as [ci k on ds es].
    destruct (ctype_eqb k Block && on); [| apply triple_ret].
    apply triple_foldM. intros a3 e He.
    rewrite List.Forall_forall in IH. apply (IH e He).
    intros a4 lc Hlc. apply Hbody.
    eapply located_below_sub; eauto.
Qed.

(** ** Order of floating point numbers *)

Ltac order_cases :=
  repeat match goal with
    | |- context [Pos.compare_cont Eq ?x ?y] =>
        change (Pos.compare_cont Eq x y) with (Pos.compare x y) in *
    | H : context [Pos.compare_cont Eq ?x ?y] |- _ =>
        change (Pos.compare_cont Eq x y) with (Pos.compare x y) in *
    end;
  repeat match goal with
    | |- context [Z.compare ?x ?y] => destruct (Z.compare_spec x y)
    | H : context [Z.compare ?x ?y] |- _ => destruct (Z.compare_spec x y)
    end;
  repeat match goal with
    | |- context [Pos.compare ?x ?y] => destruct (Pos.compare_spec x y)
    | H : context [Pos.compare ?x ?y] |- _ => destruct (Pos.compare_spec x y)
    end;
  simpl in *; try reflexivity; try congruence; try lia.

(** The order of numbers that are not NaN is transitive. *)
Lemma SFcompare_trans a b c r1 r2 :
  SFcompare a b = Some r1 -> SFcompare b c = Some r2 ->
  r1 <> Gt -> r2 <> Gt ->
  SFcompare a c = Some (match r1 with Eq => r2 | _ => Lt end).
Proof.
  destruct a as [[] | [] | | [] m1 e1], b as [[] | [] | | [] m2 e2],
    c as [[] | [] | | [] m3 e3]; simpl; intros H1 H2 N1 N2;
    try discriminate;
    injection H1 as <-; injection H2 as <-; try reflexivity;
    try (exfalso; apply N1; reflexivity);
    try (exfalso; apply N2; reflexivity); order_cases.
Qed.

(** Two numbers that are not NaN are comparable. *)
Lemma SFcompare_total a b :
  SFcompare a a <> None -> SFcompare b b <> None ->
  SFcompare a b = Some Lt \/ SFcompare b a = Some Lt
  \/ SFcompare b a = Some Eq.
Proof.
  destruct a as [[] | [] | | [] m1 e1], b as [[] | [] | | [] m2 e2];
    simpl; intros Ha Hb; try congruence; auto; order_cases; auto.
Qed.

(** [tol < x] survives a smaller tolerance. *)
Lemma ltb_leb_trans (x y z : float) :
  PrimFloat.leb x y = true -> PrimFloat.ltb y z = true ->
  PrimFloat.ltb x z = true.
Proof.
  rewrite leb_spec, !ltb_spec. unfold SFleb, SFltb.
  destruct (SFcompare (Prim2SF x) (Prim2SF y)) as [r1 |] eqn:H1;
    [| discriminate].
  destruct (SFcompare (Prim2SF y) (Prim2SF z)) as [r2 |] eqn:H2;
    [| discriminate].
  intros Hr1 Hr2.
  rewrite (SFcompare_trans _ _ _ _ _ H1 H2)
    by (destruct r1, r2; discriminate).
  destruct r1, r2; try discriminate; reflexivity.
Qed.

Lemma ltb_trans (x y z : float) :
  PrimFloat.ltb x y = true -> PrimFloat.ltb y z = true ->
  PrimFloat.ltb x z = true.
Proof.
  rewrite !ltb_spec. unfold SFltb.
  destruct (SFcompare (Prim2SF x) (Prim2SF y)) as [r1 |] eqn:H1;
    [| discriminate].
  destruct (SFcompare (Prim2SF y) (Prim2SF z)) as [r2 |] eqn:H2;
    [| discriminate].
  intros Hr1 Hr2.
  rewrite (SFcompare_trans _ _ _ _ _ H1 H2)
    by (destruct r1, r2; discriminate).
  destruct r1, r2; try discriminate; reflexivity.
Qed.

(** Unless the first argument is NaN, something is below the maximum when it
    is below one of the two. *)
Lemma ltb_float_max tol a b :
  PrimFloat.is_nan a = false ->
  PrimFloat.ltb tol (float_max a b)
  = PrimFloat.ltb tol a || PrimFloat.ltb tol b.
Proof.
  unfold float_max, PrimFloat.is_nan. rewrite negb_false_iff. intros Ha.
  destruct (PrimFloat.ltb a b) eqn:Hab.
  - destruct (PrimFloat.ltb tol a) eqn:Hta; [| reflexivity].
    simpl. exact (ltb_trans _ _ _ Hta Hab).
  - destruct (PrimFloat.ltb tol b) eqn:Htb; [| now rewrite orb_false_r].
    rewrite orb_true_r.
    rewrite FloatAxioms.eqb_spec in Ha. rewrite ltb_spec in Hab, Htb.
    rewrite ltb_spec. unfold SFeqb, SFltb in *.
    destruct (SFcompare (Prim2SF tol) (Prim2SF b)) as [[] |] eqn:H1;
      try discriminate.
    assert (SFcompare (Prim2SF b) (Prim2SF b) <> None) as Hb.
    { destruct (Prim2SF tol) as [[] | [] | | [] ? ?],
        (Prim2SF b) as [[] | [] | | [] ? ?]; simpl in *; congruence. }
    assert (SFcompare (Prim2SF a) (Prim2SF a) <> None) as Ha'
      by (intros E; rewrite E in Ha; discriminate).
    destruct (SFcompare_total _ _ Ha' Hb) as [H | [H | H]].
    + rewrite H in Hab. discriminate.
    + now rewrite (SFcompare_trans _ _ _ _ _ H1 H) by discriminate.
    + now rewrite (SFcompare_trans _ _ _ _ _ H1 H) by discriminate.
Qed.

(** ** The shape of a model *)

Lemma located_below_cid d :
  forall parents lc,
    In lc (located_below parents d) -> In (cid (loc_comp lc)) (cids_below d).
Proof.
  induction d as [i b l u cs IH] using cdata_nested_ind.
  intros parents lc. simpl. rewrite !in_flat_map.
  intros (c & Hc & Hlc). exists c. split; [exact Hc |].
  destruct Hlc as [<- | Hlc]; [now left | right].
  rewrite List.Forall_forall in IH. specialize (IH c Hc).
  destruct c as [ci k on ds es]. simpl in IH.
  rewrite in_flat_map in *. destruct Hlc as (e & He & Hlc).
  exists e. split; [exact He |].
  rewrite List.Forall_forall in IH. exact (IH e He _ _ Hlc).
Qed.

Lemma located_below_entry_ids d :
  forall parents lc x,
    In lc (located_below parents d) -> In x (entry_ids (loc_comp lc)) ->
    In x (dids_below d).
Proof.
  induction d as [i b l u cs IH] using cdata_nested_ind.
  intros parents lc x. simpl. rewrite !in_flat_map.
  intros (c & Hc & Hlc) Hx. exists c. split; [exact Hc |].
  rewrite List.Forall_forall in IH. specialize (IH c Hc).
  destruct c as [ci k on ds es]. simpl in IH.
  rewrite in_flat_map.
  destruct Hlc as [<- | Hlc].
  - unfold entry_ids in Hx. simpl in Hx. apply in_map_iff in Hx.
    destruct Hx as (e & <- & He). exists e. split; [exact He | now left].
  - rewrite in_flat_map in Hlc. destruct Hlc as (e & He & Hlc).
    exists e. split; [exact He | right].
    rewrite List.Forall_forall in IH. exact (IH e He _ _ _ Hlc Hx).
Qed.

Lemma eligible_objects_located act cset ctypes d :
  forall parents lc,
    In lc (eligible_objects act cset ctypes parents d) ->
    In lc (located_below parents d).
Proof.
  induction d as [i b l u cs IH] using cdata_nested_ind.
  intros parents lc. simpl. destruct (act i); [| intros []].
  rewrite in_app_iff, filter_In, in_map_iff, !in_flat_map.
  intros [[(c & <- & Hc) _] | (c & Hc & Hlc)].
  - apply filter_In in Hc. exists c. split; [tauto | now left].
  - exists c. split; [exact Hc | right].
    rewrite List.Forall_forall in IH. specialize (IH c Hc).
    destruct c as [ci k on ds es]. simpl in IH.
    destruct (ctype_eqb k Block && on); [| destruct Hlc].
    rewrite in_flat_map in *. destruct Hlc as (e & He & Hlc).
    exists e. split; [exact He |].
    rewrite List.Forall_forall in IH. exact (IH e He _ _ Hlc).
Qed.

(** Below a Block indexed by the set nothing is eligible. *)
Lemma located_below_parents d :
  forall parents lc,
    In lc (located_below parents d) ->
    exists above, loc_parents lc = above ++ parents.
Proof.
  induction d as [i b l u cs IH] using cdata_nested_ind.
  intros parents lc. simpl. rewrite in_flat_map.
  intros (c & Hc & [<- | Hlc]); [now exists [] |].
  rewrite List.Forall_forall in IH. specialize (IH c Hc).
  destruct c as [ci k on ds es]. simpl in IH.
  rewrite in_flat_map in Hlc. destruct Hlc as (e & He & Hlc).
  rewrite List.Forall_forall in IH.
  destruct (IH e He _ _ Hlc) as [above ->].
  exists (above ++ [Comp ci k on ds es]). now rewrite <- app_assoc.
Qed.

Lemma under_not_eligible cset parents d lc :
  under cset parents = true ->
  In lc (located_below parents d) -> eligible cset lc = false.
Proof.
  intros Hu Hlc. destruct (located_below_parents _ _ _ Hlc) as [above Heq].
  unfold eligible, is_in_block_indexed_by. rewrite Heq, existsb_app.
  unfold under in Hu. rewrite Hu, orb_true_r. simpl. apply andb_false_r.
Qed.

Lemma under_eligible_objects act cset ctypes parents d :
  under cset parents = true ->
  eligible_objects act cset ctypes parents d = [].
Proof.
  intros Hu.
  destruct (eligible_objects act cset ctypes parents d) as [| lc rest] eqn:E;
    [reflexivity |].
  assert (In lc (eligible_objects act cset ctypes parents d)) as Hin
    by (rewrite E; now left).
  pose proof (eligible_objects_located _ _ _ _ _ _ Hin) as Hloc.
  pose proof (under_not_eligible _ _ _ _ Hu Hloc) as Hne.
  exfalso. revert Hin Hne. clear. revert parents lc.
  induction d as [i b l u cs IH] using cdata_nested_ind.
  intros parents lc. simpl. destruct (act i); [| intros []].
  rewrite in_app_iff, filter_In, in_flat_map.
  intros [[_ He] | (c & Hc & Hlc)] Hne; [congruence |].
  rewrite List.Forall_forall in IH. specialize (IH c Hc).
  destruct c as [ci k on ds es]. simpl in IH.
  destruct (ctype_eqb k Block && on); [| destruct Hlc].
  rewrite in_flat_map in Hlc. destruct Hlc as (e & He & Hlc).
  rewrite List.Forall_forall in IH. exact (IH e He _ _ Hlc Hne).
Qed.

(** The static walk reads the flags of the root and of the data below it
    only. *)
Lemma eligible_objects_ext act act' cset ctypes d :
  forall parents,
    (forall i, In i (did d :: dids_below d) -> act i = act' i) ->
    eligible_objects act cset ctypes parents d
    = eligible_objects act' cset ctypes parents d.
Proof.
  induction d as [i b l u cs IH] using cdata_nested_ind.
  intros parents Hact. cbn [eligible_objects].
  rewrite <- (Hact i) by now left.
  destruct (act i); [| reflexivity]. f_equal.
  assert (forall x, In x (dids_below (CData i b l u cs)) -> act x = act' x)
    as Hbelow by (intros x Hx; apply Hact; now right).
  clear Hact. simpl in Hbelow.
  induction cs as [| c cs IHcs]; [reflexivity |].
  simpl. apply List.Forall_cons_iff in IH. destruct IH as [IHc IHrest].
  f_equal.
  - destruct c as [ci k on ds es]. simpl in IHc.
    destruct (ctype_eqb k Block && on); [| reflexivity].
    assert (forall x,
              In x (flat_map (fun e => did (snd e) :: dids_below (snd e)) es)
              -> act x = act' x) as Hes.
    { intros x Hx. apply Hbelow. simpl. apply in_app_iff. now left. }
    clear Hbelow IHcs IHrest.
    generalize (Comp ci k on ds es :: parents). intros above.
    induction es as [| e es IHes]; [reflexivity |].
    simpl. apply List.Forall_cons_iff in IHc. destruct IHc as [IHe IHes'].
    f_equal.
    + apply IHe. intros x Hx. apply Hes. simpl in *.
      destruct Hx as [Hx | Hx]; [now left | right].
      apply in_app_iff. now left.
    + apply IHes; [exact IHes' |]. intros x Hx. apply Hes. simpl.
      right. apply in_app_iff. now right.
  - apply IHcs; [exact IHrest |]. intros x Hx. apply Hbelow. simpl.
    apply in_app_iff. now right.
Qed.

(** *** Lists without duplicates *)

Lemma NoDup_app_In {A} (l k : list A) :
  NoDup (l ++ k) <->
  NoDup l /\ (forall x, In x l -> ~ In x k) /\ NoDup k.
Proof.
  rewrite NoDup_app. split; intros (H1 & H2 & H3); repeat split; auto.
  - intros x Hl Hk. apply (H2 x); now apply list_elem_of_In.
  - intros x Hl Hk. apply (H2 x); now apply list_elem_of_In.
Qed.

Lemma NoDup_flat_map_cons {A B} (h : A -> B) (g : A -> list B) l :
  NoDup (flat_map (fun x => h x :: g x) l) ->
  NoDup (map h l) /\ NoDup (flat_map g l) /\
  (forall x y, In x l -> In y l -> ~ In (h x) (g y)).
Proof.
  induction l as [| a l IH]; simpl.
  - intros _. repeat split; [constructor | constructor | intros x y []].
  - intros H. apply NoDup_cons in H. destruct H as [Hh H].
    rewrite list_elem_of_In in Hh.
    apply NoDup_app_In in H. destruct H as (Hg & Hdisj & Hrest).
    destruct (IH Hrest) as (IH1 & IH2 & IH3).
    assert (forall y, In y l -> In (h y) (flat_map (fun x => h x :: g x) l))
      as Hhin.
    { intros y Hy. apply in_flat_map. exists y. split; [exact Hy | now left]. }
    assert (forall y i, In y l -> In i (g y) ->
                        In i (flat_map (fun x => h x :: g x) l)) as Hgin.
    { intros y i Hy Hi. apply in_flat_map. exists y.
      split; [exact Hy | now right]. }
    repeat split.
    + apply NoDup_cons. split; [| exact IH1].
      rewrite list_elem_of_In. intros Hin. apply in_map_iff in Hin.
      destruct Hin as (y & Heq & Hy). apply Hh. apply in_app_iff. right.
      rewrite <- Heq. now apply Hhin.
    + apply NoDup_app_In. repeat split; [exact Hg | | exact IH2].
      intros i Hi Hi'. apply (Hdisj i Hi). apply in_flat_map in Hi'.
      destruct Hi' as (y & Hy & Hi'). eapply Hgin; eauto.
    + intros x y [<- | Hx] [<- | Hy] Hin.
      * apply Hh. apply in_app_iff. now left.
      * apply Hh. apply in_app_iff. right. eapply Hgin; eauto.
      * apply (Hdisj _ Hin). now apply Hhin.
      * exact (IH3 x y Hx Hy Hin).
Qed.

Lemma NoDup_flat_map_disjoint {A B} (f : A -> list B) l x y i :
  NoDup (flat_map f l) -> In x l -> In y l -> x <> y ->
  In i (f x) -> In i (f y) -> False.
Proof.
  induction l as [| a l IH]; simpl; [intros _ [] |].
  intros H Hx Hy Hne Hix Hiy. apply NoDup_app_In in H.
  destruct H as (Ha & Hdisj & Hrest).
  destruct Hx as [-> | Hx], Hy as [-> | Hy].
  - now apply Hne.
  - apply (Hdisj i Hix). apply in_flat_map. eauto.
  - apply (Hdisj i Hiy). apply in_flat_map. eauto.
  - exact (IH Hrest Hx Hy Hne Hix Hiy).
Qed.

Lemma NoDup_flat_map_elem {A B} (f : A -> list B) l x :
  NoDup (flat_map f l) -> In x l -> NoDup (f x).
Proof.
  induction l as [| a l IH]; simpl; [intros _ [] |].
  intros H Hx. apply NoDup_app_In in H. destruct H as (Ha & _ & Hrest).
  destruct Hx as [-> | Hx]; auto.
Qed.

Lemma NoDup_flat_map_same {A B} (f : A -> list B) l x y i :
  NoDup (flat_map f l) -> In x l -> In y l ->
  In i (f x) -> In i (f y) -> x = y.
Proof.
  induction l as [| a l IH]; simpl; [intros _ [] |].
  intros H Hx Hy Hix Hiy. apply NoDup_app_In in H.
  destruct H as (Ha & Hdisj & Hrest).
  destruct Hx as [-> | Hx], Hy as [-> | Hy].
  - reflexivity.
  - exfalso. apply (Hdisj i Hix). apply in_flat_map. eauto.
  - exfalso. apply (Hdisj i Hiy). apply in_flat_map. eauto.
  - exact (IH Hrest Hx Hy Hix Hiy).
Qed.

Lemma located_below_unfold parents i b l u cs :
  located_below parents (CData i b l u cs)
  = flat_map (fun c =>
                mkLoc c parents ::
                flat_map (fun e => located_below (c :: parents) (snd e))
                         (centries c)) cs.
Proof. simpl. apply flat_map_ext. intros []. reflexivity. Qed.

Lemma dids_below_sub_dids i b l u cs :
  dids_below (CData i b l u cs) = flat_map sub_dids cs.
Proof. simpl. apply flat_map_ext. intros []. reflexivity. Qed.

(** Without shared identities a data object belongs to one component. *)
Lemma entry_owner d :
  forall parents lc lc' i,
    NoDup (dids_below d) ->
    In lc (located_below parents d) -> In lc' (located_below parents d) ->
    In i (entry_ids (loc_comp lc)) -> In i (entry_ids (loc_comp lc')) ->
    lc = lc'.
Proof.
  induction d as [n b l u cs IH] using cdata_nested_ind.
  intros parents lc lc' i Hnd Hlc Hlc' Hi Hi'.
  rewrite dids_below_sub_dids in Hnd. rewrite located_below_unfold in Hlc, Hlc'.
  apply in_flat_map in Hlc, Hlc'.
  destruct Hlc as (c & Hc & Hlc), Hlc' as (c' & Hc' & Hlc').
  assert (forall c0 lc0,
            In lc0 (mkLoc c0 parents ::
                    flat_map (fun e => located_below (c0 :: parents) (snd e))
                      (centries c0)) ->
            In i (entry_ids (loc_comp lc0)) -> In i (sub_dids c0)) as Hsub.
  { intros c0 lc0 [<- | Hin] Hi0.
    - unfold entry_ids in Hi0. simpl in Hi0. apply in_map_iff in Hi0.
      destruct Hi0 as (e & <- & He). apply in_flat_map.
      exists e. split; [exact He | now left].
    - apply in_flat_map in Hin. destruct Hin as (e & He & Hin).
      apply in_flat_map. exists e. split; [exact He | right].
      eapply located_below_entry_ids; eauto. }
  assert (c = c') as <-.
  { eapply (NoDup_flat_map_same sub_dids cs); eauto. }
  pose proof (NoDup_flat_map_elem sub_dids cs c Hnd Hc) as Hndc.
  unfold sub_dids in Hndc.
  assert (forall lc0 e,
            In e (centries c) ->
            In lc0 (located_below (c :: parents) (snd e)) ->
            In i (entry_ids (loc_comp lc0)) ->
            In i (entry_ids c) -> False) as Hclash.
  { intros lc0 e He Hin Hi0 Hic. unfold entry_ids in Hic.
    apply in_map_iff in Hic. destruct Hic as (e0 & Heq & He0).
    assert (In i (dids_below (snd e))) as Hbelow
      by (eapply located_below_entry_ids; eauto).
    assert (e0 = e) as ->.
    { eapply (NoDup_flat_map_same _ (centries c) e0 e i Hndc He0 He).
      - now left.
      - now right. }
    pose proof (NoDup_flat_map_elem _ _ e Hndc He) as Hblock.
    apply NoDup_cons in Hblock. destruct Hblock as [Hhd _].
    apply Hhd. apply list_elem_of_In. now rewrite Heq. }
  destruct Hlc as [<- | Hlc], Hlc' as [<- | Hlc'].
  - reflexivity.
  - exfalso. apply in_flat_map in Hlc'. destruct Hlc' as (e & He & Hlc').
    eapply Hclash; eauto.
  - exfalso. apply in_flat_map in Hlc. destruct Hlc as (e & He & Hlc).
    eapply Hclash; eauto.
  - apply in_flat_map in Hlc, Hlc'.
    destruct Hlc as (e & He & Hlc), Hlc' as (e' & He' & Hlc').
    assert (e = e') as <-.
    { eapply (NoDup_flat_map_same _ (centries c) e e' i Hndc He He').
      - right. eapply located_below_entry_ids; eauto.
      - right. eapply located_below_entry_ids; eauto. }
    rewrite List.Forall_forall in IH. specialize (IH c Hc).
    rewrite List.Forall_forall in IH.
    apply (IH e He (c :: parents) lc lc' i); auto.
    pose proof (NoDup_flat_map_elem _ _ e Hndc He) as Hblock.
    apply NoDup_cons in Hblock. tauto.
Qed.

Lemma NoDup_map_inj {A B} (f : A -> B) l x y :
  NoDup (map f l) -> In x l -> In y l -> f x = f y -> x = y.
Proof.
  induction l as [| a l IH]; simpl; [intros _ [] |].
  intros H Hx Hy Heq. apply NoDup_cons in H. destruct H as [Ha H].
  rewrite list_elem_of_In in Ha.
  destruct Hx as [-> | Hx], Hy as [-> | Hy].
  - reflexivity.
  - exfalso. apply Ha. rewrite Heq. now apply in_map.
  - exfalso. apply Ha. rewrite <- Heq. now apply in_map.
  - now apply IH.
Qed.

Lemma located_entries_nodup d :
  forall parents lc,
    NoDup (dids_below d) -> In lc (located_below parents d) ->
    NoDup (entry_ids (loc_comp lc)).
Proof.
  induction d as [n b l u cs IH] using cdata_nested_ind.
  intros parents lc Hnd Hlc.
  rewrite dids_below_sub_dids in Hnd. rewrite located_below_unfold in Hlc.
  apply in_flat_map in Hlc. destruct Hlc as (c & Hc & Hlc).
  pose proof (NoDup_flat_map_elem sub_dids cs c Hnd Hc) as Hndc.
  unfold sub_dids in Hndc.
  destruct (NoDup_flat_map_cons (fun e => did (snd e))
              (fun e => dids_below (snd e)) (centries c) Hndc)
    as (Hids & Hbelow & _).
  destruct Hlc as [<- | Hlc]; [exact Hids |].
  apply in_flat_map in Hlc. destruct Hlc as (e & He & Hlc).
  rewrite List.Forall_forall in IH. specialize (IH c Hc).
  rewrite List.Forall_forall in IH.
  apply (IH e He (c :: parents) lc); [| exact Hlc].
  exact (NoDup_flat_map_elem (fun e => dids_below (snd e)) (centries c) e
           Hbelow He).
Qed.

Lemma located_below_trans d :
  forall parents lc e lc',
    In lc (located_below parents d) ->
    In e (centries (loc_comp lc)) ->
    In lc' (located_below (loc_comp lc :: loc_parents lc) (snd e)) ->
    In lc' (located_below parents d).
Proof.
  induction d as [n b l u cs IH] using cdata_nested_ind.
  intros parents lc e lc' Hlc He Hlc'.
  rewrite located_below_unfold in Hlc. apply in_flat_map in Hlc.
  destruct Hlc as (c & Hc & Hlc). destruct Hlc as [<- | Hlc].
  - simpl in He, Hlc'.
    exact (located_below_sub parents n b l u cs c e Hc He lc' Hlc').
  - apply in_flat_map in Hlc. destruct Hlc as (e0 & He0 & Hlc).
    rewrite List.Forall_forall in IH. specialize (IH c Hc).
    rewrite List.Forall_forall in IH.
    apply (located_below_sub parents n b l u cs c e0 Hc He0 lc').
    exact (IH e0 He0 (c :: parents) lc e lc' Hlc He Hlc').
Qed.

(** Without shared identities, a data object of the model is known by its
    identity. *)
Lemma data_unique model d d' :
  NoDup (dids_below (blk_data model)) ->
  in_model model d -> in_model model d' -> did d = did d' -> d = d'.
Proof.
  intros Hnd (lc & Hlc & Hd) (lc' & Hlc' & Hd') Heq.
  assert (In (did d) (entry_ids (loc_comp lc))) as Hi.
  { unfold entry_ids. rewrite <- map_map. now apply in_map. }
  assert (In (did d) (entry_ids (loc_comp lc'))) as Hi'.
  { unfold entry_ids. rewrite <- map_map, Heq. now apply in_map. }
  assert (lc = lc') as <- by (eapply entry_owner; eauto).
  pose proof (located_entries_nodup _ _ _ Hnd Hlc) as Hids.
  unfold entry_ids in Hids. rewrite <- map_map in Hids.
  eapply NoDup_map_inj; eauto.
Qed.

(** ** The loop of [deactivate_model_at] *)

Lemma foldM_app {A B} (f : A -> B -> M A) l1 l2 a s :
  foldM f a (l1 ++ l2) s = bind (foldM f a l1) (fun a' => foldM f a' l2) s.
Proof.
  revert a s. induction l1 as [| x l1 IH]; intros a s; simpl; [reflexivity |].
  unfold bind. destruct (f a x s) as [s' [e | a']]; [reflexivity |].
  apply IH.
Qed.

Lemma getitem_entry c idx d :
  getitem c idx = inr d -> In (idx, d) (centries c).
Proof.
  unfold getitem. destruct (find _ _) as [e |] eqn:Hf; [| discriminate].
  intros [= <-]. apply find_some in Hf. destruct Hf as [Hin Heq].
  unfold index_eqb in Heq. apply bool_decide_eq_true in Heq.
  destruct e as [i' d']. simpl in *. now subst.
Qed.

Lemma getitem_entry_id c idx d :
  getitem c idx = inr d -> In (did d) (entry_ids c).
Proof.
  intros H. apply getitem_entry in H. unfold entry_ids.
  apply in_map_iff. now exists (idx, d).
Qed.

Lemma unchanged_outside_refl ids s : unchanged_outside ids s s.
Proof. intros i _. reflexivity. Qed.

Lemma unchanged_outside_trans ids s1 s2 s3 :
  unchanged_outside ids s1 s2 -> unchanged_outside ids s2 s3 ->
  unchanged_outside ids s1 s3.
Proof. intros H12 H23 i Hi. rewrite (H23 i Hi). exact (H12 i Hi). Qed.

Lemma unchanged_outside_mono ids ids' s s' :
  (forall i, In i ids -> In i ids') ->
  unchanged_outside ids s s' -> unchanged_outside ids' s s'.
Proof. intros Hsub H i Hi. apply H. auto. Qed.

Lemma frame_run {A} ids (m : M A) s :
  frame ids m -> unchanged_outside ids s (fst (m s)).
Proof.
  intros H. specialize (H s s (unchanged_outside_refl ids s)).
  destruct (m s) as [s' [e | a]]; exact H.
Qed.

Lemma frame_ret {A} ids (a : A) : frame ids (ret a).
Proof. intros s0 s H. exact H. Qed.

Lemma frame_raise {A} ids e : frame ids (@raise A e).
Proof. intros s0 s H. exact H. Qed.

Lemma frame_lift {A} ids (r : exn + A) : frame ids (lift r).
Proof. destruct r; [apply frame_raise | apply frame_ret]. Qed.

Lemma frame_bind {A B} ids (m : M A) (k : A -> M B) :
  frame ids m -> (forall a, frame ids (k a)) -> frame ids (bind m k).
Proof.
  intros Hm Hk s0. eapply triple_bind; [apply Hm |]. intros a. apply Hk.
Qed.

Lemma frame_foldM {A B} ids (f : A -> B -> M A) l a :
  (forall a x, In x l -> frame ids (f a x)) -> frame ids (foldM f a l).
Proof.
  intros Hf s0.
  apply (triple_foldM f (fun _ => unchanged_outside ids s0)).
  intros a' x Hx. apply Hf, Hx.
Qed.

Lemma frame_print ids w : frame ids (print w).
Proof. intros s0 s H. exact H. Qed.

Lemma frame_get_active ids d : frame ids (get_active d).
Proof. intros s0 s H. exact H. Qed.

Lemma frame_deactivate ids d : In d ids -> frame ids (deactivate d).
Proof.
  intros Hd s0 s H i Hi. simpl.
  rewrite lookup_insert_ne; [apply H, Hi |]. intros ->. contradiction.
Qed.

Lemma frame_activate ids d : In d ids -> frame ids (activate d).
Proof.
  intros Hd s0 s H i Hi. simpl.
  rewrite lookup_insert_ne; [apply H, Hi |]. intros ->. contradiction.
Qed.

Lemma frame_mono {A} ids ids' (m : M A) :
  (forall i, In i ids -> In i ids') -> frame ids m -> frame ids' m.
Proof.
  intros Hsub Hm s0 s Hs.
  pose proof (frame_run ids m s Hm) as Hrun.
  assert (unchanged_outside ids' s0 (fst (m s))) as Hres.
  { eapply unchanged_outside_trans; [exact Hs |].
    eapply unchanged_outside_mono; eauto. }
  destruct (m s) as [s' [e | a]]; exact Hres.
Qed.

Lemma frame_deactivate_index c getter al sw other dm pt :
  frame (entry_ids c) (deactivate_index c getter al sw other dm pt).
Proof.
  unfold deactivate_index. destruct (getitem c _) as [e | d] eqn:Hg.
  - apply frame_bind.
    + destruct sw; [apply frame_ret | apply frame_print].
    + intros _. destruct al; [apply frame_ret | apply frame_raise].
  - apply frame_bind.
    + apply frame_deactivate. eapply getitem_entry_id; eauto.
    + intros _. apply frame_ret.
Qed.

Lemma frame_deactivate_eligible cset pts al sw dm lc :
  frame (entry_ids (loc_comp lc)) (deactivate_eligible cset pts al sw dm lc).
Proof.
  unfold deactivate_eligible. apply frame_bind; [apply frame_lift |].
  intros info. apply frame_foldM. intros dm1 other _.
  apply frame_foldM. intros dm2 pt _. apply frame_deactivate_index.
Qed.

Lemma deactivate_component_unvisited cset pts al sw vis dm lc s :
  cid (loc_comp lc) ∉ vis ->
  deactivate_component cset pts al sw (vis, dm) lc s
  = if eligible cset lc then
      match deactivate_eligible cset pts al sw dm lc s with
      | (s', inl e) => (s', inl e)
      | (s', inr dm') => (s', inr ({[cid (loc_comp lc)]} ∪ vis, dm'))
      end
    else (s, inr ({[cid (loc_comp lc)]} ∪ vis, dm)).
Proof.
  intros Hvis. unfold deactivate_component, eligible, deactivate_eligible.
  rewrite bool_decide_eq_false_2 by exact Hvis.
  destruct (_ && _); [| reflexivity].
  unfold bind. destruct (lift _ s) as [s1 [e | info]]; [reflexivity |].
  destruct (foldM _ dm (set_except info) s1) as [s2 [e | dm']]; reflexivity.
Qed.

(** ** Validation of the points *)

Lemma check_points_ok cset pts s :
  Forall (fun pt => contains cset pt = true) pts ->
  check_points cset pts s = (s, inr tt).
Proof.
  unfold check_points. induction 1 as [| pt pts Hpt _ IH]; simpl; [reflexivity |].
  unfold bind. rewrite Hpt. simpl. exact IH.
Qed.

Lemma check_points_fail cset pts s :
  (exists pt, In pt pts /\ contains cset pt = false) ->
  check_points cset pts s = (s, inl ValueError).
Proof.
  unfold check_points. intros (pt & Hin & Hpt).
  induction pts as [| p pts IH]; simpl; [destruct Hin |].
  unfold bind. destruct (contains cset p) eqn:Hp; simpl.
  - apply IH. destruct Hin as [-> | Hin]; [congruence | exact Hin].
  - reflexivity.
Qed.

(** C5: a requested point outside the set makes [deactivate_model_at] raise
    [ValueError] (the spec's InvalidPointError) with the store untouched:
    the points are checked before the traversal starts. *)
Theorem deactivate_model_at_invalid_point b cset pts allow_skip
    suppress_warnings s :
  (exists pt, In pt (as_list pts) /\ contains cset pt = false) ->
  deactivate_model_at b cset pts allow_skip suppress_warnings s
  = (s, inl ValueError).
Proof.
  intros H. unfold deactivate_model_at, bind.
  now rewrite (check_points_fail _ _ _ H).
Qed.

Lemma deactivate_model_at_invalid_point_witness :
  deactivate_model_at Demo.m Demo.time (Many [1; 5]) true false Demo.fresh
  = (Demo.fresh, inl ValueError).
Proof.
  apply deactivate_model_at_invalid_point.
  exists 5. split; [simpl; tauto | reflexivity].
Defined.

(** ** The interleaved walk against the static walk *)

Section LazyWalk.
Variable cset : OrderedSet.
Variable pts : list Z.
Variables allow_skip suppress_warnings : bool.

Let types := [Block; Constraint].
Let loop_body := deactivate_component cset pts allow_skip suppress_warnings.
Let on_eligible := deactivate_eligible cset pts allow_skip suppress_warnings.

Lemma frame_deactivate_component acc lc :
  frame (if eligible cset lc then entry_ids (loc_comp lc) else [])
        (loop_body acc lc).
Proof.
  destruct acc as [vis dm]. intros s0 s Hs.
  destruct (decide (cid (loc_comp lc) ∈ vis)) as [Hin | Hout].
  - unfold loop_body, deactivate_component.
    rewrite bool_decide_eq_true_2 by exact Hin. exact Hs.
  - unfold loop_body. rewrite deactivate_component_unvisited by exact Hout.
    destruct (eligible cset lc); [| exact Hs].
    pose proof (frame_deactivate_eligible cset pts allow_skip
                  suppress_warnings dm lc s0 s Hs) as H.
    destruct (deactivate_eligible _ _ _ _ dm lc s) as [s' [e | dm']];
      exact H.
Qed.

Lemma frame_walk d parents acc :
  frame (dids_below d)
        (for_component_objects types loop_body parents d acc).
Proof.
  intros s0.
  apply (triple_for_component_objects types loop_body
           (fun _ => unchanged_outside (dids_below d) s0)).
  intros a lc Hlc.
  apply (frame_mono (if eligible cset lc then entry_ids (loc_comp lc)
                     else [])).
  - intros i Hi. destruct (eligible cset lc); [| destruct Hi].
    eapply located_below_entry_ids; eauto.
  - apply frame_deactivate_component.
Qed.

(** The components a block data owns directly. *)
Lemma own_components parents cs :
  forall vis dm s,
    NoDup (map cid cs) ->
    (forall c, In c cs -> cid c ∉ vis) ->
    agree (fun x => x ∈ vis \/ In x (map cid cs))
      (foldM (hand_out types loop_body parents) (vis, dm) cs s)
      (foldM on_eligible dm
         (List.filter (eligible cset)
            (map (fun c => mkLoc c parents)
                 (List.filter (requested types) cs))) s).
Proof.
  induction cs as [| c cs IH]; intros vis dm s Hnd Hvis.
  - simpl. split; [reflexivity |]. simpl. split; [reflexivity | auto].
  - apply NoDup_cons in Hnd. destruct Hnd as [Hc Hnd].
    rewrite list_elem_of_In in Hc.
    assert (forall vis1 dm1 s1,
              (forall x, x ∈ vis1 -> x ∈ vis \/ x = cid c) ->
              agree (fun x => x ∈ vis \/ In x (map cid (c :: cs)))
                (foldM (hand_out types loop_body parents) (vis1, dm1) cs s1)
                (foldM on_eligible dm1
                   (List.filter (eligible cset)
                      (map (fun c => mkLoc c parents)
                           (List.filter (requested types) cs))) s1))
      as Hrest.
    { intros vis1 dm1 s1 Hsub.
      assert (forall c', In c' cs -> cid c' ∉ vis1) as Hvis1.
      { intros c' Hc' Hin. destruct (Hsub _ Hin) as [Hv | Heq].
        - apply (Hvis c'); [now right | exact Hv].
        - apply Hc. rewrite <- Heq. now apply in_map. }
      specialize (IH vis1 dm1 s1 Hnd Hvis1).
      destruct IH as [Hst Hres]. split; [exact Hst |].
      destruct (snd (foldM (hand_out types loop_body parents) _ cs s1))
        as [e1 | [v1 d1]];
        destruct (snd (foldM on_eligible dm1 _ s1)) as [e2 | d2];
        try exact Hres.
      destruct Hres as [-> Hb]. split; [reflexivity |].
      intros x Hx. destruct (Hb x Hx) as [Hv | Hm].
      - destruct (Hsub x Hv) as [Hv' | ->]; [now left |].
        right. now left.
      - right. now right. }
    simpl foldM at 1. unfold bind, hand_out at 1. simpl List.filter.
    destruct (requested types c) eqn:Hreq.
    + unfold loop_body at 1.
      rewrite deactivate_component_unvisited
        by (apply Hvis; now left).
      simpl map. simpl List.filter. simpl loc_comp.
      destruct (eligible cset (mkLoc c parents)) eqn:Hel.
      * simpl foldM. unfold bind. fold on_eligible.
        destruct (on_eligible dm (mkLoc c parents) s) as [s1 [e | dm1]].
        -- split; reflexivity.
        -- apply Hrest. intros x Hx. apply elem_of_union in Hx.
           destruct Hx as [Hx | Hx]; [right | now left].
           now apply elem_of_singleton in Hx.
      * apply Hrest. intros x Hx. apply elem_of_union in Hx.
        destruct Hx as [Hx | Hx]; [right | now left].
        now apply elem_of_singleton in Hx.
    + apply Hrest. intros x Hx. now left.
Qed.
Lemma agree_bind (B1 B2 : nat -> Prop)
    (m1 : M (gset nat * deactivated_map)) (m2 : M deactivated_map)
    (k1 : gset nat * deactivated_map -> M (gset nat * deactivated_map))
    (k2 : deactivated_map -> M deactivated_map) s :
  agree B1 (m1 s) (m2 s) ->
  (forall vis1 dm1,
      snd (m1 s) = inr (vis1, dm1) -> (forall x, x ∈ vis1 -> B1 x) ->
      agree B2 (k1 (vis1, dm1) (fst (m1 s))) (k2 dm1 (fst (m1 s)))) ->
  agree B2 (bind m1 k1 s) (bind m2 k2 s).
Proof.
  intros [Hst Hres] Hk. unfold bind.
  destruct (m1 s) as [s1 [e1 | [v1 d1]]], (m2 s) as [s2 [e2 | d2]];
    simpl in *; try contradiction.
  - subst. split; reflexivity.
  - destruct Hres as [-> Hb]. subst s2. now apply Hk.
Qed.

Lemma agree_weaken (B1 B2 : nat -> Prop) r1 r2 :
  (forall x, B1 x -> B2 x) -> agree B1 r1 r2 -> agree B2 r1 r2.
Proof.
  intros HB [Hst Hres]. split; [exact Hst |].
  destruct (snd r1) as [e1 | [v1 d1]], (snd r2) as [e2 | d2]; auto.
  destruct Hres as [-> Hb]. split; auto.
Qed.

Lemma unchanged_is_active ids s s' i :
  unchanged_outside ids s s' -> ~ In i ids -> is_active s' i = is_active s i.
Proof. intros H Hi. unfold is_active. now rewrite (H i Hi). Qed.

Lemma stable_eligible_objects parents d s0 s :
  stable cset parents (did d :: dids_below d) s0 s ->
  eligible_objects (is_active s) cset types parents d
  = eligible_objects (is_active s0) cset types parents d.
Proof.
  intros [Hu | Hsame].
  - now rewrite !under_eligible_objects.
  - now apply eligible_objects_ext.
Qed.

Lemma stable_step parents ids touched s0 s s' :
  stable cset parents ids s0 s ->
  unchanged_outside touched s s' ->
  (forall i, In i ids -> ~ In i touched) ->
  stable cset parents ids s0 s'.
Proof.
  intros [Hu | Hsame] Hun Hdisj; [now left | right].
  intros i Hi. rewrite (unchanged_is_active touched s s') by auto.
  now apply Hsame.
Qed.

Lemma stable_sub parents ids ids' s0 s :
  (forall i, In i ids' -> In i ids) ->
  stable cset parents ids s0 s -> stable cset parents ids' s0 s.
Proof. intros Hsub [Hu | Hsame]; [now left | right]. auto. Qed.

(** The data objects of one Block component, one after the other. *)
Lemma walk_entries above s0 (es : list (index * cdata)) :
  Forall (fun e => walk_agrees cset pts allow_skip suppress_warnings
                     (snd e)) es ->
  forall vis dm s,
    NoDup (flat_map (fun e => cids_below (snd e)) es) ->
    (forall x, In x (flat_map (fun e => cids_below (snd e)) es) ->
               x ∉ vis) ->
    NoDup (flat_map (fun e => did (snd e) :: dids_below (snd e)) es) ->
    stable cset above
      (flat_map (fun e => did (snd e) :: dids_below (snd e)) es) s0 s ->
    agree (fun x => x ∈ vis \/
                    In x (flat_map (fun e => cids_below (snd e)) es))
      (foldM (fun a e => for_component_objects types loop_body above
                           (snd e) a) (vis, dm) es s)
      (foldM on_eligible dm
         (flat_map (fun e => eligible_objects (is_active s0) cset types
                               above (snd e)) es) s).
Proof.
  induction 1 as [| e es He _ IH]; intros vis dm s Hc Hvis Hd Hst.
  - simpl. split; [reflexivity |]. simpl. split; [reflexivity | auto].
  - simpl in Hc, Hvis, Hd, Hst |- *.
    apply NoDup_app_In in Hc. destruct Hc as (Hc1 & Hc12 & Hc2).
    apply NoDup_cons in Hd. destruct Hd as [_ Hd].
    apply NoDup_app_In in Hd. destruct Hd as (Hd1 & Hd12 & Hd2).
    rewrite foldM_app.
    apply (agree_bind
             (fun x => x ∈ vis \/ In x (cids_below (snd e)))).
    + rewrite <- (stable_eligible_objects above (snd e) s0 s).
      * apply He; [exact Hc1 | | exact Hd1].
        intros x Hx. apply Hvis. apply in_app_iff. now left.
      * eapply stable_sub; [| exact Hst].
        intros i [Hi | Hi]; [now left | right].
        apply in_app_iff. now left.
    + intros vis1 dm1 _ Hb.
      eapply agree_weaken; [| apply IH].
      * intros x [Hx | Hx].
        -- destruct (Hb x Hx) as [Hv | Hv]; [now left | right].
           apply in_app_iff. now left.
        -- right. apply in_app_iff. now right.
      * exact Hc2.
      * intros x Hx Hin. destruct (Hb x Hin) as [Hv | Hv].
        -- apply (Hvis x); [| exact Hv]. apply in_app_iff. now right.
        -- exact (Hc12 x Hv Hx).
      * exact Hd2.
      * eapply stable_step.
        -- eapply stable_sub; [| exact Hst].
           intros i Hi. right. apply in_app_iff. right. exact Hi.
        -- apply frame_run. apply frame_walk.
        -- intros i Hi Hi'. exact (Hd12 i Hi' Hi).
Qed.
Lemma cids_below_unfold i b l u cs :
  cids_below (CData i b l u cs) = flat_map (fun c => cid c :: sub_cids c) cs.
Proof. simpl. apply flat_map_ext. intros []. reflexivity. Qed.

Lemma dids_below_unfold i b l u cs :
  dids_below (CData i b l u cs) = flat_map sub_dids cs.
Proof. simpl. apply flat_map_ext. intros []. reflexivity. Qed.

Lemma entry_ids_sub_dids c i : In i (entry_ids c) -> In i (sub_dids c).
Proof.
  unfold entry_ids, sub_dids. rewrite in_map_iff, in_flat_map.
  intros (e & <- & He). exists e. split; [exact He | now left].
Qed.

Lemma frame_sub_blocks parents c acc :
  frame (sub_dids c)
    (match c with
     | Comp _ k on _ es =>
         if ctype_eqb k Block && on then
           foldM (fun a3 e => for_component_objects types loop_body
                                (c :: parents) (snd e) a3) acc es
         else ret acc
     end).
Proof.
  destruct c as [ci k on ds es].
  destruct (ctype_eqb k Block && on); [| apply frame_ret].
  apply frame_foldM. intros a e He.
  eapply frame_mono; [| apply frame_walk].
  intros i Hi. unfold sub_dids. simpl. apply in_flat_map.
  exists e. split; [exact He | now right].
Qed.

(** The Block components a block data owns, one after the other. *)
Lemma walk_sub_blocks parents s0 (cs : list component) :
  Forall (fun c => Forall (fun e => walk_agrees cset pts allow_skip
                                      suppress_warnings (snd e))
                          (centries c)) cs ->
  forall vis dm s,
    NoDup (flat_map sub_cids cs) ->
    (forall x, In x (flat_map sub_cids cs) -> x ∉ vis) ->
    NoDup (flat_map sub_dids cs) ->
    (forall c, In c cs -> stable cset (c :: parents) (sub_dids c) s0 s) ->
    agree (fun x => x ∈ vis \/ In x (flat_map sub_cids cs))
      (foldM (fun a2 c =>
                match c with
                | Comp _ k on _ es =>
                    if ctype_eqb k Block && on then
                      foldM (fun a3 e =>
                               for_component_objects types loop_body
                                 (c :: parents) (snd e) a3) a2 es
                    else ret a2
                end) (vis, dm) cs s)
      (foldM on_eligible dm
         (flat_map (fun c =>
                      match c with
                      | Comp _ k on _ es =>
                          if ctype_eqb k Block && on then
                            flat_map (fun e =>
                                        eligible_objects (is_active s0) cset
                                          types (c :: parents) (snd e)) es
                          else []
                      end) cs) s).
Proof.
  induction 1 as [| c cs Hc _ IH]; intros vis dm s Hn Hvis Hd Hst.
  - simpl. split; [reflexivity |]. simpl. split; [reflexivity | auto].
  - cbn [flat_map] in Hn, Hvis, Hd |- *.
    apply NoDup_app_In in Hn. destruct Hn as (Hn1 & Hn12 & Hn2).
    apply NoDup_app_In in Hd. destruct Hd as (Hd1 & Hd12 & Hd2).
    rewrite foldM_app. cbn [foldM].
    apply (agree_bind (fun x => x ∈ vis \/ In x (sub_cids c))).
    + pose proof (Hst c (or_introl eq_refl)) as Hstc.
      destruct c as [ci k on ds es]. simpl in Hc.
      destruct (ctype_eqb k Block && on).
      * apply walk_entries; auto.
        intros x Hx. apply Hvis. apply in_app_iff. now left.
      * simpl. split; [reflexivity |]. simpl. split; [reflexivity | auto].
    + intros vis1 dm1 _ Hb.
      eapply agree_weaken; [| apply IH].
      * intros x [Hx | Hx].
        -- destruct (Hb x Hx) as [Hv | Hv]; [now left | right].
           apply in_app_iff. now left.
        -- right. apply in_app_iff. now right.
      * exact Hn2.
      * intros x Hx Hin. destruct (Hb x Hin) as [Hv | Hv].
        -- apply (Hvis x); [| exact Hv]. apply in_app_iff. now right.
        -- exact (Hn12 x Hv Hx).
      * exact Hd2.
      * intros c' Hc'. eapply stable_step.
        -- apply Hst. now right.
        -- apply frame_run. apply frame_sub_blocks.
        -- intros i Hi Hi'. apply (Hd12 i Hi'). apply in_flat_map. eauto.
Qed.

Lemma frame_own_components parents (cs : list component) acc :
  frame (flat_map entry_ids
           (List.filter (fun c => is_explicitly_indexed_by c cset) cs))
        (foldM (hand_out types loop_body parents) acc cs).
Proof.
  apply frame_foldM. intros a c Hc. unfold hand_out.
  destruct (requested types c); [| apply frame_ret].
  eapply frame_mono; [| apply frame_deactivate_component].
  intros i Hi. unfold eligible in Hi. simpl in Hi.
  destruct (is_explicitly_indexed_by c cset) eqn:He; [| destruct Hi].
  destruct (negb _); [| destruct Hi].
  apply in_flat_map. exists c. split; [| exact Hi].
  apply filter_In. now split.
Qed.

(** Without shared identities, the loop over the generator does what the
    static walk from the initial flags announces. *)
Theorem walk_agrees_all d :
  walk_agrees cset pts allow_skip suppress_warnings d.
Proof.
  induction d as [i b l u cs IH] using cdata_nested_ind.
  intros parents vis dm s Hc Hvis Hd.
  rewrite cids_below_unfold in *. rewrite dids_below_unfold in Hd.
  destruct (NoDup_flat_map_cons _ _ _ Hc) as (Hc1 & Hc2 & Hc3).
  cbn [for_component_objects eligible_objects].
  unfold bind at 1, get_active.
  destruct (is_active s i).
  2:{ simpl. split; [reflexivity |]. simpl. split; [reflexivity | auto]. }
  rewrite foldM_app.
  apply (agree_bind (fun x => x ∈ vis \/ In x (map cid cs))).
  - apply own_components; [exact Hc1 |].
    intros c Hin. apply Hvis. apply in_flat_map. exists c.
    split; [exact Hin | now left].
  - intros vis1 dm1 _ Hb.
    eapply agree_weaken; [| apply walk_sub_blocks].
    + intros x [Hx | Hx].
      * destruct (Hb x Hx) as [Hv | Hv]; [now left | right].
        apply in_map_iff in Hv. destruct Hv as (c & <- & Hin).
        apply in_flat_map. exists c. split; [exact Hin | now left].
      * right. apply in_flat_map in Hx. destruct Hx as (c & Hin & Hx).
        apply in_flat_map. exists c. split; [exact Hin | now right].
    + exact IH.
    + exact Hc2.
    + intros x Hx Hin. apply in_flat_map in Hx.
      destruct Hx as (c & Hcin & Hx).
      destruct (Hb x Hin) as [Hv | Hv].
      * apply (Hvis x); [| exact Hv]. apply in_flat_map. exists c.
        split; [exact Hcin | now right].
      * apply in_map_iff in Hv. destruct Hv as (c' & <- & Hc').
        exact (Hc3 c' c Hc' Hcin Hx).
    + exact Hd.
    + intros c Hcin.
      destruct (is_explicitly_indexed_by c cset) eqn:He.
      * left. unfold under. simpl. now rewrite He.
      * right. intros j Hj.
        eapply unchanged_is_active.
        -- apply frame_run. apply frame_own_components.
        -- intros Hj'. apply in_flat_map in Hj'.
           destruct Hj' as (c' & Hc' & Hj').
           apply filter_In in Hc'. destruct Hc' as [Hc' He'].
           apply entry_ids_sub_dids in Hj'.
           apply (NoDup_flat_map_disjoint sub_dids cs c c' j Hd Hcin Hc');
             [congruence | exact Hj | exact Hj'].
Qed.
End LazyWalk.

(** ** What the static walk does to the store and to the dictionary *)

Lemma eligible_objects_filter act cset ctypes d :
  forall parents,
    eligible_objects act cset ctypes parents d
    = List.filter (eligible cset) (component_objects act ctypes parents d).
Proof.
  induction d as [i b l u cs IH] using cdata_nested_ind.
  intros parents. cbn [eligible_objects component_objects].
  destruct (act i); [| reflexivity].
  rewrite List.filter_app. f_equal.
  induction cs as [| c cs IHcs]; [reflexivity |].
  apply List.Forall_cons_iff in IH. destruct IH as [IHc IHrest].
  cbn [flat_map]. rewrite List.filter_app. f_equal; [| now apply IHcs].
  destruct c as [ci k on ds es]. simpl in IHc.
  destruct (ctype_eqb k Block && on); [| reflexivity].
  generalize (Comp ci k on ds es :: parents). intros above.
  induction es as [| e es IHes]; [reflexivity |].
  apply List.Forall_cons_iff in IHc. destruct IHc as [IHe IHes'].
  cbn [flat_map]. rewrite List.filter_app. f_equal; [apply IHe | now apply IHes].
Qed.

Lemma deactivate_index_run c getter al sw other dm pt s s' dm' :
  deactivate_index c getter al sw other dm pt s = (s', inr dm') ->
  let t := match getitem c (getter other pt) with
           | inr d => [(pt, did d)]
           | inl _ => []
           end in
  flags s' = deactivate_all t (flags s) /\ dm' = record_all t dm.
Proof.
  unfold deactivate_index, bind.
  destruct (getitem c (getter other pt)) as [e | d].
  - destruct sw, al; simpl; intros [= <- <-]; split; reflexivity.
  - simpl. intros [= <- <-]. split; reflexivity.
Qed.

Lemma deactivate_all_app t1 t2 f :
  deactivate_all (t1 ++ t2) f = deactivate_all t2 (deactivate_all t1 f).
Proof. apply foldl_app. Qed.

Lemma record_all_app t1 t2 m :
  record_all (t1 ++ t2) m = record_all t2 (record_all t1 m).
Proof. apply foldl_app. Qed.

(** A fold whose steps are described by lists of targets is described by
    their concatenation. *)
Lemma foldM_targets {B} (f : deactivated_map -> B -> M deactivated_map)
    (tg : B -> list (Z * nat)) l :
  (forall dm x s s' dm',
      In x l -> f dm x s = (s', inr dm') ->
      flags s' = deactivate_all (tg x) (flags s)
      /\ dm' = record_all (tg x) dm) ->
  forall dm s s' dm',
    foldM f dm l s = (s', inr dm') ->
    flags s' = deactivate_all (flat_map tg l) (flags s)
    /\ dm' = record_all (flat_map tg l) dm.
Proof.
  induction l as [| x l IH]; intros Hf dm s s' dm'; simpl.
  - intros [= <- <-]. split; reflexivity.
  - unfold bind. destruct (f dm x s) as [s1 [e | dm1]] eqn:Hx; [discriminate |].
    intros Hrest. destruct (Hf _ _ _ _ _ (or_introl eq_refl) Hx) as [H1 H2].
    apply IH in Hrest.
    2:{ intros dm2 y s2 s3 dm3 Hy. apply Hf. now right. }
    destruct Hrest as [H3 H4].
    rewrite deactivate_all_app, record_all_app.
    rewrite H3, H4, H1, H2. split; reflexivity.
Qed.

Lemma deactivate_eligible_run cset pts al sw dm lc s s' dm' :
  deactivate_eligible cset pts al sw dm lc s = (s', inr dm') ->
  flags s' = deactivate_all (targets_of cset pts lc) (flags s)
  /\ dm' = record_all (targets_of cset pts lc) dm.
Proof.
  unfold deactivate_eligible, targets_of, bind.
  destruct (get_index_set_except (loc_comp lc) cset) as [e | info]; simpl;
    [discriminate |].
  apply (foldM_targets _
           (fun other =>
              flat_map (fun pt =>
                          match getitem (loc_comp lc)
                                  (index_getter info other pt) with
                          | inr d => [(pt, did d)]
                          | inl _ => []
                          end) pts)).
  intros dm1 other s1 s2 dm2 _.
  apply (foldM_targets _
           (fun pt => match getitem (loc_comp lc)
                              (index_getter info other pt) with
                      | inr d => [(pt, did d)]
                      | inl _ => []
                      end)).
  intros dm3 pt s3 s4 dm4 _. apply deactivate_index_run.
Qed.

Lemma static_run cset pts al sw L dm s s' dm' :
  foldM (deactivate_eligible cset pts al sw) dm L s = (s', inr dm') ->
  flags s' = deactivate_all (flat_map (targets_of cset pts) L) (flags s)
  /\ dm' = record_all (flat_map (targets_of cset pts) L) dm.
Proof.
  apply foldM_targets. intros dm1 lc s1 s2 dm2 _.
  apply deactivate_eligible_run.
Qed.

Lemma deactivate_all_hit T f i :
  In i (map snd T) -> deactivate_all T f !! i = Some false.
Proof.
  revert f. induction T as [| t T IH] using rev_ind; intros f; [intros [] |].
  rewrite map_app, in_app_iff. unfold deactivate_all in *.
  rewrite foldl_app. simpl. intros Hin.
  destruct (decide (snd t = i)) as [-> | Hne].
  - apply lookup_insert_eq.
  - rewrite lookup_insert_ne by exact Hne. apply IH.
    destruct Hin as [Hin | [Hin | []]]; [exact Hin | contradiction].
Qed.

Lemma deactivate_all_miss T f i :
  ~ In i (map snd T) -> deactivate_all T f !! i = f !! i.
Proof.
  revert f. induction T as [| t T IH]; intros f; [reflexivity |].
  simpl. intros Hni. unfold deactivate_all in *. simpl. rewrite IH by tauto.
  apply lookup_insert_ne. tauto.
Qed.

Lemma record_all_lookup T m pt :
  default [] (record_all T m !! pt)
  = default [] (m !! pt)
    ++ map snd (List.filter (fun t => Z.eqb (fst t) pt) T).
Proof.
  revert m. induction T as [| t T IH]; intros m.
  - simpl. now rewrite app_nil_r.
  - unfold record_all in *. simpl. rewrite IH.
    destruct (Z.eqb_spec (fst t) pt) as [-> | Hne].
    + rewrite lookup_insert_eq. simpl. now rewrite <- app_assoc.
    + rewrite lookup_insert_ne by exact Hne. reflexivity.
Qed.

Lemma record_all_dom T m pt :
  is_Some (record_all T m !! pt) <-> is_Some (m !! pt) \/ In pt (map fst T).
Proof.
  revert m. induction T as [| t T IH]; intros m.
  - simpl. tauto.
  - unfold record_all in *. simpl. rewrite IH.
    destruct (decide (fst t = pt)) as [-> | Hne].
    + rewrite lookup_insert_eq. split; [| intros _; left; eauto].
      intros _. right. now left.
    + rewrite lookup_insert_ne by exact Hne. tauto.
Qed.

Lemma empty_lists_default pts pt : default [] (empty_lists pts !! pt) = [].
Proof.
  induction pts as [| p pts IH]; simpl; [now rewrite lookup_empty |].
  destruct (decide (p = pt)) as [-> | Hne].
  - now rewrite lookup_insert_eq.
  - now rewrite lookup_insert_ne.
Qed.

Lemma empty_lists_dom pts pt : is_Some (empty_lists pts !! pt) <-> In pt pts.
Proof.
  induction pts as [| p pts IH]; simpl.
  - rewrite lookup_empty. split; [intros [x [=]] | intros []].
  - destruct (decide (p = pt)) as [-> | Hne].
    + rewrite lookup_insert_eq. split; [now left | eauto].
    + rewrite lookup_insert_ne by exact Hne. rewrite IH. tauto.
Qed.

Lemma targets_of_spec cset pts lc pt i :
  In (pt, i) (targets_of cset pts lc) <->
  exists info other d,
    get_index_set_except (loc_comp lc) cset = inr info
    /\ In other (set_except info) /\ In pt pts
    /\ getitem (loc_comp lc) (index_getter info other pt) = inr d
    /\ did d = i.
Proof.
  unfold targets_of.
  destruct (get_index_set_except (loc_comp lc) cset) as [e | info].
  - split; [intros [] | intros (info & _ & _ & [=] & _)].
  - rewrite in_flat_map. split.
    + intros (other & Ho & Hin). apply in_flat_map in Hin.
      destruct Hin as (p & Hp & Hin).
      destruct (getitem _ _) as [e | d] eqn:Hg; [destruct Hin |].
      destruct Hin as [[= <- <-] | []].
      exists info, other, d. auto.
    + intros (info' & other & d & [= <-] & Ho & Hp & Hg & Hd).
      exists other. split; [exact Ho |]. apply in_flat_map.
      exists pt. split; [exact Hp |]. rewrite Hg. left. now rewrite Hd.
Qed.

Lemma targets_spec act b cset pts pt i :
  In (pt, i)
     (flat_map (targets_of cset pts)
        (List.filter (eligible cset)
           (component_objects act [Block; Constraint] (blk_parents b)
              (blk_data b))))
  <-> target act b cset pts pt i.
Proof.
  unfold target. rewrite in_flat_map. split.
  - intros (lc & Hlc & Hin). apply filter_In in Hlc.
    apply targets_of_spec in Hin.
    destruct Hin as (info & other & d & H).
    exists lc, info, other, d. tauto.
  - intros (lc & info & other & d & H1 & H2 & H).
    exists lc. split; [apply filter_In; tauto |].
    apply targets_of_spec. exists info, other, d. exact H.
Qed.

Lemma check_points_run cset pts s :
  check_points cset pts s = (s, inr tt)
  \/ check_points cset pts s = (s, inl ValueError).
Proof.
  unfold check_points. induction pts as [| p pts IH]; simpl; [now left |].
  unfold bind. destruct (contains cset p); simpl; [exact IH | now right].
Qed.

(** Without shared identities [deactivate_model_at] is the validation of
    the points followed by the static walk from the initial flags. *)
Lemma deactivate_model_at_static b cset pts al sw s :
  NoDup (cids_below (blk_data b)) ->
  NoDup (dids_below (blk_data b)) ->
  deactivate_model_at b cset pts al sw s
  = bind (check_points cset (as_list pts))
      (fun _ =>
         foldM (deactivate_eligible cset (as_list pts) al sw)
           (empty_lists (as_list pts))
           (List.filter (eligible cset)
              (component_objects (is_active s) [Block; Constraint]
                 (blk_parents b) (blk_data b)))) s.
Proof.
  intros Hc Hd. unfold deactivate_model_at, bind.
  destruct (check_points_run cset (as_list pts) s) as [-> | ->];
    [| reflexivity].
  pose proof (walk_agrees_all cset (as_list pts) al sw (blk_data b)
                (blk_parents b) ∅ (empty_lists (as_list pts)) s Hc) as H.
  rewrite eligible_objects_filter in H.
  destruct H as [Hst Hres]; [intros x _; apply not_elem_of_empty | exact Hd |].
  destruct (for_component_objects _ _ _ _ _ s) as [s1 [e1 | [v1 d1]]];
    destruct (foldM _ _ _ s) as [s2 [e2 | d2]];
    simpl in *; subst; try contradiction; try reflexivity.
  now destruct Hres as [-> _].
Qed.

(** ** [deactivate_model_at]: what is deactivated and recorded *)

Lemma explicit_occurs c s :
  is_explicitly_indexed_by c s = true -> (1 <= occurrences s (cdims c))%nat.
Proof.
  unfold is_explicitly_indexed_by, occurrences.
  induction (cdims c) as [| d ds IH]; simpl; [discriminate |].
  destruct (same_set s d); simpl; [lia | exact IH].
Qed.

Lemma get_index_set_except_ok c s :
  is_explicitly_indexed_by c s = true ->
  (occurrences s (cdims c) <= 1)%nat ->
  exists info, get_index_set_except c s = inr info.
Proof.
  intros He Hle. apply explicit_occurs in He.
  unfold get_index_set_except.
  replace (occurrences s (cdims c)) with 1%nat by lia. simpl. eauto.
Qed.

Lemma deactivate_index_returns c getter sw other dm pt :
  triple (fun _ => True) (deactivate_index c getter true sw other dm pt)
         (fun _ _ => True) (fun _ _ => False).
Proof.
  intros s _. unfold deactivate_index, bind.
  destruct (getitem c _); [destruct sw |]; exact I.
Qed.

Lemma deactivate_eligible_returns cset pts sw dm lc :
  eligible cset lc = true ->
  (occurrences cset (cdims (loc_comp lc)) <= 1)%nat ->
  triple (fun _ => True) (deactivate_eligible cset pts true sw dm lc)
         (fun _ _ => True) (fun _ _ => False).
Proof.
  intros He Hocc. unfold eligible in He. apply andb_true_iff in He.
  destruct (get_index_set_except_ok _ _ (proj1 He) Hocc) as [info Hinfo].
  unfold deactivate_eligible. rewrite Hinfo. simpl.
  eapply triple_bind; [apply triple_ret with (Q := fun _ _ => True) |].
  intros info'.
  apply (triple_foldM _ (fun _ _ => True)). intros dm1 other _.
  apply (triple_foldM _ (fun _ _ => True)). intros dm2 pt _.
  apply deactivate_index_returns.
Qed.

Lemma component_objects_located act ctypes d :
  forall parents lc,
    In lc (component_objects act ctypes parents d) ->
    In lc (located_below parents d).
Proof.
  induction d as [i b l u cs IH] using cdata_nested_ind.
  intros parents lc. simpl. destruct (act i); [| intros []].
  rewrite in_app_iff, in_map_iff, !in_flat_map.
  intros [(c & <- & Hc) | (c & Hc & Hlc)].
  - apply filter_In in Hc. exists c. split; [tauto | now left].
  - exists c. split; [exact Hc | right].
    rewrite List.Forall_forall in IH. specialize (IH c Hc).
    destruct c as [ci k on ds es]. simpl in IH.
    destruct (ctype_eqb k Block && on); [| destruct Hlc].
    rewrite in_flat_map in *. destruct Hlc as (e & He & Hlc).
    exists e. split; [exact He |].
    rewrite List.Forall_forall in IH. exact (IH e He _ _ Hlc).
Qed.

Lemma target_owner act b cset pts pt i :
  target act b cset pts pt i ->
  exists lc, In lc (located_below (blk_parents b) (blk_data b))
             /\ eligible cset lc = true
             /\ In i (entry_ids (loc_comp lc)).
Proof.
  intros (lc & info & other & d & Hlc & He & _ & _ & _ & Hg & Hd).
  exists lc. split; [eapply component_objects_located; eauto |].
  split; [exact He |]. rewrite <- Hd. eapply getitem_entry_id; eauto.
Qed.

(** Without shared identities: what a call of [deactivate_model_at] that
    returns has recorded and deactivated, what it has left alone, and when
    it does return. *)
Lemma deactivate_model_at_characterised b cset pts allow_skip suppress_warnings s :
  NoDup (cids_below (blk_data b)) ->
  NoDup (dids_below (blk_data b)) ->
  (allow_skip = true ->
   Forall (fun pt => contains cset pt = true) (as_list pts) ->
   Forall (fun lc => (occurrences cset (cdims (loc_comp lc)) <= 1)%nat)
          (located_below (blk_parents b) (blk_data b)) ->
   exists s' dm,
     deactivate_model_at b cset pts allow_skip suppress_warnings s
     = (s', inr dm))
  /\
  (forall s' dm,
     deactivate_model_at b cset pts allow_skip suppress_warnings s
     = (s', inr dm) ->
     (forall pt i, In i (default [] (dm !! pt))
                   <-> target (is_active s) b cset (as_list pts) pt i)
     /\ (forall pt, is_Some (dm !! pt) <-> In pt (as_list pts))
     /\ (forall pt i, target (is_active s) b cset (as_list pts) pt i ->
                      is_active s' i = false)
     /\ (forall i, (forall pt, ~ target (is_active s) b cset (as_list pts)
                                   pt i) ->
                   flags s' !! i = flags s !! i)
     /\ (forall lc i,
           In lc (located_below (blk_parents b) (blk_data b)) ->
           is_in_block_indexed_by lc cset = true ->
           In i (entry_ids (loc_comp lc)) ->
           flags s' !! i = flags s !! i)).
Proof.
  intros Hc Hd. rewrite (deactivate_model_at_static _ _ _ _ _ _ Hc Hd).
  unfold bind. split.
  - intros -> Hpts Hocc. rewrite (check_points_ok _ _ _ Hpts).
    pose proof (triple_foldM
                  (deactivate_eligible cset (as_list pts) true
                     suppress_warnings)
                  (fun _ _ => True) (fun _ _ => False)
                  (List.filter (eligible cset)
                     (component_objects (is_active s) [Block; Constraint]
                        (blk_parents b) (blk_data b)))) as H.
    specialize (H (fun dm lc Hlc =>
                     deactivate_eligible_returns cset (as_list pts)
                       suppress_warnings dm lc
                       (proj2 (proj1 (filter_In _ _ _) Hlc))
                       (proj1 (List.Forall_forall _ _) Hocc lc
                          (component_objects_located _ _ _ _ _
                             (proj1 (proj1 (filter_In _ _ _) Hlc)))))
                  (empty_lists (as_list pts)) s I).
    destruct (foldM _ _ _ s) as [s' [e | dm]]; [destruct H | eauto].
  - intros s' dm.
    destruct (check_points_run cset (as_list pts) s) as [-> | ->];
      [| discriminate].
    intros Hrun. apply static_run in Hrun. destruct Hrun as [Hfl Hdm].
    set (T := flat_map (targets_of cset (as_list pts)) _) in *.
    assert (forall pt i, In (pt, i) T
                         <-> target (is_active s) b cset (as_list pts) pt i)
      as HT by (intros; apply targets_spec).
    assert (forall i, In i (map snd T)
                      <-> exists pt, target (is_active s) b cset
                                       (as_list pts) pt i) as HTi.
    { intros i. rewrite in_map_iff. split.
      - intros ([pt j] & <- & Hin). exists pt. now apply HT.
      - intros (pt & Hpt). exists (pt, i). split; [reflexivity |].
        now apply HT. }
    assert (forall i, (forall pt, ~ target (is_active s) b cset
                                      (as_list pts) pt i) ->
                      flags s' !! i = flags s !! i) as Hmiss.
    { intros i Hno. rewrite Hfl. apply deactivate_all_miss.
      rewrite HTi. intros (pt & Hpt). exact (Hno pt Hpt). }
    repeat split.
    + rewrite Hdm, record_all_lookup, empty_lists_default. simpl.
      rewrite in_map_iff. intros ([pt' j] & Heq & Hin).
      apply filter_In in Hin. destruct Hin as [Hin Hpt]. simpl in *.
      apply Z.eqb_eq in Hpt. subst. now apply HT.
    + rewrite Hdm, record_all_lookup, empty_lists_default. simpl.
      intros Ht. apply in_map_iff. exists (pt, i). split; [reflexivity |].
      apply filter_In. split; [now apply HT | apply Z.eqb_refl].
    + rewrite Hdm. intros Hsome. apply record_all_dom in Hsome.
      destruct Hsome as [Hsome | Hin]; [now apply empty_lists_dom |].
      apply in_map_iff in Hin. destruct Hin as ([pt' j] & <- & Hin).
      apply HT in Hin.
      destruct Hin as (_ & _ & _ & _ & _ & _ & _ & _ & Hp & _). exact Hp.
    + rewrite Hdm. intros Hin. apply record_all_dom. left.
      now apply empty_lists_dom.
    + intros pt i Ht. unfold is_active. rewrite Hfl.
      rewrite deactivate_all_hit; [reflexivity |]. apply HTi. eauto.
    + exact Hmiss.
    + intros lc i Hlc Himp Hi. apply Hmiss. intros pt Ht.
      destruct (target_owner _ _ _ _ _ _ Ht) as (lc' & Hlc' & He & Hi').
      assert (lc = lc') as <- by (eapply entry_owner; eauto).
      unfold eligible in He. rewrite Himp in He.
      now rewrite andb_false_r in He.
Qed.

(** C1: for a model whose components and data objects are distinct
    objects, a call of [deactivate_model_at] that returns has deactivated,
    and recorded under their point, exactly the data objects found at
    (other index, requested point) in the components that
    [component_objects] hands out and that are explicitly indexed by the set
    and not inside a block indexed by it; every other flag is as before, in
    particular the flags of all components inside a block indexed by the
    set.  With [allow_skip] set, valid points and no set used twice in an
    index, the call does return. *)
Theorem deactivate_model_at_exact b cset pts allow_skip suppress_warnings s :
  NoDup (cids_below (blk_data b)) ->
  NoDup (dids_below (blk_data b)) ->
  (allow_skip = true ->
   Forall (fun pt => contains cset pt = true) (as_list pts) ->
   Forall (fun lc => (occurrences cset (cdims (loc_comp lc)) <= 1)%nat)
          (located_below (blk_parents b) (blk_data b)) ->
   exists s' dm,
     deactivate_model_at b cset pts allow_skip suppress_warnings s
     = (s', inr dm))
  /\
  (forall s' dm,
     deactivate_model_at b cset pts allow_skip suppress_warnings s
     = (s', inr dm) ->
     (forall pt i, In i (default [] (dm !! pt))
                   <-> target (is_active s) b cset (as_list pts) pt i)
     /\ (forall pt, is_Some (dm !! pt) <-> In pt (as_list pts))
     /\ (forall pt i, target (is_active s) b cset (as_list pts) pt i ->
                      is_active s' i = false)
     /\ (forall i, (forall pt, ~ target (is_active s) b cset (as_list pts)
                                   pt i) ->
                   flags s' !! i = flags s !! i)
     /\ (forall lc i,
           In lc (located_below (blk_parents b) (blk_data b)) ->
           is_in_block_indexed_by lc cset = true ->
           In i (entry_ids (loc_comp lc)) ->
           flags s' !! i = flags s !! i)).
Proof.
  exact (deactivate_model_at_characterised b cset pts allow_skip
           suppress_warnings s).
Qed.

Lemma deactivate_model_at_exact_witness :
  NoDup (cids_below (blk_data Demo.m))
  /\ NoDup (dids_below (blk_data Demo.m))
  /\ (forall s' dm,
        deactivate_model_at Demo.m Demo.time (Single 1) true false Demo.fresh
        = (s', inr dm) ->
        forall pt i, In i (default [] (dm !! pt))
                     <-> target (is_active Demo.fresh) Demo.m Demo.time [1]
                           pt i).
Proof.
  assert (NoDup (cids_below (blk_data Demo.m))) as Hc
    by (apply (bool_decide_unpack _); vm_compute; exact I).
  assert (NoDup (dids_below (blk_data Demo.m))) as Hd
    by (apply (bool_decide_unpack _); vm_compute; exact I).
  split; [exact Hc |]. split; [exact Hd |].
  intros s' dm Hrun.
  exact (proj1 (proj2 (deactivate_model_at_exact Demo.m Demo.time (Single 1)
                         true false Demo.fresh Hc Hd) s' dm Hrun)).
Defined.

(** ** Invariants of the loop that need no hypothesis on the model *)

Lemma deactivate_index_recorded pts s0 c getter al sw other dm pt :
  In pt pts ->
  triple (recorded pts s0 dm)
         (deactivate_index c getter al sw other dm pt)
         (recorded pts s0) (fun _ _ => True).
Proof.
  intros Hpt s [Hdom Hrec]. unfold deactivate_index, bind.
  destruct (getitem c (getter other pt)) as [e | d].
  - destruct sw, al; simpl; try exact I; split; auto.
  - simpl. split.
    + intros k. destruct (decide (pt = k)) as [<- | Hne].
      * rewrite lookup_insert_eq. split; [auto | eauto].
      * rewrite lookup_insert_ne by exact Hne. apply Hdom.
    + intros i. cbn [flags]. destruct (decide (did d = i)) as [<- | Hne].
      * right. rewrite lookup_insert_eq. split; [reflexivity |].
        exists pt. split; [exact Hpt |]. rewrite lookup_insert_eq. simpl.
        apply in_app_iff. right. now left.
      * rewrite lookup_insert_ne by exact Hne.
        destruct (Hrec i) as [Hsame | [Hoff (p & Hp & Hin)]]; [now left |].
        right. split; [exact Hoff |]. exists p. split; [exact Hp |].
        destruct (decide (pt = p)) as [<- | Hne'].
        -- rewrite lookup_insert_eq. simpl. apply in_app_iff. now left.
        -- now rewrite lookup_insert_ne.
Qed.

Lemma deactivate_component_recorded cset pts s0 al sw acc lc :
  triple (recorded pts s0 (snd acc))
         (deactivate_component cset pts al sw acc lc)
         (fun acc' => recorded pts s0 (snd acc')) (fun _ _ => True).
Proof.
  destruct acc as [vis dm]. unfold deactivate_component.
  destruct (bool_decide (cid (loc_comp lc) ∈ vis)).
  { intros s H. exact H. }
  destruct (is_explicitly_indexed_by (loc_comp lc) cset
            && negb (is_in_block_indexed_by lc cset)).
  2:{ intros s H. exact H. }
  eapply triple_bind.
  - intros s H. destruct (get_index_set_except (loc_comp lc) cset); simpl;
      [exact I |]. exact H.
  - intros info. simpl. eapply triple_bind.
    + apply (triple_foldM _ (recorded pts s0)). intros dm1 other _.
      apply (triple_foldM _ (recorded pts s0)). intros dm2 pt Hpt.
      now apply deactivate_index_recorded.
    + intros dm' s H. exact H.
Qed.

Lemma empty_lists_recorded pts s : recorded pts s (empty_lists pts) s.
Proof. split; [intros k; apply empty_lists_dom | now left]. Qed.

Lemma deactivate_model_at_recorded b cset pts al sw s :
  match deactivate_model_at b cset pts al sw s with
  | (s', inr dm) => recorded (as_list pts) s dm s'
  | (_, inl _) => True
  end.
Proof.
  unfold deactivate_model_at, bind.
  destruct (check_points_run cset (as_list pts) s) as [-> | ->]; [| exact I].
  pose proof (triple_for_component_objects [Block; Constraint]
                (deactivate_component cset (as_list pts) al sw)
                (fun acc => recorded (as_list pts) s (snd acc))
                (fun _ _ => True) (blk_data b) (blk_parents b)
                (fun a lc _ => deactivate_component_recorded _ _ _ _ _ a lc)
                (∅, empty_lists (as_list pts)) s
                (empty_lists_recorded _ s)) as H.
  destruct (for_component_objects _ _ _ _ _ s) as [s' [e | acc]]; exact H.
Qed.

Lemma deactivate_component_returns cset pts sw acc lc :
  (occurrences cset (cdims (loc_comp lc)) <= 1)%nat ->
  triple (fun _ => True) (deactivate_component cset pts true sw acc lc)
         (fun _ _ => True) (fun _ _ => False).
Proof.
  intros Hocc s _. destruct acc as [vis dm].
  destruct (decide (cid (loc_comp lc) ∈ vis)) as [Hin | Hout].
  - unfold deactivate_component.
    now rewrite bool_decide_eq_true_2 by exact Hin.
  - rewrite deactivate_component_unvisited by exact Hout.
    destruct (eligible cset lc) eqn:He; [| exact I].
    pose proof (deactivate_eligible_returns cset pts sw dm lc He Hocc s I)
      as H.
    destruct (deactivate_eligible _ _ _ _ dm lc s) as [s' [e | dm']];
      [destruct H | exact I].
Qed.

(** With [allow_skip] set, valid points and no set used twice in an index
    the call returns a dictionary. *)
Lemma deactivate_model_at_returns b cset pts sw s :
  Forall (fun pt => contains cset pt = true) (as_list pts) ->
  Forall (fun lc => (occurrences cset (cdims (loc_comp lc)) <= 1)%nat)
         (located_below (blk_parents b) (blk_data b)) ->
  exists s' dm, deactivate_model_at b cset pts true sw s = (s', inr dm).
Proof.
  intros Hpts Hocc. unfold deactivate_model_at, bind.
  rewrite (check_points_ok _ _ _ Hpts).
  pose proof (triple_for_component_objects [Block; Constraint]
                (deactivate_component cset (as_list pts) true sw)
                (fun _ _ => True) (fun _ _ => False)
                (blk_data b) (blk_parents b)
                (fun a lc Hlc =>
                   deactivate_component_returns cset _ sw a lc
                     (proj1 (List.Forall_forall _ _) Hocc lc Hlc))
                (∅, empty_lists (as_list pts)) s I) as H.
  destruct (for_component_objects _ _ _ _ _ s) as [s' [e | acc]];
    [destruct H | eauto].
Qed.

(** C10: a point that is not a list is treated as the list of that point.
    The call is the call on the one-element list.  It validates: a point
    outside the set gives [ValueError] with the store untouched, and a call
    that returns had a point of the set.  It returns a dictionary whose only
    key is the point.  It deactivates: for a model whose components and data
    objects are distinct objects, the data objects listed under the point
    are exactly those found at (other index, point) in the eligible
    components, they are inactive afterwards, and every other flag is as
    before.  With [allow_skip] set, a point of the set and no set used twice
    in an index, the call does return. *)
Theorem deactivate_model_at_single b cset pt allow_skip suppress_warnings s :
  deactivate_model_at b cset (Single pt) allow_skip suppress_warnings s
  = deactivate_model_at b cset (Many [pt]) allow_skip suppress_warnings s
  /\ (contains cset pt = false ->
      deactivate_model_at b cset (Single pt) allow_skip suppress_warnings s
      = (s, inl ValueError))
  /\ (forall s' dm,
        deactivate_model_at b cset (Single pt) allow_skip suppress_warnings s
        = (s', inr dm) ->
        contains cset pt = true
        /\ (forall k, is_Some (dm !! k) <-> k = pt)
        /\ (NoDup (cids_below (blk_data b)) ->
            NoDup (dids_below (blk_data b)) ->
            (forall i, In i (default [] (dm !! pt))
                       <-> target (is_active s) b cset [pt] pt i)
            /\ (forall i, target (is_active s) b cset [pt] pt i ->
                          is_active s' i = false)
            /\ (forall i, ~ target (is_active s) b cset [pt] pt i ->
                          flags s' !! i = flags s !! i)))
  /\ (allow_skip = true ->
      contains cset pt = true ->
      Forall (fun lc => (occurrences cset (cdims (loc_comp lc)) <= 1)%nat)
             (located_below (blk_parents b) (blk_data b)) ->
      exists s' dm,
        deactivate_model_at b cset (Single pt) allow_skip suppress_warnings s
        = (s', inr dm)).
Proof.
  split; [reflexivity |]. split; [| split].
  - intros Hpt. unfold deactivate_model_at, bind.
    rewrite (check_points_fail cset (as_list (Single pt)) s);
      [reflexivity |].
    exists pt. split; [now left | exact Hpt].
  - intros s' dm Hrun. split; [| split].
    + destruct (contains cset pt) eqn:Hpt; [reflexivity |].
      unfold deactivate_model_at, bind in Hrun.
      rewrite (check_points_fail cset (as_list (Single pt)) s) in Hrun;
        [discriminate |].
      exists pt. split; [now left | exact Hpt].
    + pose proof (deactivate_model_at_recorded b cset (Single pt) allow_skip
                    suppress_warnings s) as H.
      rewrite Hrun in H. destruct H as [Hdom _].
      intros k. rewrite Hdom. simpl. intuition.
    + intros Hc Hd.
      destruct (proj2 (deactivate_model_at_characterised b cset (Single pt)
                         allow_skip suppress_warnings s Hc Hd) s' dm Hrun)
        as (Hrec & _ & Hoff & Hmiss & _).
      simpl as_list in *. split; [exact (Hrec pt) |].
      split; [exact (Hoff pt) |].
      intros i Hno. apply Hmiss. intros pt' Ht.
      assert (pt' = pt) as ->; [| exact (Hno Ht)].
      destruct Ht as (_ & _ & _ & _ & _ & _ & _ & _ & [Heq | []] & _).
      now symmetry.
  - intros -> Hpt Hocc.
    apply deactivate_model_at_returns; [| exact Hocc].
    simpl. constructor; [exact Hpt | constructor].
Qed.

Lemma deactivate_model_at_single_witness :
  contains Demo.time 5 = false
  /\ deactivate_model_at Demo.m Demo.time (Single 5) true false Demo.fresh
     = (Demo.fresh, inl ValueError)
  /\ NoDup (cids_below (blk_data Demo.m))
  /\ NoDup (dids_below (blk_data Demo.m))
  /\ (forall s' dm,
        deactivate_model_at Demo.m Demo.time (Single 1) true false Demo.fresh
        = (s', inr dm) ->
        (forall i, In i (default [] (dm !! 1))
                   <-> target (is_active Demo.fresh) Demo.m Demo.time [1] 1
                         i)
        /\ (forall i, target (is_active Demo.fresh) Demo.m Demo.time [1] 1 i ->
                      is_active s' i = false)
        /\ (forall i, ~ target (is_active Demo.fresh) Demo.m Demo.time [1] 1
                          i ->
                      flags s' !! i = flags Demo.fresh !! i))
  /\ (exists s' dm,
        deactivate_model_at Demo.m Demo.time (Single 1) true false Demo.fresh
        = (s', inr dm)).
Proof.
  assert (NoDup (cids_below (blk_data Demo.m))) as Hc
    by (apply (bool_decide_unpack _); vm_compute; exact I).
  assert (NoDup (dids_below (blk_data Demo.m))) as Hd
    by (apply (bool_decide_unpack _); vm_compute; exact I).
  split; [reflexivity |].
  split.
  { exact (proj1 (proj2 (deactivate_model_at_single Demo.m Demo.time 5 true
                           false Demo.fresh)) eq_refl). }
  split; [exact Hc |]. split; [exact Hd |]. split.
  - intros s' dm Hrun.
    exact (proj2 (proj2 (proj1 (proj2 (proj2
             (deactivate_model_at_single Demo.m Demo.time 1 true false
                Demo.fresh))) s' dm Hrun)) Hc Hd).
  - apply (proj2 (proj2 (proj2 (deactivate_model_at_single Demo.m Demo.time
                                  1 true false Demo.fresh))));
      [reflexivity | reflexivity |].
    apply (bool_decide_unpack _); vm_compute; exact I.
Defined.


Lemma activate_list_run comps s :
  exists s',
    foldM (fun _ comp => activate comp) tt comps s = (s', inr tt)
    /\ printed s' = printed s
    /\ forall i, flags s' !! i
                 = if existsb (Nat.eqb i) comps then Some true
                   else flags s !! i.
Proof.
  revert s. induction comps as [| c comps IH]; intros s.
  - exists s. simpl. auto.
  - simpl. unfold bind. simpl.
    destruct (IH (mkStore (<[c := true]> (flags s)) (printed s)))
      as (s' & Hrun & Hpr & Hfl).
    exists s'. split; [exact Hrun |]. split; [exact Hpr |].
    intros i. rewrite Hfl. simpl.
    destruct (existsb (Nat.eqb i) comps); [now rewrite orb_true_r |].
    rewrite orb_false_r. destruct (Nat.eqb_spec i c) as [-> | Hne].
    + apply lookup_insert_eq.
    + apply lookup_insert_ne. congruence.
Qed.

Lemma reactivate_run timelist dm s :
  (forall t, In t timelist -> is_Some (dm !! t)) ->
  exists s',
    reactivate timelist dm s = (s', inr tt)
    /\ printed s' = printed s
    /\ forall i, flags s' !! i
                 = if is_recorded timelist dm i then Some true
                   else flags s !! i.
Proof.
  unfold reactivate, is_recorded.
  revert s. induction timelist as [| t ts IH]; intros s Hkeys.
  - exists s. simpl. auto.
  - simpl. unfold bind at 1 2.
    destruct (Hkeys t (or_introl eq_refl)) as [comps Hcomps].
    unfold dict_get. rewrite Hcomps. simpl.
    destruct (activate_list_run comps s) as (s1 & Hrun1 & Hpr1 & Hfl1).
    rewrite Hrun1.
    destruct (IH s1) as (s' & Hrun & Hpr & Hfl).
    { intros t' Ht'. apply Hkeys. now right. }
    exists s'. split; [exact Hrun |]. split; [congruence |].
    intros i. rewrite Hfl, Hfl1.
    destruct (existsb _ ts); [now rewrite orb_true_r |].
    now rewrite orb_false_r.
Qed.

Lemma is_recorded_false timelist dm i pt :
  is_recorded timelist dm i = false ->
  In pt timelist -> In i (default [] (dm !! pt)) -> False.
Proof.
  unfold is_recorded. intros Hf Hpt Hi.
  assert (existsb (fun t => existsb (Nat.eqb i) (default [] (dm !! t)))
            timelist = true) as Ht; [| congruence].
  apply existsb_exists. exists pt. split; [exact Hpt |].
  apply existsb_exists. exists i. split; [exact Hi | apply Nat.eqb_refl].
Qed.

(** C8: deactivating at a list of points and then activating the data
    objects of the returned dictionary leaves active every data object that
    was active before, hence all of them when all were; with valid points
    the first call returns, and the second never fails. *)
Theorem deactivate_then_reactivate b cset pts allow_skip suppress_warnings s :
  (allow_skip = true ->
   Forall (fun pt => contains cset pt = true) (as_list pts) ->
   Forall (fun lc => (occurrences cset (cdims (loc_comp lc)) <= 1)%nat)
          (located_below (blk_parents b) (blk_data b)) ->
   exists s' dm,
     deactivate_model_at b cset pts allow_skip suppress_warnings s
     = (s', inr dm))
  /\
  (forall s' dm,
     deactivate_model_at b cset pts allow_skip suppress_warnings s
     = (s', inr dm) ->
     exists s'',
       reactivate (as_list pts) dm s' = (s'', inr tt)
       /\ forall i, is_active s i = true -> is_active s'' i = true).
Proof.
  split.
  - intros -> Hpts Hocc. now apply deactivate_model_at_returns.
  - intros s' dm Hrun.
    pose proof (deactivate_model_at_recorded b cset pts allow_skip
                  suppress_warnings s) as H.
    rewrite Hrun in H. destruct H as [Hdom Hrec].
    destruct (reactivate_run (as_list pts) dm s') as (s'' & Hre & _ & Hfl).
    { intros t Ht. now apply Hdom. }
    exists s''. split; [exact Hre |].
    intros i Hi. unfold is_active in *. rewrite Hfl.
    destruct (is_recorded (as_list pts) dm i) eqn:Hr; [reflexivity |].
    destruct (Hrec i) as [Hsame | [_ (pt & Hpt & Hin)]].
    + now rewrite Hsame.
    + exfalso. eapply is_recorded_false; eauto.
Qed.

Lemma deactivate_then_reactivate_witness :
  exists s' dm s'',
    deactivate_model_at Demo.m Demo.time (Many [1; 2]) true false Demo.fresh
    = (s', inr dm)
    /\ reactivate [1; 2] dm s' = (s'', inr tt)
    /\ forall i, is_active Demo.fresh i = true -> is_active s'' i = true.
Proof.
  destruct (deactivate_then_reactivate Demo.m Demo.time (Many [1; 2]) true
              false Demo.fresh) as [Hret Hround].
  destruct Hret as (s' & dm & Hrun).
  - reflexivity.
  - repeat constructor.
  - simpl. repeat constructor.
  - destruct (Hround s' dm Hrun) as (s'' & Hre & Hact).
    exists s', dm, s''. auto.
Defined.

(** ** Calling [deactivate_model_at] again *)

Lemma foldM_normal_all {A B} (f : A -> B -> M A) (G : B -> Prop) l :
  (forall a x s s' a', In x l -> f a x s = (s', inr a') -> G x) ->
  forall a s s' a', foldM f a l s = (s', inr a') -> Forall G l.
Proof.
  induction l as [| x l IH]; intros Hf a s s' a'; simpl.
  - intros _. constructor.
  - unfold bind. destruct (f a x s) as [s1 [e | a1]] eqn:Hx; [discriminate |].
    intros Hrest. constructor.
    + eapply Hf; eauto. now left.
    + eapply IH; eauto. intros a2 y s2 s3 a3 Hy. apply Hf. now right.
Qed.

Lemma deactivate_eligible_normal cset pts al sw dm lc s s' dm' :
  deactivate_eligible cset pts al sw dm lc s = (s', inr dm') ->
  complete cset pts al lc.
Proof.
  unfold deactivate_eligible, complete, bind.
  destruct (get_index_set_except (loc_comp lc) cset) as [e | info]; simpl;
    [discriminate |].
  intros Hrun. exists info. split; [reflexivity |].
  destruct al; [now left | right].
  intros other pt Ho Hp.
  eapply (foldM_normal_all _
            (fun other => forall pt, In pt pts ->
               exists d, getitem (loc_comp lc) (index_getter info other pt)
                         = inr d)) in Hrun.
  - rewrite List.Forall_forall in Hrun. exact (Hrun other Ho pt Hp).
  - intros dm1 other' s1 s2 dm2 _ Hin pt' Hp'.
    eapply (foldM_normal_all _
              (fun pt => exists d,
                   getitem (loc_comp lc) (index_getter info other' pt)
                   = inr d)) in Hin.
    + rewrite List.Forall_forall in Hin. exact (Hin pt' Hp').
    + intros dm3 pt'' s3 s4 dm4 _. unfold deactivate_index, bind.
      destruct (getitem _ _) as [e | d]; [| eauto].
      destruct sw; discriminate.
Qed.

Lemma deactivate_eligible_complete cset pts al sw dm lc :
  complete cset pts al lc ->
  triple (fun _ => True) (deactivate_eligible cset pts al sw dm lc)
         (fun _ _ => True) (fun _ _ => False).
Proof.
  intros (info & Hinfo & Hall) s0 _. unfold deactivate_eligible, bind.
  rewrite Hinfo. simpl.
  apply (triple_foldM _ (fun _ _ => True) (fun _ _ => False)
           (set_except info)); [| exact I].
  intros dm1 other Ho.
  apply (triple_foldM _ (fun _ _ => True)). intros dm2 pt Hp s _.
  unfold deactivate_index, bind.
  destruct Hall as [-> | Hall].
  - destruct (getitem _ _); [destruct sw |]; exact I.
  - destruct (Hall other pt Ho Hp) as [d ->]. exact I.
Qed.

Lemma deactivate_all_id T f :
  (forall i, In i (map snd T) -> f !! i = Some false) ->
  deactivate_all T f = f.
Proof.
  unfold deactivate_all. revert f.
  induction T as [| t T IH]; intros f Hoff; [reflexivity |].
  simpl. rewrite insert_id by (apply Hoff; now left).
  apply IH. intros i Hi. apply Hoff. now right.
Qed.

(** A walk from flags that are on at fewer places hands out fewer
    components. *)
Lemma component_objects_mono act act' ctypes d :
  (forall i, act' i = true -> act i = true) ->
  forall parents lc,
    In lc (component_objects act' ctypes parents d) ->
    In lc (component_objects act ctypes parents d).
Proof.
  intros Hle.
  induction d as [i b l u cs IH] using cdata_nested_ind.
  intros parents lc. simpl.
  destruct (act' i) eqn:Hi; [| intros []]. rewrite (Hle i Hi).
  rewrite !in_app_iff, !in_flat_map.
  intros [Hown | (c & Hc & Hlc)]; [now left | right].
  exists c. split; [exact Hc |].
  rewrite List.Forall_forall in IH. specialize (IH c Hc).
  destruct c as [ci k on ds es]. simpl in IH.
  destruct (ctype_eqb k Block && on); [| destruct Hlc].
  rewrite in_flat_map in *. destruct Hlc as (e & He & Hlc).
  exists e. split; [exact He |].
  rewrite List.Forall_forall in IH. exact (IH e He _ _ Hlc).
Qed.

(** A static walk over components whose targets are already off returns
    with the same flags. *)
Lemma static_run_again cset pts al sw L :
  forall dm s,
    Forall (complete cset pts al) L ->
    (forall lc i, In lc L -> In i (map snd (targets_of cset pts lc)) ->
                  flags s !! i = Some false) ->
    exists s' dm',
      foldM (deactivate_eligible cset pts al sw) dm L s = (s', inr dm')
      /\ flags s' = flags s.
Proof.
  induction L as [| lc L IH]; intros dm s Hall Hoff.
  - exists s, dm. split; reflexivity.
  - apply List.Forall_cons_iff in Hall. destruct Hall as [Hlc Hall].
    simpl. unfold bind.
    pose proof (deactivate_eligible_complete cset pts al sw dm lc Hlc s I)
      as Hret.
    destruct (deactivate_eligible cset pts al sw dm lc s)
      as [s1 [e | dm1]] eqn:Hrun; [destruct Hret |].
    apply deactivate_eligible_run in Hrun. destruct Hrun as [Hfl _].
    rewrite deactivate_all_id in Hfl
      by (intros i Hi; apply (Hoff lc); [now left | exact Hi]).
    destruct (IH dm1 s1 Hall) as (s' & dm' & Hrest & Hfl').
    { intros lc' i Hlc' Hi. rewrite Hfl. apply (Hoff lc'); [now right | exact Hi]. }
    exists s', dm'. split; [exact Hrest | congruence].
Qed.

(** A second call with the same arguments, made after a first call that
    returned, returns as well and leaves every flag as it finds it. *)
Lemma deactivate_model_at_again b cset pts allow_skip suppress_warnings
    s s1 dm1 :
  NoDup (cids_below (blk_data b)) ->
  NoDup (dids_below (blk_data b)) ->
  deactivate_model_at b cset pts allow_skip suppress_warnings s
  = (s1, inr dm1) ->
  exists s2 dm2,
    deactivate_model_at b cset pts allow_skip suppress_warnings s1
    = (s2, inr dm2)
    /\ flags s2 = flags s1.
Proof.
  intros Hc Hd. rewrite !(deactivate_model_at_static _ _ _ _ _ _ Hc Hd).
  unfold bind.
  destruct (check_points_run cset (as_list pts) s) as [Hcp | Hcp];
    rewrite Hcp; [| discriminate].
  assert (check_points cset (as_list pts) s1 = (s1, inr tt)) as ->.
  { destruct (check_points_run cset (as_list pts) s1) as [H1 | H1];
      [exact H1 |].
    unfold check_points in *. clear -Hcp H1. exfalso.
    induction (as_list pts) as [| p l IH]; simpl in *; [discriminate |].
    unfold bind in *. destruct (contains cset p); simpl in *;
      [auto | discriminate]. }
  intros Hrun.
  pose proof (foldM_normal_all _ (complete cset (as_list pts) allow_skip) _
                (fun dm lc st st' dm' _ H =>
                   deactivate_eligible_normal _ _ _ _ _ _ _ _ _ H)
                _ _ _ _ Hrun) as Hgood.
  apply static_run in Hrun. destruct Hrun as [Hfl _].
  assert (forall i, is_active s1 i = true -> is_active s i = true) as Hle.
  { intros i. unfold is_active. rewrite Hfl.
    destruct (in_dec Nat.eq_dec i
                (map snd (flat_map (targets_of cset (as_list pts))
                   (List.filter (eligible cset)
                      (component_objects (is_active s) [Block; Constraint]
                         (blk_parents b) (blk_data b)))))) as [Hin | Hout].
    - rewrite deactivate_all_hit by exact Hin. discriminate.
    - now rewrite deactivate_all_miss by exact Hout. }
  assert (forall lc,
            In lc (List.filter (eligible cset)
                     (component_objects (is_active s1) [Block; Constraint]
                        (blk_parents b) (blk_data b))) ->
            In lc (List.filter (eligible cset)
                     (component_objects (is_active s) [Block; Constraint]
                        (blk_parents b) (blk_data b)))) as Hsub.
  { intros lc Hlc. apply filter_In in Hlc. apply filter_In.
    split; [| tauto]. eapply component_objects_mono; [exact Hle | tauto]. }
  apply static_run_again.
  - rewrite List.Forall_forall in *. intros lc Hlc. apply Hgood, Hsub, Hlc.
  - intros lc i Hlc Hi. rewrite Hfl. apply deactivate_all_hit.
    apply in_map_iff in Hi. destruct Hi as (t & <- & Ht).
    apply in_map. apply in_flat_map. exists lc. split; [apply Hsub, Hlc | exact Ht].
Qed.

(** C9: for a model whose components and data objects are distinct
    objects, calling [deactivate_model_at] twice with the same arguments
    leaves the flags that calling it once leaves: the second call, which
    finds the data objects already deactivated, returns without error and
    changes no flag.  With valid points (and [allow_skip] set, no set used
    twice in an index) both calls return. *)
Theorem deactivate_model_at_twice b cset pts allow_skip suppress_warnings s :
  NoDup (cids_below (blk_data b)) ->
  NoDup (dids_below (blk_data b)) ->
  (allow_skip = true ->
   Forall (fun pt => contains cset pt = true) (as_list pts) ->
   Forall (fun lc => (occurrences cset (cdims (loc_comp lc)) <= 1)%nat)
          (located_below (blk_parents b) (blk_data b)) ->
   exists s1 dm1 s2 dm2,
     deactivate_model_at b cset pts allow_skip suppress_warnings s
     = (s1, inr dm1)
     /\ deactivate_model_at b cset pts allow_skip suppress_warnings s1
        = (s2, inr dm2)
     /\ flags s2 = flags s1)
  /\
  (forall s1 dm1,
     deactivate_model_at b cset pts allow_skip suppress_warnings s
     = (s1, inr dm1) ->
     exists s2 dm2,
       deactivate_model_at b cset pts allow_skip suppress_warnings s1
       = (s2, inr dm2)
       /\ flags s2 = flags s1).
Proof.
  intros Hc Hd. split.
  - intros -> Hpts Hocc.
    destruct (deactivate_model_at_returns b cset pts suppress_warnings s
                Hpts Hocc) as (s1 & dm1 & Hrun).
    destruct (deactivate_model_at_again b cset pts true suppress_warnings
                s s1 dm1 Hc Hd Hrun) as (s2 & dm2 & H2 & Hfl).
    exists s1, dm1, s2, dm2. auto.
  - intros s1 dm1 Hrun. eapply deactivate_model_at_again; eauto.
Qed.

Lemma deactivate_model_at_twice_witness :
  exists s1 dm1 s2 dm2,
    deactivate_model_at Demo.m Demo.time (Many [1; 2]) true true Demo.fresh
    = (s1, inr dm1)
    /\ deactivate_model_at Demo.m Demo.time (Many [1; 2]) true true s1
       = (s2, inr dm2)
    /\ flags s2 = flags s1.
Proof.
  apply (proj1 (deactivate_model_at_twice Demo.m Demo.time (Many [1; 2])
                  true true Demo.fresh
                  ltac:(apply (bool_decide_unpack _); vm_compute; exact I)
                  ltac:(apply (bool_decide_unpack _); vm_compute; exact I))).
  - reflexivity.
  - repeat constructor.
  - simpl. repeat constructor.
Defined.

(** ** A missing index when [allow_skip] is off *)

Lemma foldM_flat_map {A B C} (g : A -> C -> M A) (h : B -> list C) l :
  forall a s,
    foldM (fun a x => foldM g a (h x)) a l s = foldM g a (flat_map h l) s.
Proof.
  induction l as [| x l IH]; intros a s; simpl; [reflexivity |].
  rewrite foldM_app. unfold bind.
  destruct (foldM g a (h x) s) as [s' [e | a']]; [reflexivity | apply IH].
Qed.

Lemma foldM_map {A B C} (f : A -> C -> M A) (h : B -> C) l :
  forall a s, foldM f a (map h l) s = foldM (fun a x => f a (h x)) a l s.
Proof.
  induction l as [| x l IH]; intros a s; simpl; [reflexivity |].
  unfold bind. destruct (f a (h x) s) as [s' [e | a']]; [reflexivity | apply IH].
Qed.

Lemma foldM_ext {A B} (f g : A -> B -> M A) l :
  (forall a x s, In x l -> f a x s = g a x s) ->
  forall a s, foldM f a l s = foldM g a l s.
Proof.
  induction l as [| x l IH]; intros Hfg a s; simpl; [reflexivity |].
  unfold bind. rewrite Hfg by now left.
  destruct (g a x s) as [s' [e | a']]; [reflexivity |].
  apply IH. intros a1 y s1 Hy. apply Hfg. now right.
Qed.

Lemma deactivate_eligible_combos cset pts al sw dm lc s :
  (exists info, get_index_set_except (loc_comp lc) cset = inr info) ->
  deactivate_eligible cset pts al sw dm lc s
  = foldM (deactivate_combo al sw) dm (combos_of cset pts lc) s.
Proof.
  intros [info Hinfo]. unfold deactivate_eligible, combos_of, bind.
  rewrite Hinfo. simpl. rewrite <- foldM_flat_map.
  apply foldM_ext. intros dm1 other s1 _. rewrite foldM_map. reflexivity.
Qed.

Lemma static_combos cset pts al sw L :
  Forall (fun lc => exists info,
              get_index_set_except (loc_comp lc) cset = inr info) L ->
  forall dm s,
    foldM (deactivate_eligible cset pts al sw) dm L s
    = foldM (deactivate_combo al sw) dm (flat_map (combos_of cset pts) L) s.
Proof.
  intros HL dm s. rewrite <- foldM_flat_map. apply foldM_ext.
  intros dm1 lc s1 Hlc. apply deactivate_eligible_combos.
  rewrite List.Forall_forall in HL. now apply HL.
Qed.

(** The loop never turns a flag back on. *)
Lemma combos_keep_off al sw i l :
  forall dm s,
    flags s !! i = Some false ->
    flags (fst (foldM (deactivate_combo al sw) dm l s)) !! i = Some false.
Proof.
  induction l as [| x l IH]; intros dm s H; [exact H |].
  simpl. unfold bind, deactivate_combo at 1, deactivate_index.
  destruct (getitem _ _) as [e | d].
  - destruct sw, al; simpl; try exact H; apply IH; exact H.
  - unfold bind. simpl. apply IH. simpl.
    destruct (decide (did d = i)) as [-> | Hne].
    + apply lookup_insert_eq.
    + now rewrite lookup_insert_ne.
Qed.

(** The loop stops at the first pass without data; the passes before it
    have deactivated their data objects. *)
Lemma combos_stop sw done bad rest :
  Forall (fun c => exists d, co_lookup c = inr d) done ->
  (forall d, co_lookup bad <> inr d) ->
  forall dm s,
  exists s',
    foldM (deactivate_combo false sw) dm (done ++ bad :: rest) s
    = (s', inl KeyError)
    /\ forall c d, In c done -> co_lookup c = inr d ->
                   flags s' !! did d = Some false.
Proof.
  intros Hdone Hbad. induction Hdone as [| c done [d Hd] _ IH]; intros dm s.
  - simpl. unfold bind, deactivate_combo, deactivate_index.
    unfold co_lookup in Hbad.
    destruct (getitem (loc_comp (co_comp bad)) (co_index bad)) as [e | d].
    + destruct sw; simpl; eexists; (split; [reflexivity | intros c d []]).
    + now destruct (Hbad d).
  - simpl. unfold bind at 1, deactivate_combo at 1, deactivate_index.
    unfold co_lookup in Hd. rewrite Hd. unfold bind. simpl.
    match goal with
    | |- context [foldM _ ?dm1 _ ?s1] =>
        destruct (IH dm1 s1) as (s' & Hrun & Hoff);
        pose proof (combos_keep_off false sw (did d) (done ++ bad :: rest)
                      dm1 s1) as Hkeep
    end.
    exists s'. split; [exact Hrun |].
    intros c' d' [<- | Hin] Hd'.
    + unfold co_lookup in Hd'. rewrite Hd in Hd'. injection Hd' as <-.
      rewrite Hrun in Hkeep. apply Hkeep. simpl. apply lookup_insert_eq.
    + eapply Hoff; eauto.
Qed.

Lemma getitem_key_error c idx e : getitem c idx = inl e -> e = KeyError.
Proof.
  unfold getitem. destruct (find _ _); [discriminate | congruence].
Qed.

(** A list with a member that has no data splits at the first such
    member. *)
Lemma first_missing (l : list combo) :
  Exists (fun c => co_lookup c = inl KeyError) l ->
  exists done bad rest,
    l = done ++ bad :: rest
    /\ Forall (fun c => exists d, co_lookup c = inr d) done
    /\ co_lookup bad = inl KeyError.
Proof.
  induction l as [| c l IH]; intros Hex.
  - apply List.Exists_nil in Hex. destruct Hex.
  - destruct (co_lookup c) as [e | d] eqn:Hc.
    + exists [], c, l. split; [reflexivity |]. split; [constructor |].
      rewrite Hc. f_equal. eapply getitem_key_error. exact Hc.
    + apply List.Exists_cons in Hex. destruct Hex as [Hex | Hex];
        [congruence |].
      destruct (IH Hex) as (done & bad & rest & -> & Hdone & Hbad).
      exists (c :: done), bad, rest. split; [reflexivity |].
      split; [constructor; eauto | exact Hbad].
Qed.

(** C6: with [allow_skip] off, in a model whose components and data
    objects are distinct objects, when some pass of the loop finds no data
    at its index the call raises [KeyError] (the spec's MissingIndexError),
    and the data objects of all the passes made before the first such pass
    are left deactivated. *)
Theorem deactivate_model_at_missing_index b cset pts suppress_warnings s :
  NoDup (cids_below (blk_data b)) ->
  NoDup (dids_below (blk_data b)) ->
  Forall (fun pt => contains cset pt = true) (as_list pts) ->
  Forall (fun lc => (occurrences cset (cdims (loc_comp lc)) <= 1)%nat)
         (located_below (blk_parents b) (blk_data b)) ->
  Exists (fun c => co_lookup c = inl KeyError)
         (combos (is_active s) b cset (as_list pts)) ->
  exists s' done bad rest,
    deactivate_model_at b cset pts false suppress_warnings s
    = (s', inl KeyError)
    /\ combos (is_active s) b cset (as_list pts) = done ++ bad :: rest
    /\ co_lookup bad = inl KeyError
    /\ forall c, In c done ->
                 exists d, co_lookup c = inr d
                           /\ is_active s' (did d) = false.
Proof.
  intros Hc Hd Hpts Hocc Hex.
  rewrite (deactivate_model_at_static _ _ _ _ _ _ Hc Hd). unfold bind.
  rewrite (check_points_ok _ _ _ Hpts).
  rewrite static_combos.
  2:{ apply List.Forall_forall. intros lc Hlc. apply filter_In in Hlc.
      destruct Hlc as [Hlc He]. unfold eligible in He.
      apply andb_true_iff in He. apply get_index_set_except_ok; [tauto |].
      rewrite List.Forall_forall in Hocc. apply Hocc.
      eapply component_objects_located; eauto. }
  fold (combos (is_active s) b cset (as_list pts)).
  destruct (first_missing _ Hex) as (done & bad & rest & Heq & Hdone & Hbad).
  rewrite Heq.
  destruct (combos_stop suppress_warnings done bad rest Hdone
              (fun d H => ltac:(congruence)) (empty_lists (as_list pts)) s)
    as (s' & Hrun & Hoff).
  exists s', done, bad, rest. split; [exact Hrun |].
  split; [reflexivity |]. split; [exact Hbad |].
  intros c Hin. rewrite List.Forall_forall in Hdone.
  destruct (Hdone c Hin) as [d Hcd]. exists d. split; [exact Hcd |].
  unfold is_active. now rewrite (Hoff c d Hin Hcd).
Qed.

Lemma deactivate_model_at_missing_index_witness :
  exists s' done bad rest,
    deactivate_model_at Demo.m Demo.time (Many [1; 2]) false true Demo.fresh
    = (s', inl KeyError)
    /\ combos (is_active Demo.fresh) Demo.m Demo.time [1; 2]
       = done ++ bad :: rest
    /\ co_lookup bad = inl KeyError
    /\ forall c, In c done ->
                 exists d, co_lookup c = inr d
                           /\ is_active s' (did d) = false.
Proof.
  apply (deactivate_model_at_missing_index Demo.m Demo.time (Many [1; 2])
           true Demo.fresh).
  - apply (bool_decide_unpack _); vm_compute; exact I.
  - apply (bool_decide_unpack _); vm_compute; exact I.
  - repeat constructor.
  - simpl. repeat constructor.
  - vm_compute. do 2 apply List.Exists_cons_tl. apply List.Exists_cons_hd.
    reflexivity.
Defined.

(** ** Loops that leave the flags alone *)

Lemma is_active_flags s s' : flags s' = flags s -> is_active s' = is_active s.
Proof. intros H. unfold is_active. now rewrite H. Qed.

Lemma foldM_flags {A B} (f : A -> B -> M A) l :
  (forall a x s, In x l -> flags (fst (f a x s)) = flags s) ->
  forall a s, flags (fst (foldM f a l s)) = flags s.
Proof.
  induction l as [| x l IH]; intros Hf a s; simpl; [reflexivity |].
  unfold bind. pose proof (Hf a x s (or_introl eq_refl)) as Hx.
  destruct (f a x s) as [s1 [e | a1]]; [exact Hx |].
  rewrite IH; [exact Hx |]. intros a2 y s2 Hy. apply Hf. now right.
Qed.

Section StaticWalk.
Context {A : Type}.
Variable ctypes : list ctype.
Variable loop_body : A -> located -> M A.
Hypothesis body_flags :
  forall a lc s, flags (fst (loop_body a lc s)) = flags s.

Lemma own_static parents (cs : list component) :
  forall a s,
    foldM (hand_out ctypes loop_body parents) a cs s
    = foldM loop_body a
        (map (fun c => mkLoc c parents) (List.filter (requested ctypes) cs)) s.
Proof.
  induction cs as [| c cs IH]; intros a s; simpl; [reflexivity |].
  unfold hand_out at 1. destruct (requested ctypes c); simpl.
  - unfold bind. destruct (loop_body a _ s) as [s' [e | a']];
      [reflexivity | apply IH].
  - apply IH.
Qed.

(** A loop body that leaves the flags alone sees exactly the components of
    the static walk from the initial flags. *)
Lemma walk_static d :
  forall parents a s,
    for_component_objects ctypes loop_body parents d a s
    = foldM loop_body a
        (component_objects (is_active s) ctypes parents d) s.
Proof.
  induction d as [i b l u cs IH] using cdata_nested_ind.
  intros parents a s. cbn [for_component_objects component_objects].
  unfold bind at 1, get_active.
  destruct (is_active s i); [| reflexivity].
  rewrite foldM_app. unfold bind. rewrite own_static.
  pose proof (foldM_flags loop_body
                (map (fun c => mkLoc c parents)
                     (List.filter (requested ctypes) cs))
                (fun a x s _ => body_flags a x s) a s) as Hfl.
  destruct (foldM loop_body a _ s) as [s1 [e | a1]]; [reflexivity |].
  simpl in Hfl.
  rewrite <- (is_active_flags _ _ Hfl). clear Hfl. revert a1 s1.
  induction cs as [| c cs IHcs]; intros a1 s1; [reflexivity |].
  apply List.Forall_cons_iff in IH. destruct IH as [IHc IHrest].
  cbn [foldM flat_map]. rewrite foldM_app. unfold bind.
  assert (forall a2 s2,
            flags s2 = flags s1 ->
            match c with
            | Comp _ k on _ es =>
                if ctype_eqb k Block && on then
                  foldM (fun a3 e =>
                           for_component_objects ctypes loop_body
                             (c :: parents) (snd e) a3) a2 es
                else ret a2
            end s2
            = foldM loop_body a2
                match c with
                | Comp _ k on _ es =>
                    if ctype_eqb k Block && on then
                      flat_map (fun e =>
                                  component_objects (is_active s1) ctypes
                                    (c :: parents) (snd e)) es
                    else []
                end s2) as Hhead.
  { destruct c as [ci k on ds es]. simpl in IHc.
    destruct (ctype_eqb k Block && on); [| reflexivity].
    generalize (Comp ci k on ds es :: parents). intros above.
    clear IHcs IHrest.
    induction es as [| e es IHes]; intros a2 s2 H2; [reflexivity |].
    apply List.Forall_cons_iff in IHc. destruct IHc as [IHe IHes'].
    cbn [foldM flat_map]. rewrite foldM_app. unfold bind.
    rewrite IHe. rewrite (is_active_flags _ _ H2).
    pose proof (foldM_flags loop_body
                  (component_objects (is_active s1) ctypes above (snd e))
                  (fun a x s _ => body_flags a x s) a2 s2) as Hfl.
    destruct (foldM loop_body a2 _ s2) as [s3 [e3 | a3]]; [reflexivity |].
    apply IHes; [exact IHes' |]. simpl in Hfl. congruence. }
  rewrite Hhead by reflexivity.
  pose proof (foldM_flags loop_body
                match c with
                | Comp _ k on _ es =>
                    if ctype_eqb k Block && on then
                      flat_map (fun e =>
                                  component_objects (is_active s1) ctypes
                                    (c :: parents) (snd e)) es
                    else []
                end (fun a x s _ => body_flags a x s) a1 s1) as Hfl.
  destruct (foldM loop_body a1 _ s1) as [s2 [e2 | a2]]; [reflexivity |].
  simpl in Hfl. rewrite <- (is_active_flags _ _ Hfl).
  apply IHcs. exact IHrest.
Qed.
End StaticWalk.

(** ** [get_inconsistent_initial_conditions] as a function of the model *)

Lemma foldE_app {A B} (g : A -> B -> exn + A) l1 l2 a :
  foldE g a (l1 ++ l2)
  = match foldE g a l1 with
    | inl e => inl e
    | inr a' => foldE g a' l2
    end.
Proof.
  revert a. induction l1 as [| x l1 IH]; intros a; simpl; [reflexivity |].
  destruct (g a x); [reflexivity | apply IH].
Qed.

Lemma foldE_flat_map {A B C} (g : A -> C -> exn + A) (h : B -> list C) l :
  forall a, foldE (fun a x => foldE g a (h x)) a l = foldE g a (flat_map h l).
Proof.
  induction l as [| x l IH]; intros a; simpl; [reflexivity |].
  rewrite foldE_app. destruct (foldE g a (h x)); [reflexivity | apply IH].
Qed.

Lemma foldE_map {A B C} (g : A -> C -> exn + A) (h : B -> C) l :
  forall a, foldE g a (map h l) = foldE (fun a x => g a (h x)) a l.
Proof.
  induction l as [| x l IH]; intros a; simpl; [reflexivity |].
  destruct (g a (h x)); [reflexivity | apply IH].
Qed.

Lemma foldE_ext {A B} (g g' : A -> B -> exn + A) l :
  (forall a x, In x l -> g a x = g' a x) ->
  forall a, foldE g a l = foldE g' a l.
Proof.
  induction l as [| x l IH]; intros H a; simpl; [reflexivity |].
  rewrite H by now left. destruct (g' a x); [reflexivity |].
  apply IH. intros a' y Hy. apply H. now right.
Qed.

Lemma foldE_filter {A B} (g : A -> B -> exn + A) (p : B -> bool) l :
  forall a,
    foldE g a (List.filter p l)
    = foldE (fun a x => if p x then g a x else inr a) a l.
Proof.
  induction l as [| x l IH]; intros a; simpl; [reflexivity |].
  destruct (p x); simpl; [| apply IH].
  destruct (g a x); [reflexivity | apply IH].
Qed.

(** A loop whose steps compute a function of the accumulator and leave the
    flags alone computes the fold of that function. *)
Lemma foldM_pure {A B} s0 (f : A -> B -> M A) (g : A -> B -> exn + A) l :
  (forall a x s, In x l -> flags s = flags s0 ->
                 exists s', f a x s = (s', g a x) /\ flags s' = flags s0) ->
  forall a s, flags s = flags s0 ->
              exists s', foldM f a l s = (s', foldE g a l)
                         /\ flags s' = flags s0.
Proof.
  induction l as [| x l IH]; intros Hf a s Hs; simpl.
  - exists s. split; [reflexivity | exact Hs].
  - unfold bind.
    destruct (Hf a x s (or_introl eq_refl) Hs) as (s1 & Hx & H1).
    rewrite Hx. destruct (g a x) as [e | a1]; [eauto |].
    apply IH; [| exact H1]. intros a2 y s2 Hy. apply Hf. now right.
Qed.

Lemma check_constraint_pure time tol t0 al sw s0 inc lc s :
  flags s = flags s0 ->
  exists s',
    check_constraint time tol t0 al sw inc lc s
    = (s', foldE (constraint_step al tol) inc
             (if eligible time lc then constraint_events_of time t0 lc
              else []))
    /\ flags s' = flags s0.
Proof.
  intros Hs. unfold check_constraint, eligible, constraint_events_of.
  destruct (is_explicitly_indexed_by (loc_comp lc) time); simpl; [| eauto].
  destruct (is_in_block_indexed_by lc time); simpl; [eauto |].
  unfold bind.
  destruct (get_index_set_except (loc_comp lc) time) as [e | info]; simpl;
    [eauto |].
  rewrite foldE_map. apply (foldM_pure s0); [| exact Hs].
  intros inc1 other s1 _ H1.
  destruct (getitem (loc_comp lc) (index_getter info other t0)) as [e | d];
    simpl.
  - unfold bind. destruct sw, al; simpl; eauto.
  - destruct (violated tol d); eauto.
Qed.

Lemma first_loop_pure model time tol t0 al sw s :
  exists s',
    for_component_objects [Constraint]
      (check_constraint time tol t0 al sw)
      (blk_parents model) (blk_data model) [] s
    = (s', foldE (constraint_step al tol) []
             (constraint_events (is_active s) model time t0))
    /\ flags s' = flags s.
Proof.
  rewrite walk_static.
  2:{ intros a lc s1.
      destruct (check_constraint_pure time tol t0 al sw s1 a lc s1 eq_refl)
        as (s' & -> & H). exact H. }
  unfold constraint_events.
  assert (forall L,
            flat_map (constraint_events_of time t0)
                     (List.filter (eligible time) L)
            = flat_map (fun lc => if eligible time lc
                                  then constraint_events_of time t0 lc
                                  else []) L) as ->.
  { induction L as [| lc L IH]; [reflexivity |]. simpl.
    destruct (eligible time lc); simpl; now rewrite IH. }
  rewrite <- foldE_flat_map.
  apply (foldM_pure s); [| reflexivity].
  intros inc lc s1 _ H1. now apply check_constraint_pure.
Qed.

(** The loop of lines 134 to 143 below one block data. *)
Lemma block_recursion_pure tol parents blkdata inc s :
  for_component_data_objects [Constraint]
    (fun inc' condata =>
       if violated tol condata then
         if cs_mem condata inc' then raise ValueError
         else ret (cs_add condata inc')
       else ret inc')
    parents blkdata inc s
  = (s, foldE block_step inc
          (map Found
             (List.filter (violated tol)
                (component_data_objects (is_active s) [Constraint] parents
                   blkdata)))).
Proof.
  unfold for_component_data_objects.
  assert (forall (es : list (index * cdata)) inc1 s1,
            foldM (fun a2 e =>
                     act <- get_active (did (snd e)) ;;
                     if act then
                       (if violated tol (snd e) then
                          if cs_mem (snd e) a2 then raise ValueError
                          else ret (cs_add (snd e) a2)
                        else ret a2)
                     else ret a2) inc1 es s1
            = (s1, foldE block_step inc1
                     (map Found
                        (List.filter (violated tol)
                           (List.filter (fun x => is_active s1 (did x))
                              (map snd es)))))) as Hentries.
  { induction es as [| e es IH]; intros inc1 s1; [reflexivity |].
    simpl. unfold bind at 1 2, get_active.
    destruct (is_active s1 (did (snd e))); simpl; [| apply IH].
    destruct (violated tol (snd e)); simpl; [| apply IH].
    destruct (cs_mem (snd e) inc1); simpl; [reflexivity | apply IH]. }
  rewrite walk_static.
  2:{ intros a lc s1. now rewrite Hentries. }
  unfold component_data_objects.
  generalize (component_objects (is_active s) [Constraint] parents blkdata).
  intros L. revert inc.
  induction L as [| lc L IH]; intros inc; [reflexivity |].
  simpl. unfold bind. rewrite Hentries.
  rewrite List.filter_app, map_app, foldE_app.
  destruct (foldE block_step inc _) as [e | inc1]; [reflexivity | apply IH].
Qed.

Lemma check_block_pure time tol t0 inc lc s :
  check_block time tol t0 inc lc s
  = (s, foldE block_step inc
          (if eligible time lc
           then block_events_of (is_active s) time tol t0 lc else [])).
Proof.
  unfold check_block, eligible, block_events_of.
  destruct (is_explicitly_indexed_by (loc_comp lc) time); simpl;
    [| reflexivity].
  destruct (is_in_block_indexed_by lc time); simpl; [reflexivity |].
  unfold bind.
  destruct (get_index_set_except (loc_comp lc) time) as [e | info]; simpl;
    [reflexivity |].
  rewrite <- foldE_flat_map.
  generalize (set_except info). intros others. revert inc.
  induction others as [| other others IH]; intros inc; [reflexivity |].
  simpl. unfold bind.
  destruct (getitem (loc_comp lc) (index_getter info other t0))
    as [e | blkdata] eqn:Hg; simpl.
  - now rewrite (getitem_key_error _ _ _ Hg).
  - rewrite block_recursion_pure.
    destruct (foldE block_step inc _) as [e | inc1]; [reflexivity | apply IH].
Qed.

Lemma second_loop_pure model time tol t0 inc s :
  for_component_objects [Block] (check_block time tol t0)
    (blk_parents model) (blk_data model) inc s
  = (s, foldE block_step inc (block_events (is_active s) model time tol t0)).
Proof.
  rewrite walk_static by (intros a lc s1; now rewrite check_block_pure).
  unfold block_events.
  generalize (component_objects (is_active s) [Block] (blk_parents model)
                (blk_data model)).
  intros L. revert inc.
  induction L as [| lc L IH]; intros inc; [reflexivity |].
  simpl. unfold bind. rewrite check_block_pure.
  destruct (eligible time lc); simpl.
  - rewrite foldE_app.
    destruct (foldE block_step inc _) as [e | inc1]; [reflexivity | apply IH].
  - apply IH.
Qed.

(** The result of [get_inconsistent_initial_conditions] is a function of
    the model and of the initial flags; the call leaves the flags alone. *)
Theorem get_inconsistent_initial_conditions_static model time tol t0 al sw s :
  exists s',
    get_inconsistent_initial_conditions model time tol t0 al sw s
    = (s', inconsistent_from (is_active s) model time tol t0 al)
    /\ flags s' = flags s.
Proof.
  unfold get_inconsistent_initial_conditions, inconsistent_from, bind.
  assert (exists r,
            match t0 with
            | None => lift (first time)
            | Some t => ret t
            end s = (s, r)
            /\ r = match t0 with
                   | None => first time
                   | Some t => inr t
                   end) as (r & -> & ->).
  { destruct t0 as [t |]; [eexists; split; reflexivity |].
    destruct (first time); eexists; split; reflexivity. }
  destruct (match t0 with
            | None => first time
            | Some t => inr t
            end) as [e | t]; [eauto |].
  destruct (first_loop_pure model time tol t al sw s) as (s1 & -> & H1).
  rewrite <- (is_active_flags _ _ H1).
  destruct (foldE (constraint_step al tol) [] _) as [e | inc1]; [eauto |].
  rewrite second_loop_pure. eauto.
Qed.

(** ** What [get_inconsistent_initial_conditions] reports *)

(** Unless [body - upper] is NaN, the test of the source is
    [max(body - upper, lower - body) > tol]. *)
Lemma violated_max tol d :
  PrimFloat.is_nan (PrimFloat.sub (body d) (upper d)) = false ->
  violated tol d = violation_exceeds tol d.
Proof.
  intros H. unfold violated, violation_exceeds, violation, float_gt.
  symmetry. apply ltb_float_max. exact H.
Qed.

Lemma foldE_invariant {A B} (g : A -> B -> exn + A) (I : A -> Prop) l :
  (forall a x a', In x l -> I a -> g a x = inr a' -> I a') ->
  forall a a', I a -> foldE g a l = inr a' -> I a'.
Proof.
  induction l as [| x l IH]; intros Hg a a' Ha; simpl.
  - intros [= <-]. exact Ha.
  - destruct (g a x) as [e | a1] eqn:Hx; [discriminate |].
    apply IH; [| eapply Hg; eauto; now left].
    intros a2 y a3 Hy. apply Hg. now right.
Qed.

Lemma cs_mem_spec d set :
  cs_mem d set = true <-> exists x, In x set /\ did x = did d.
Proof.
  unfold cs_mem. rewrite existsb_exists. split.
  - intros (x & Hx & Heq). apply Nat.eqb_eq in Heq. eauto.
  - intros (x & Hx & Heq). exists x. split; [exact Hx |].
    now apply Nat.eqb_eq.
Qed.

Lemma cs_add_mem d set : cs_mem d (cs_add d set) = true.
Proof.
  unfold cs_add. destruct (cs_mem d set) eqn:E; [exact E |].
  apply cs_mem_spec. exists d. split; [| reflexivity].
  apply in_app_iff. right. now left.
Qed.

Lemma cs_add_keeps d x set : cs_mem d set = true -> cs_mem d (cs_add x set) = true.
Proof.
  unfold cs_add. destruct (cs_mem x set); [auto |].
  intros H. apply cs_mem_spec in H. destruct H as (y & Hy & Heq).
  apply cs_mem_spec. exists y. split; [| exact Heq].
  apply in_app_iff. now left.
Qed.

Lemma cs_add_members x set y :
  In y (cs_add x set) -> In y set \/ y = x.
Proof.
  unfold cs_add. destruct (cs_mem x set); [now left |].
  rewrite in_app_iff. simpl. intuition.
Qed.

Lemma constraint_step_keeps al tol d inc ev inc' :
  cs_mem d inc = true -> constraint_step al tol inc ev = inr inc' ->
  cs_mem d inc' = true.
Proof.
  intros H. destruct ev as [e | | x]; simpl.
  - discriminate.
  - destruct al; [| discriminate]. now intros [= <-].
  - intros [= <-]. destruct (violated tol x); [now apply cs_add_keeps | exact H].
Qed.

Lemma block_step_keeps d inc ev inc' :
  cs_mem d inc = true -> block_step inc ev = inr inc' ->
  cs_mem d inc' = true.
Proof.
  intros H. destruct ev as [e | | x]; simpl; try discriminate.
  destruct (cs_mem x inc); [discriminate |].
  intros [= <-]. now apply cs_add_keeps.
Qed.

(** A violated constraint data met by the first loop is in its result. *)
Lemma first_loop_covers al tol d evs :
  forall inc inc',
    In (Found d) evs -> violated tol d = true ->
    foldE (constraint_step al tol) inc evs = inr inc' ->
    cs_mem d inc' = true.
Proof.
  intros inc inc' Hin Hv Hrun. apply in_split in Hin.
  destruct Hin as (l1 & l2 & ->). rewrite foldE_app in Hrun.
  destruct (foldE (constraint_step al tol) inc l1) as [e | inc1];
    [discriminate |].
  simpl in Hrun. rewrite Hv in Hrun.
  eapply (foldE_invariant _ (fun a => cs_mem d a = true)); [| | exact Hrun].
  - intros a x a' _. apply constraint_step_keeps.
  - apply cs_add_mem.
Qed.

Lemma constraint_events_in_model act model time t0 d :
  In (Found d) (constraint_events act model time t0) -> in_model model d.
Proof.
  unfold constraint_events. rewrite in_flat_map.
  intros (lc & Hlc & Hev). apply filter_In in Hlc. destruct Hlc as [Hlc _].
  exists lc. split; [eapply component_objects_located; eauto |].
  unfold constraint_events_of in Hev.
  destruct (get_index_set_except (loc_comp lc) time) as [e | info].
  - destruct Hev as [[=] | []].
  - apply in_map_iff in Hev. destruct Hev as (other & Heq & _).
    destruct (getitem _ _) as [e | d'] eqn:Hg; [discriminate |].
    injection Heq as ->. apply getitem_entry in Hg.
    apply in_map_iff. now exists (index_getter info other t0, d).
Qed.

Lemma block_events_in_model act model time tol t0 d :
  In (Found d) (block_events act model time tol t0) ->
  in_model model d /\ violated tol d = true.
Proof.
  unfold block_events. rewrite in_flat_map.
  intros (lc & Hlc & Hev). apply filter_In in Hlc. destruct Hlc as [Hlc _].
  apply component_objects_located in Hlc.
  unfold block_events_of in Hev.
  destruct (get_index_set_except (loc_comp lc) time) as [e | info].
  { destruct Hev as [[=] | []]. }
  apply in_flat_map in Hev. destruct Hev as (other & _ & Hev).
  destruct (getitem _ _) as [e | blkdata] eqn:Hg.
  { destruct Hev as [[=] | []]. }
  apply in_map_iff in Hev. destruct Hev as (x & [= ->] & Hx).
  apply filter_In in Hx. destruct Hx as [Hx Hv]. split; [| exact Hv].
  unfold component_data_objects in Hx. apply in_flat_map in Hx.
  destruct Hx as (lc' & Hlc' & Hx). apply filter_In in Hx.
  destruct Hx as [Hx _]. apply component_objects_located in Hlc'.
  exists lc'. split; [| exact Hx].
  apply getitem_entry in Hg.
  exact (located_below_trans _ _ lc (index_getter info other t0, blkdata) lc'
           Hlc Hg Hlc').
Qed.

(** Every data object in the result is violated and belongs to the
    model. *)
Lemma inconsistent_from_members act model time tol t0 al result x :
  inconsistent_from act model time tol t0 al = inr result ->
  In x result -> violated tol x = true /\ in_model model x.
Proof.
  unfold inconsistent_from.
  destruct (match t0 with None => first time | Some t => inr t end)
    as [e | t]; [discriminate |].
  destruct (foldE (constraint_step al tol) [] _) as [e | inc1] eqn:H1;
    [discriminate |].
  intros H2 Hx. revert x Hx.
  set (good := fun a : list cdata =>
                 forall x, In x a ->
                           violated tol x = true /\ in_model model x).
  assert (good inc1) as Hinc1.
  { apply (foldE_invariant (constraint_step al tol) good
             (constraint_events act model time t)) with (a := []);
      [| intros x [] | exact H1].
    intros a ev a' Hev Ha Hstep.
    destruct ev as [e | | d]; simpl in Hstep; try discriminate.
    - destruct al; [| discriminate]. injection Hstep as <-. exact Ha.
    - injection Hstep as <-. destruct (violated tol d) eqn:Hv; [| exact Ha].
      intros x Hx. apply cs_add_members in Hx.
      destruct Hx as [Hx | ->]; [now apply Ha |].
      split; [exact Hv |]. eapply constraint_events_in_model; eauto. }
  apply (foldE_invariant block_step good
           (block_events act model time tol t)) with (a := inc1);
    [| exact Hinc1 | exact H2].
  intros a ev a' Hev Ha Hstep.
  destruct ev as [e | | d]; simpl in Hstep; try discriminate.
  destruct (cs_mem d a); [discriminate |]. injection Hstep as <-.
  intros x Hx. apply cs_add_members in Hx.
  destruct Hx as [Hx | ->]; [now apply Ha |].
  apply block_events_in_model in Hev. tauto.
Qed.

(** C2: when [get_inconsistent_initial_conditions] returns, for a model
    whose data objects are distinct objects, the data object found at
    (other index, [t0]) in a constraint that [component_objects] hands out
    and that is explicitly indexed by the set and not inside a block indexed
    by it is in the result if and only if the test of the source holds of
    it, [body - upper > tol or lower - body > tol] in double precision;
    unless [body - upper] is NaN this is
    [max(body - upper, lower - body) > tol].  [t0] is the first point of
    the set when it is not given. *)
Theorem get_inconsistent_initial_conditions_constraints
    model time tol t0_arg t0 allow_skip suppress_warnings s s' result :
  NoDup (dids_below (blk_data model)) ->
  match t0_arg with
  | Some t => t = t0
  | None => first time = inr t0
  end ->
  get_inconsistent_initial_conditions model time tol t0_arg allow_skip
    suppress_warnings s = (s', inr result) ->
  forall con info other d,
    In con (component_objects (is_active s) [Constraint]
              (blk_parents model) (blk_data model)) ->
    eligible time con = true ->
    get_index_set_except (loc_comp con) time = inr info ->
    In other (set_except info) ->
    getitem (loc_comp con) (index_getter info other t0) = inr d ->
    (In d result <-> violated tol d = true)
    /\ (PrimFloat.is_nan (PrimFloat.sub (body d) (upper d)) = false ->
        (In d result <-> violation_exceeds tol d = true)).
Proof.
  intros Hnd Ht0 Hrun con info other d Hcon Hel Hinfo Hother Hget.
  destruct (get_inconsistent_initial_conditions_static model time tol t0_arg
              allow_skip suppress_warnings s) as (s1 & Hstat & _).
  rewrite Hrun in Hstat. injection Hstat as _ Hres. symmetry in Hres.
  assert (In d result <-> violated tol d = true) as Hiff;
    [| split; [exact Hiff | intros Hnan; now rewrite <- violated_max]].
  split.
  - intros Hin. eapply inconsistent_from_members; eauto.
  - intros Hv.
    assert (In (Found d) (constraint_events (is_active s) model time t0))
      as Hev.
    { unfold constraint_events. apply in_flat_map. exists con.
      split; [apply filter_In; now split |].
      unfold constraint_events_of. rewrite Hinfo.
      apply in_map_iff. exists other. now rewrite Hget. }
    assert (cs_mem d result = true) as Hmem.
    { unfold inconsistent_from in Hres.
      assert (match t0_arg with
              | None => first time
              | Some t => inr t
              end = inr t0) as Ht
        by (destruct t0_arg; [now subst | exact Ht0]).
      rewrite Ht in Hres.
      destruct (foldE (constraint_step allow_skip tol) [] _)
        as [e | inc1] eqn:H1; [discriminate |].
      eapply (foldE_invariant block_step (fun a => cs_mem d a = true));
        [| | exact Hres].
      - intros a x a' _. apply block_step_keeps.
      - eapply first_loop_covers; eauto. }
    apply cs_mem_spec in Hmem. destruct Hmem as (x & Hx & Heq).
    assert (x = d) as <-; [| exact Hx].
    eapply data_unique; eauto.
    + eapply inconsistent_from_members; eauto.
    + eapply constraint_events_in_model; eauto.
Qed.

Lemma get_inconsistent_initial_conditions_constraints_witness :
  (In (Demo.condata 40 1 0 0)
      [Demo.condata 40 1 0 0; Demo.condata 230 3 0 0]
   <-> violated default_tol (Demo.condata 40 1 0 0) = true)
  /\ (In (Demo.condata 40 1 0 0)
         [Demo.condata 40 1 0 0; Demo.condata 230 3 0 0]
      <-> violation_exceeds default_tol (Demo.condata 40 1 0 0) = true).
Proof.
  assert ((In (Demo.condata 40 1 0 0)
              [Demo.condata 40 1 0 0; Demo.condata 230 3 0 0]
           <-> violated default_tol (Demo.condata 40 1 0 0) = true)
          /\ (PrimFloat.is_nan
                (PrimFloat.sub (body (Demo.condata 40 1 0 0))
                   (upper (Demo.condata 40 1 0 0))) = false ->
              (In (Demo.condata 40 1 0 0)
                  [Demo.condata 40 1 0 0; Demo.condata 230 3 0 0]
               <-> violation_exceeds default_tol (Demo.condata 40 1 0 0)
                   = true))) as [H1 H2].
  { eapply (get_inconsistent_initial_conditions_constraints Demo.m
              Demo.time default_tol None 0 true false Demo.fresh Demo.fresh
              [Demo.condata 40 1 0 0; Demo.condata 230 3 0 0]).
    - apply (bool_decide_unpack _); vm_compute; exact I.
    - reflexivity.
    - vm_compute. reflexivity.
    - instantiate (1 := mkLoc Demo.con1 [Demo.fs]). left. reflexivity.
    - reflexivity.
    - reflexivity.
    - simpl. left. reflexivity.
    - reflexivity. }
  split; [exact H1 | exact (H2 eq_refl)].
Defined.

(** ** The check of line 138 *)

(** The second loop over data objects only: it raises [ValueError], or
    returns a set that has all of them. *)
Lemma block_steps_found pre :
  forall inc,
    foldE block_step inc (map Found pre) = inl ValueError
    \/ exists inc',
         foldE block_step inc (map Found pre) = inr inc'
         /\ forall x, cs_mem x inc = true \/ In (did x) (map did pre) ->
                      cs_mem x inc' = true.
Proof.
  induction pre as [| d pre IH]; intros inc.
  - right. exists inc. split; [reflexivity |]. intros x [H | []]. exact H.
  - simpl. destruct (cs_mem d inc) eqn:Hd; [now left |].
    destruct (IH (cs_add d inc)) as [Herr | (inc' & Hrun & Hmem)];
      [now left | right].
    exists inc'. split; [exact Hrun |].
    intros x [Hx | [Hx | Hx]]; apply Hmem.
    + left. now apply cs_add_keeps.
    + left. apply cs_mem_spec.
      destruct (cs_mem_spec d (cs_add d inc)) as [Hex _].
      destruct (Hex (cs_add_mem d inc)) as (y & Hy & Heq).
      exists y. split; [exact Hy | congruence].
    + now right.
Qed.

(** C4, as the code has it: a Block inside a block indexed by the set is
    passed over by the second loop, whatever its own index; and when the
    recursion of lines 134 to 143 reaches a violated constraint data that is
    already in the result set (it was reported by the first loop, or reached
    before in the recursion), the call raises [ValueError]. *)
Theorem get_inconsistent_initial_conditions_repeated
    model time tol t0_arg t0 allow_skip suppress_warnings s inc1 pre d post :
  (forall blk inc s1,
      is_in_block_indexed_by blk time = true ->
      check_block time tol t0 inc blk s1 = (s1, inr inc))
  /\
  (match t0_arg with
   | Some t => t = t0
   | None => first time = inr t0
   end ->
   foldE (constraint_step allow_skip tol) []
     (constraint_events (is_active s) model time t0) = inr inc1 ->
   block_events (is_active s) model time tol t0
   = map Found pre ++ Found d :: post ->
   In (did d) (map did inc1 ++ map did pre) ->
   exists s',
     get_inconsistent_initial_conditions model time tol t0_arg allow_skip
       suppress_warnings s = (s', inl ValueError)).
Proof.
  split.
  - intros blk inc s1 Himp. unfold check_block. rewrite Himp.
    destruct (negb _); reflexivity.
  - intros Ht0 H1 Hev Hin.
    destruct (get_inconsistent_initial_conditions_static model time tol
                t0_arg allow_skip suppress_warnings s) as (s' & Hstat & _).
    exists s'. rewrite Hstat. f_equal. unfold inconsistent_from.
    assert (match t0_arg with
            | None => first time
            | Some t => inr t
            end = inr t0) as ->
      by (destruct t0_arg; [now subst | exact Ht0]).
    rewrite H1, Hev, foldE_app.
    destruct (block_steps_found pre inc1) as [-> | (inc' & -> & Hmem)];
      [reflexivity |].
    simpl. rewrite Hmem; [reflexivity |].
    apply in_app_iff in Hin. destruct Hin as [Hin | Hin]; [left | now right].
    apply in_map_iff in Hin. destruct Hin as (x & Heq & Hx).
    apply cs_mem_spec. eauto.
Qed.

Lemma get_inconsistent_initial_conditions_repeated_witness :
  exists s',
    get_inconsistent_initial_conditions Demo.aliased Demo.time default_tol
      None true false Demo.fresh = (s', inl ValueError).
Proof.
  apply (proj2 (get_inconsistent_initial_conditions_repeated Demo.aliased
                  Demo.time default_tol None 0 true false Demo.fresh []
                  [Demo.condata 201 3 0 0] (Demo.condata 201 3 0 0) [])).
  - reflexivity.
  - reflexivity.
  - reflexivity.
  - simpl. left. reflexivity.
Defined.

(** Nesting alone does not raise: here a Block indexed by time holds a
    Block indexed by time, and the call returns the violated constraints of
    the inner block. *)
Lemma nested_blocks_return :
  ckind Demo.outer_blk = Block
  /\ is_explicitly_indexed_by Demo.outer_blk Demo.time = true
  /\ In ([0], CData 60 0 0 0 [Demo.inner_blk 0]) (centries Demo.outer_blk)
  /\ ckind (Demo.inner_blk 0) = Block
  /\ is_explicitly_indexed_by (Demo.inner_blk 0) Demo.time = true
  /\ get_inconsistent_initial_conditions Demo.nested Demo.time default_tol
       None true false Demo.fresh
     = (Demo.fresh,
        inr [Demo.condata 700 3 0 0; Demo.condata 710 3 0 0]).
Proof.
  repeat split; try reflexivity. left. reflexivity.
Qed.

(** ** [solve_consistent_initial_conditions] *)

(** C7: with a scheme other than the two backward schemes the call raises
    [NotImplementedError] (the spec's UnsupportedSchemeError) and the store
    is as before: nothing has been deactivated. *)
Theorem solve_consistent_initial_conditions_unsupported {R : Type}
    (solver : block -> M R) model time scheme s :
  set_scheme time = Some scheme ->
  unsupported_scheme scheme = true ->
  solve_consistent_initial_conditions solver model time s
  = (s, inl NotImplementedError).
Proof.
  intros Hs Hu. unfold solve_consistent_initial_conditions, bind.
  rewrite Hs. simpl. now rewrite Hu.
Qed.

Lemma solve_consistent_initial_conditions_unsupported_witness :
  solve_consistent_initial_conditions Demo.idle_solver Demo.m
    Demo.forward_time Demo.fresh
  = (Demo.fresh, inl NotImplementedError).
Proof.
  apply (solve_consistent_initial_conditions_unsupported Demo.idle_solver
           Demo.m Demo.forward_time "FORWARD Difference").
  - reflexivity.
  - reflexivity.
Defined.

Lemma contains_member time pt : In pt (set_elems time) -> contains time pt = true.
Proof.
  intros H. unfold contains. apply existsb_exists. exists pt.
  split; [exact H | apply Z.eqb_refl].
Qed.

Lemma tail_members {A} (l : list A) x : In x (tail l) -> In x l.
Proof. destruct l; simpl; [intros [] | now right]. Qed.

(** C3, as the code has it: with a supported scheme the call deactivates
    at the points after the first one, runs the solver on that store and,
    when the solver returns, activates every recorded data object and
    returns the solver's result as it is.  Afterwards the recorded objects
    are active and the other flags are as the solver left them; if the
    solver leaves the flags alone, every data object that was active before
    the call is active after it. *)
Theorem solve_consistent_initial_conditions_run {R : Type}
    (solver : block -> M R) model time scheme t0 s :
  set_scheme time = Some scheme ->
  unsupported_scheme scheme = false ->
  first time = inr t0 ->
  Forall (fun lc => (occurrences time (cdims (loc_comp lc)) <= 1)%nat)
         (located_below (blk_parents model) (blk_data model)) ->
  exists s1 dm,
    deactivate_model_at model time (Many (tail (set_elems time))) true false s
    = (s1, inr dm)
    /\ (forall pt, is_Some (dm !! pt) <-> In pt (tail (set_elems time)))
    /\ (NoDup (set_elems time) -> dm !! t0 = None)
    /\ forall s2 result,
         solver model s1 = (s2, inr result) ->
         exists s3,
           solve_consistent_initial_conditions solver model time s
           = (s3, inr result)
           /\ printed s3 = printed s2
           /\ (forall i,
                 flags s3 !! i
                 = if is_recorded (tail (set_elems time)) dm i then Some true
                   else flags s2 !! i)
           /\ (flags s2 = flags s1 ->
               forall i, is_active s i = true -> is_active s3 i = true).
Proof.
  intros Hs Hu Ht0 Hocc.
  destruct (deactivate_model_at_returns model time
              (Many (tail (set_elems time))) false s) as (s1 & dm & Hrun).
  { simpl. apply List.Forall_forall. intros pt Hpt.
    apply contains_member. now apply tail_members. }
  { exact Hocc. }
  pose proof (deactivate_model_at_recorded model time
                (Many (tail (set_elems time))) true false s) as Hrec.
  rewrite Hrun in Hrec. simpl in Hrec. destruct Hrec as [Hdom Hrec].
  exists s1, dm. split; [exact Hrun |]. split; [exact Hdom |]. split.
  { intros Hnd. destruct (dm !! t0) eqn:E; [| reflexivity]. exfalso.
    assert (In t0 (tail (set_elems time))) as Hin by (apply Hdom; eauto).
    unfold first in Ht0. destruct (set_elems time) as [| t ts];
      [discriminate |].
    injection Ht0 as ->. apply NoDup_cons in Hnd. destruct Hnd as [Hnd _].
    apply Hnd. now apply list_elem_of_In. }
  intros s2 result Hsolve.
  destruct (reactivate_run (tail (set_elems time)) dm s2)
    as (s3 & Hre & Hpr & Hfl).
  { intros t Ht. now apply Hdom. }
  exists s3. split.
  { unfold solve_consistent_initial_conditions, bind.
    rewrite Hs. simpl. rewrite Hu, Ht0. simpl.
    now rewrite Hrun, Hsolve, Hre. }
  split; [exact Hpr |]. split; [exact Hfl |].
  intros Hsame i Hi. unfold is_active in *. rewrite Hfl.
  destruct (is_recorded (tail (set_elems time)) dm i) eqn:Hr; [reflexivity |].
  rewrite Hsame. destruct (Hrec i) as [Heq | [_ (pt & Hpt & Hin)]].
  - now rewrite Heq.
  - exfalso. eapply is_recorded_false; eauto.
Qed.

Lemma solve_consistent_initial_conditions_run_witness :
  exists s3,
    solve_consistent_initial_conditions Demo.idle_solver Demo.dense Demo.time
      Demo.fresh = (s3, inr 0%nat)
    /\ forall i, is_active Demo.fresh i = true -> is_active s3 i = true.
Proof.
  destruct (solve_consistent_initial_conditions_run Demo.idle_solver
              Demo.dense Demo.time "LAGRANGE-RADAU" 0 Demo.fresh)
    as (s1 & dm & Hrun & _ & _ & Hsolve).
  - reflexivity.
  - reflexivity.
  - reflexivity.
  - simpl. repeat constructor.
  - destruct (Hsolve s1 0%nat eq_refl) as (s3 & Hcall & _ & _ & Hact).
    exists s3. split; [exact Hcall |]. now apply Hact.
Defined.

(** The flags before the call are not always restored: [con1[1]] was
    inactive before the call, the scheme is supported and the solver
    returns, and [con1[1]] is active after the call. *)
Lemma solve_activates_inactive_data :
  set_scheme Demo.time = Some "LAGRANGE-RADAU"%string
  /\ unsupported_scheme "LAGRANGE-RADAU" = false
  /\ snd (solve_consistent_initial_conditions Demo.idle_solver Demo.dense
            Demo.time Demo.con1_1_off) = inr 0%nat
  /\ getitem Demo.con1 [1] = inr (Demo.condata 41 0 0 0)
  /\ is_active Demo.con1_1_off 41 = false
  /\ is_active
       (fst (solve_consistent_initial_conditions Demo.idle_solver Demo.dense
               Demo.time Demo.con1_1_off)) 41 = true.
Proof. repeat split; reflexivity. Qed.

(** ** Further properties of [deactivate_model_at] *)

(** A property of the store that deactivating keeps, and that printing keeps
    when warnings are printed, holds when the call is over, whether it
    returns or raises. *)
Lemma deactivate_model_at_preserves (P : store -> Prop) b cset pts al sw s :
  (forall d st, P st -> P (fst (deactivate d st))) ->
  (sw = false -> forall w st, P st -> P (fst (print w st))) ->
  P s -> P (fst (deactivate_model_at b cset pts al sw s)).
Proof.
  intros Hde Hpr Hs.
  assert (forall c getter other dm pt,
            triple P (deactivate_index c getter al sw other dm pt)
                   (fun _ => P) (fun _ => P)) as Hindex.
  { intros c getter other dm pt st Hst. unfold deactivate_index, bind.
    destruct (getitem c (getter other pt)) as [e | d].
    - destruct sw; simpl.
      + destruct al; exact Hst.
      + destruct al; simpl; now apply (Hpr eq_refl).
    - simpl. now apply (Hde (did d) st). }
  assert (forall acc lc,
            triple P (deactivate_component cset (as_list pts) al sw acc lc)
                   (fun _ => P) (fun _ => P)) as Hbody.
  { intros [vis dm] lc. unfold deactivate_component.
    destruct (bool_decide (cid (loc_comp lc) ∈ vis)).
    { intros st Hst. exact Hst. }
    destruct (is_explicitly_indexed_by (loc_comp lc) cset
              && negb (is_in_block_indexed_by lc cset)).
    2:{ intros st Hst. exact Hst. }
    eapply triple_bind.
    - intros st Hst.
      destruct (get_index_set_except (loc_comp lc) cset); exact Hst.
    - intros info. simpl. eapply triple_bind.
      + apply (triple_foldM _ (fun _ => P)). intros dm1 other _.
        apply (triple_foldM _ (fun _ => P)). intros dm2 pt _.
        apply Hindex.
      + intros dm' st Hst. exact Hst. }
  unfold deactivate_model_at, bind.
  destruct (check_points_run cset (as_list pts) s) as [-> | ->];
    [| exact Hs].
  pose proof (triple_for_component_objects [Block; Constraint]
                (deactivate_component cset (as_list pts) al sw)
                (fun _ => P) (fun _ => P) (blk_data b) (blk_parents b)
                (fun a lc _ => Hbody a lc)
                (∅, empty_lists (as_list pts)) s Hs) as H.
  destruct (for_component_objects _ _ _ _ _ s) as [s' [e | acc]]; exact H.
Qed.

(** X1: [deactivate_model_at] never activates: a data object that is
    inactive before the call is inactive after it, whether the call returns
    or raises. *)
Theorem deactivate_model_at_never_activates b cset pts allow_skip
    suppress_warnings s i :
  is_active s i = false ->
  is_active (fst (deactivate_model_at b cset pts allow_skip suppress_warnings
                    s)) i = false.
Proof.
  intros Hi.
  apply (deactivate_model_at_preserves (fun st => is_active st i = false));
    [| | exact Hi].
  - intros d st Hst. unfold is_active in *. simpl.
    destruct (decide (d = i)) as [-> | Hne].
    + now rewrite lookup_insert_eq.
    + now rewrite lookup_insert_ne.
  - intros _ w st Hst. exact Hst.
Qed.

Lemma deactivate_model_at_never_activates_witness :
  is_active
    (fst (deactivate_model_at Demo.dense Demo.time (Many [1; 2]) true false
            Demo.con1_1_off)) 41 = false.
Proof.
  apply (deactivate_model_at_never_activates Demo.dense Demo.time
           (Many [1; 2]) true false Demo.con1_1_off 41).
  reflexivity.
Defined.

(** X2: with [suppress_warnings] set the call prints nothing, whether it
    returns or raises. *)
Theorem deactivate_model_at_silent b cset pts allow_skip s :
  printed (fst (deactivate_model_at b cset pts allow_skip true s))
  = printed s.
Proof.
  apply (deactivate_model_at_preserves (fun st => printed st = printed s));
    [| | reflexivity].
  - intros d st Hst. exact Hst.
  - discriminate.
Qed.

(** An invariant of lines 61 to 71 that holds of the initial dictionary
    holds of the returned one. *)
Lemma deactivate_model_at_invariant (J : deactivated_map -> store -> Prop)
    b cset pts al sw s :
  (forall c getter other dm pt,
      In pt (as_list pts) ->
      triple (J dm) (deactivate_index c getter al sw other dm pt) J
             (fun _ _ => True)) ->
  J (empty_lists (as_list pts)) s ->
  match deactivate_model_at b cset pts al sw s with
  | (s', inr dm) => J dm s'
  | (_, inl _) => True
  end.
Proof.
  intros Hindex Hs.
  assert (forall acc lc,
            triple (J (snd acc))
                   (deactivate_component cset (as_list pts) al sw acc lc)
                   (fun acc' => J (snd acc')) (fun _ _ => True)) as Hbody.
  { intros [vis dm] lc. unfold deactivate_component.
    destruct (bool_decide (cid (loc_comp lc) ∈ vis)).
    { intros st Hst. exact Hst. }
    destruct (is_explicitly_indexed_by (loc_comp lc) cset
              && negb (is_in_block_indexed_by lc cset)).
    2:{ intros st Hst. exact Hst. }
    eapply triple_bind.
    - intros st Hst.
      destruct (get_index_set_except (loc_comp lc) cset); simpl;
        [exact I | exact Hst].
    - intros info. simpl. eapply triple_bind.
      + apply (triple_foldM _ J). intros dm1 other _.
        apply (triple_foldM _ J). intros dm2 pt Hpt.
        now apply Hindex.
      + intros dm' st Hst. exact Hst. }
  unfold deactivate_model_at, bind.
  destruct (check_points_run cset (as_list pts) s) as [-> | ->]; [| exact I].
  pose proof (triple_for_component_objects [Block; Constraint]
                (deactivate_component cset (as_list pts) al sw)
                (fun acc => J (snd acc)) (fun _ _ => True)
                (blk_data b) (blk_parents b)
                (fun a lc _ => Hbody a lc)
                (∅, empty_lists (as_list pts)) s Hs) as H.
  destruct (for_component_objects _ _ _ _ _ s) as [s' [e | acc]]; exact H.
Qed.

Lemma deactivate_model_at_all_off b cset pts al sw s :
  match deactivate_model_at b cset pts al sw s with
  | (s', inr dm) => all_off dm s'
  | (_, inl _) => True
  end.
Proof.
  apply (deactivate_model_at_invariant all_off).
  - intros c getter other dm pt _ st Hst. unfold deactivate_index, bind.
    destruct (getitem c (getter other pt)) as [e | d].
    + destruct sw, al; simpl; try exact I; exact Hst.
    + simpl. intros pt' i Hi. cbn [flags].
      destruct (decide (did d = i)) as [-> | Hne];
        [apply lookup_insert_eq |].
      rewrite lookup_insert_ne by exact Hne. apply (Hst pt').
      destruct (decide (pt = pt')) as [<- | Hne'].
      * rewrite lookup_insert_eq in Hi. simpl in Hi.
        apply in_app_iff in Hi. destruct Hi as [Hi | [Hi | []]];
          [exact Hi | contradiction].
      * now rewrite lookup_insert_ne in Hi.
  - intros pt i Hi. rewrite empty_lists_default in Hi. destruct Hi.
Qed.

(** X3: when [deactivate_model_at] returns, every data object listed in
    the returned dictionary is inactive. *)
Theorem deactivate_model_at_listed_inactive b cset pts allow_skip
    suppress_warnings s s' dm pt i :
  deactivate_model_at b cset pts allow_skip suppress_warnings s
  = (s', inr dm) ->
  In i (default [] (dm !! pt)) ->
  is_active s' i = false.
Proof.
  intros Hrun Hi.
  pose proof (deactivate_model_at_all_off b cset pts allow_skip
                suppress_warnings s) as H.
  rewrite Hrun in H. unfold is_active. now rewrite (H pt i Hi).
Qed.

Lemma deactivate_model_at_listed_inactive_witness :
  is_active
    (fst (deactivate_model_at Demo.dense Demo.time (Single 1) true false
            Demo.fresh)) 41 = false.
Proof.
  apply (deactivate_model_at_listed_inactive Demo.dense Demo.time (Single 1)
           true false Demo.fresh _ {[ 1 := [41%nat] ]} 1 41).
  - reflexivity.
  - left. reflexivity.
Defined.

Lemma foldM_no_point {A B C} (g : B -> A -> C -> M A) (l : list B) a s :
  foldM (fun a x => foldM (g x) a []) a l s = (s, inr a).
Proof.
  induction l as [| x l IH]; [reflexivity |]. simpl. unfold bind. simpl.
  exact IH.
Qed.

Lemma deactivate_model_at_no_point_run b cset allow_skip suppress_warnings s :
  deactivate_model_at b cset (Many []) allow_skip suppress_warnings s
  = (s, inr ∅)
  \/ deactivate_model_at b cset (Many []) allow_skip suppress_warnings s
     = (s, inl NotIndexedError).
Proof.
  assert (forall acc lc,
            triple (fun st => st = s /\ snd acc = ∅)
              (deactivate_component cset [] allow_skip suppress_warnings
                 acc lc)
              (fun acc' st => st = s /\ snd acc' = ∅)
              (fun e st => st = s /\ e = NotIndexedError)) as Hbody.
  { intros [vis dm] lc st [-> Hdm]. simpl in Hdm. subst dm.
    unfold deactivate_component.
    destruct (bool_decide (cid (loc_comp lc) ∈ vis)); [now split |].
    destruct (is_explicitly_indexed_by (loc_comp lc) cset
              && negb (is_in_block_indexed_by lc cset)); [| now split].
    unfold bind.
    destruct (get_index_set_except (loc_comp lc) cset) as [e | info]
      eqn:Hinfo.
    - simpl. split; [reflexivity |]. unfold get_index_set_except in Hinfo.
      destruct (Nat.eqb _ 1); [discriminate | congruence].
    - cbn [lift ret]. rewrite foldM_no_point. now split. }
  unfold deactivate_model_at, bind. simpl.
  pose proof (triple_for_component_objects [Block; Constraint]
                (deactivate_component cset [] allow_skip suppress_warnings)
                (fun acc st => st = s /\ snd acc = ∅)
                (fun e st => st = s /\ e = NotIndexedError)
                (blk_data b) (blk_parents b)
                (fun acc lc _ => Hbody acc lc)
                (∅, ∅) s (conj eq_refl eq_refl)) as H.
  destruct (for_component_objects _ _ _ _ _ s) as [s' [e | acc]].
  - destruct H as [-> ->]. now right.
  - destruct H as [-> Hacc]. left. simpl. now rewrite Hacc.
Qed.

Lemma combos_printed l :
  forall dm s,
    printed (fst (foldM (deactivate_combo true false) dm l s))
    = printed s ++ map warning_of (List.filter missing l).
Proof.
  induction l as [| c l IH]; intros dm s; simpl.
  - now rewrite app_nil_r.
  - unfold bind, deactivate_combo at 1, deactivate_index, missing at 1,
      co_lookup.
    destruct (getitem (loc_comp (co_comp c)) (co_index c)) as [e | d];
      unfold bind; simpl; rewrite IH; simpl.
    + now rewrite <- app_assoc.
    + reflexivity.
Qed.

(** X7: with [allow_skip] on and warnings not suppressed, in a model whose
    components and data objects are distinct objects, the call prints one
    warning for each pass of the static walk that finds no data, in the
    order of the passes, and nothing else. *)
Theorem deactivate_model_at_warnings b cset pts s :
  NoDup (cids_below (blk_data b)) ->
  NoDup (dids_below (blk_data b)) ->
  Forall (fun pt => contains cset pt = true) (as_list pts) ->
  Forall (fun lc => (occurrences cset (cdims (loc_comp lc)) <= 1)%nat)
         (located_below (blk_parents b) (blk_data b)) ->
  printed (fst (deactivate_model_at b cset pts true false s))
  = printed s
    ++ map warning_of
         (List.filter missing (combos (is_active s) b cset (as_list pts))).
Proof.
  intros Hc Hd Hpts Hocc.
  rewrite (deactivate_model_at_static _ _ _ _ _ _ Hc Hd). unfold bind.
  rewrite (check_points_ok _ _ _ Hpts).
  rewrite static_combos.
  - apply combos_printed.
  - apply List.Forall_forall. intros lc Hlc. apply filter_In in Hlc.
    destruct Hlc as [Hlc He]. unfold eligible in He.
    apply andb_true_iff in He. apply get_index_set_except_ok; [tauto |].
    rewrite List.Forall_forall in Hocc. apply Hocc.
    eapply component_objects_located; eauto.
Qed.

Lemma deactivate_model_at_warnings_witness :
  printed (fst (deactivate_model_at Demo.m Demo.time (Many [1; 2]) true false
                  Demo.fresh))
  = [(5%nat, [1; 8])].
Proof.
  apply (deactivate_model_at_warnings Demo.m Demo.time (Many [1; 2])
           Demo.fresh).
  - apply (bool_decide_unpack _); vm_compute; exact I.
  - apply (bool_decide_unpack _); vm_compute; exact I.
  - repeat constructor.
  - simpl. repeat constructor.
Defined.

(** X4: deactivating at no point changes neither the flags nor what has
    been printed, and the dictionary is empty; the only exception left is the
    one of [get_index_set_except]. *)
Theorem deactivate_model_at_no_point b cset allow_skip suppress_warnings s :
  deactivate_model_at b cset (Many []) allow_skip suppress_warnings s
  = (s, inr ∅)
  \/ deactivate_model_at b cset (Many []) allow_skip suppress_warnings s
     = (s, inl NotIndexedError).
Proof. apply deactivate_model_at_no_point_run. Qed.

Lemma cross_length dims x : In x (cross dims) -> length x = length dims.
Proof.
  revert x. induction dims as [| d ds IH]; intros x; simpl.
  - intros [<- | []]. reflexivity.
  - rewrite in_flat_map. intros (y & _ & Hx). apply in_map_iff in Hx.
    destruct Hx as (z & <- & Hz). simpl. now rewrite (IH z Hz).
Qed.

(** The point can be read back from the index that [index_getter]
    builds. *)
Lemma index_getter_point c cset info other other' t t' :
  get_index_set_except c cset = inr info ->
  In other (set_except info) -> In other' (set_except info) ->
  index_getter info other t = index_getter info other' t' -> t = t'.
Proof.
  unfold get_index_set_except. destruct (Nat.eqb _ 1); [| discriminate].
  intros [= <-]. simpl. intros Ho Ho' Heq.
  apply cross_length in Ho, Ho'.
  apply app_inj_1 in Heq.
  - destruct Heq as [_ Heq]. now injection Heq.
  - rewrite !length_take. congruence.
Qed.

(** Data objects at points that are not requested are not touched. *)
Lemma other_points_untouched b cset pts al sw s s' dm :
  NoDup (cids_below (blk_data b)) ->
  NoDup (dids_below (blk_data b)) ->
  deactivate_model_at b cset pts al sw s = (s', inr dm) ->
  forall con info other t d,
    In con (located_below (blk_parents b) (blk_data b)) ->
    get_index_set_except (loc_comp con) cset = inr info ->
    In other (set_except info) ->
    ~ In t (as_list pts) ->
    getitem (loc_comp con) (index_getter info other t) = inr d ->
    flags s' !! did d = flags s !! did d.
Proof.
  intros Hc Hd Hrun con info other t d Hcon Hinfo Hother Ht Hget.
  rewrite (deactivate_model_at_static _ _ _ _ _ _ Hc Hd) in Hrun.
  unfold bind in Hrun.
  destruct (check_points_run cset (as_list pts) s) as [E | E];
    rewrite E in Hrun; [| discriminate].
  apply static_run in Hrun. destruct Hrun as [Hfl _].
  rewrite Hfl. apply deactivate_all_miss. intros Hin.
  apply in_map_iff in Hin. destruct Hin as ([pt i] & Hi & Hin).
  simpl in Hi. subst i. apply targets_spec in Hin.
  destruct Hin as (lc & info' & other' & d' & Hlc & He & Hinfo' & Hother'
                   & Hpt & Hget' & Heq).
  apply component_objects_located in Hlc.
  assert (lc = con) as ->.
  { apply (entry_owner (blk_data b) (blk_parents b) lc con (did d)
             Hd Hlc Hcon).
    - rewrite <- Heq. eapply getitem_entry_id; eauto.
    - eapply getitem_entry_id; eauto. }
  rewrite Hinfo in Hinfo'. injection Hinfo' as <-.
  apply getitem_entry in Hget, Hget'.
  pose proof (located_entries_nodup _ _ _ Hd Hcon) as Hids.
  unfold entry_ids in Hids.
  assert ((index_getter info other' pt, d') = (index_getter info other t, d))
    as Hsame.
  { apply (NoDup_map_inj (fun e => did (snd e)) (centries (loc_comp con)));
      auto. }
  injection Hsame as Hidx _.
  assert (pt = t) as ->
    by exact (index_getter_point (loc_comp con) cset info other' other pt t
                Hinfo Hother' Hother Hidx).
  contradiction.
Qed.

(** X19: in a model whose components and data objects are distinct
    objects, a call that returns leaves the data objects at the points that
    were not requested as they were: the data object of any component at
    (other index, [t]) keeps its flag when [t] is not among the points. *)
Theorem deactivate_model_at_other_points b cset pts allow_skip
    suppress_warnings s s' dm con info other t d :
  NoDup (cids_below (blk_data b)) ->
  NoDup (dids_below (blk_data b)) ->
  deactivate_model_at b cset pts allow_skip suppress_warnings s
  = (s', inr dm) ->
  In con (located_below (blk_parents b) (blk_data b)) ->
  get_index_set_except (loc_comp con) cset = inr info ->
  In other (set_except info) ->
  ~ In t (as_list pts) ->
  getitem (loc_comp con) (index_getter info other t) = inr d ->
  flags s' !! did d = flags s !! did d.
Proof.
  intros Hc Hd Hrun Hcon Hinfo Hother Ht Hget.
  eapply other_points_untouched; eauto.
Qed.

Lemma deactivate_model_at_other_points_witness :
  flags (fst (deactivate_model_at Demo.dense Demo.time (Single 2) true false
                Demo.con1_1_off)) !! 41%nat
  = flags Demo.con1_1_off !! 41%nat.
Proof.
  eapply (deactivate_model_at_other_points Demo.dense Demo.time (Single 2)
            true false Demo.con1_1_off _ {[ 2 := [42%nat] ]}
            (mkLoc Demo.con1 []) _ [] 1 (Demo.condata 41 0 0 0)).
  - apply (bool_decide_unpack _); vm_compute; exact I.
  - apply (bool_decide_unpack _); vm_compute; exact I.
  - reflexivity.
  - left. reflexivity.
  - reflexivity.
  - left. reflexivity.
  - simpl. intros [H | []]. discriminate H.
  - reflexivity.
Defined.

(** ** Runs that differ in what does not matter *)

Section Related.
Variable R : store -> store -> Prop.
Hypothesis R_flags : forall s s', R s s' -> flags s = flags s'.

Lemma related_ret {A} (a : A) : related R (ret a) (ret a).
Proof. intros s s' H. split; [exact H | reflexivity]. Qed.

Lemma related_bind {A B} (m m' : M A) (k k' : A -> M B) :
  related R m m' -> (forall a, related R (k a) (k' a)) ->
  related R (bind m k) (bind m' k').
Proof.
  intros Hm Hk s s' H. unfold bind. destruct (Hm s s' H) as [H1 H2].
  destruct (m s) as [s1 [e | a]], (m' s') as [s1' [e' | a']];
    simpl in *; try discriminate.
  - injection H2 as ->. split; [exact H1 | reflexivity].
  - injection H2 as <-. now apply Hk.
Qed.

Lemma related_foldM {A B} (f f' : A -> B -> M A) l :
  (forall a x, In x l -> related R (f a x) (f' a x)) ->
  forall a, related R (foldM f a l) (foldM f' a l).
Proof.
  induction l as [| x l IH]; intros Hf a; simpl; [apply related_ret |].
  apply related_bind; [apply Hf; now left |].
  intros a'. apply IH. intros a'' y Hy. apply Hf. now right.
Qed.

Lemma related_get_active d : related R (get_active d) (get_active d).
Proof.
  intros s s' H. split; [exact H |]. simpl. unfold is_active.
  now rewrite (R_flags s s' H).
Qed.

(** Loop bodies that are related on every component below the root give
    related loops over [component_objects]. *)
Lemma related_for_component_objects {A} ctypes
    (body body' : A -> located -> M A) (d : cdata) :
  forall parents,
    (forall a lc, In lc (located_below parents d) ->
                  related R (body a lc) (body' a lc)) ->
    forall a, related R (for_component_objects ctypes body parents d a)
                        (for_component_objects ctypes body' parents d a).
Proof.
  induction d as [i b l u cs IH] using cdata_nested_ind.
  intros parents Hbody a. cbn [for_component_objects].
  apply related_bind; [apply related_get_active |].
  intros [|]; [| apply related_ret].
  apply related_bind.
  - apply related_foldM. intros a1 c Hc. unfold hand_out.
    destruct (requested ctypes c); [| apply related_ret].
    apply Hbody. now apply located_below_own.
  - intros a1. apply related_foldM. intros a2 c Hc.
    rewrite List.Forall_forall in IH. specialize (IH c Hc).
    destruct c as [ci k on ds es].
    destruct (ctype_eqb k Block && on); [| apply related_ret].
    apply related_foldM. intros a3 e He.
    rewrite List.Forall_forall in IH. apply (IH e He).
    intros a4 lc Hlc. apply Hbody.
    eapply located_below_sub; eauto.
Qed.

Lemma related_bind_ret {A B} (a : A) (k k' : A -> M B) :
  related R (k a) (k' a) -> related R (bind (ret a) k) (bind (ret a) k').
Proof. intros H. exact H. Qed.

Lemma related_raise {A} e : related R (@raise A e) (raise e).
Proof. intros s s' H. split; [exact H | reflexivity]. Qed.

(** Related innermost passes give related calls of
    [deactivate_model_at]. *)
Lemma related_deactivate_model_at b cset pts al sw al' sw' :
  (forall lc info other dm pt,
      In lc (located_below (blk_parents b) (blk_data b)) ->
      eligible cset lc = true ->
      get_index_set_except (loc_comp lc) cset = inr info ->
      In other (set_except info) -> In pt (as_list pts) ->
      related R
        (deactivate_index (loc_comp lc) (index_getter info) al sw other dm pt)
        (deactivate_index (loc_comp lc) (index_getter info) al' sw' other dm
           pt)) ->
  related R (deactivate_model_at b cset pts al sw)
            (deactivate_model_at b cset pts al' sw').
Proof.
  intros Hindex. unfold deactivate_model_at.
  apply related_bind.
  { unfold check_points. apply related_foldM. intros [] pt _.
    destruct (contains cset pt); [apply related_ret | apply related_raise]. }
  intros _. apply related_bind; [| intros r; apply related_ret].
  apply related_for_component_objects. intros [vis dm] lc Hlc.
  unfold deactivate_component.
  destruct (bool_decide (cid (loc_comp lc) ∈ vis)); [apply related_ret |].
  fold (eligible cset lc). destruct (eligible cset lc) eqn:He;
    [| apply related_ret].
  destruct (get_index_set_except (loc_comp lc) cset) as [e | info] eqn:Hinfo.
  { intros s s' H. unfold bind. simpl. split; [exact H | reflexivity]. }
  cbn [lift]. apply related_bind_ret.
  apply related_bind; [| intros dm'; apply related_ret].
  apply related_foldM. intros dm1 other Hother.
  apply related_foldM. intros dm2 pt Hpt.
  now apply (Hindex lc info).
Qed.
End Related.

(** X5: when every eligible component has data at every (other index,
    requested point), [allow_skip] makes no difference: the call with
    [allow_skip] off is the call with [allow_skip] on. *)
Theorem deactivate_model_at_allow_skip_irrelevant b cset pts
    suppress_warnings s :
  (forall lc info other pt,
      In lc (located_below (blk_parents b) (blk_data b)) ->
      eligible cset lc = true ->
      get_index_set_except (loc_comp lc) cset = inr info ->
      In other (set_except info) -> In pt (as_list pts) ->
      exists d,
        getitem (loc_comp lc) (index_getter info other pt) = inr d) ->
  deactivate_model_at b cset pts false suppress_warnings s
  = deactivate_model_at b cset pts true suppress_warnings s.
Proof.
  intros Hall.
  destruct (related_deactivate_model_at eq (fun s s' H => f_equal flags H)
              b cset pts false suppress_warnings true suppress_warnings)
    with (s := s) (s' := s) as [H1 H2]; [| reflexivity |].
  - intros lc info other dm pt Hlc He Hinfo Hother Hpt s1 s2 <-.
    destruct (Hall lc info other pt Hlc He Hinfo Hother Hpt) as [d Hd].
    unfold deactivate_index. rewrite Hd. split; reflexivity.
  - destruct (deactivate_model_at b cset pts false suppress_warnings s),
      (deactivate_model_at b cset pts true suppress_warnings s).
    simpl in *. congruence.
Qed.

Lemma deactivate_model_at_allow_skip_irrelevant_witness :
  deactivate_model_at Demo.dense Demo.time (Many [1; 2]) false false
    Demo.fresh
  = deactivate_model_at Demo.dense Demo.time (Many [1; 2]) true false
      Demo.fresh.
Proof.
  apply (deactivate_model_at_allow_skip_irrelevant Demo.dense Demo.time
           (Many [1; 2]) false Demo.fresh).
  intros lc info other pt Hlc He Hinfo Hother Hpt.
  simpl in Hlc. destruct Hlc as [<- | [<- | []]]; [| discriminate He].
  injection Hinfo as <-. simpl in Hother. destruct Hother as [<- | []].
  simpl in Hpt. destruct Hpt as [<- | [<- | []]]; eexists; reflexivity.
Defined.

(** X6: neither [suppress_warnings] nor what has been printed before
    changes the outcome: two calls that differ in them, from stores with the
    same flags, end with the same flags and with the same dictionary or the
    same exception. *)
Theorem deactivate_model_at_warnings_irrelevant b cset pts allow_skip
    sw sw' s s' :
  flags s = flags s' ->
  flags (fst (deactivate_model_at b cset pts allow_skip sw s))
  = flags (fst (deactivate_model_at b cset pts allow_skip sw' s'))
  /\ snd (deactivate_model_at b cset pts allow_skip sw s)
     = snd (deactivate_model_at b cset pts allow_skip sw' s').
Proof.
  apply (related_deactivate_model_at same_flags (fun s s' H => H)
           b cset pts allow_skip sw allow_skip sw').
  intros lc info other dm pt _ _ _ _ _ s1 s2 H12.
  unfold deactivate_index, bind, same_flags in *.
  destruct (getitem (loc_comp lc) (index_getter info other pt)) as [e | d].
  - destruct sw, sw', allow_skip; simpl; split; auto.
  - simpl. split; [now rewrite H12 | reflexivity].
Qed.

Lemma deactivate_model_at_warnings_irrelevant_witness :
  snd (deactivate_model_at Demo.m Demo.time (Single 1) true true Demo.fresh)
  = snd (deactivate_model_at Demo.m Demo.time (Single 1) true false
           (mkStore ∅ [(5%nat, [1; 8])])).
Proof.
  exact (proj2 (deactivate_model_at_warnings_irrelevant Demo.m Demo.time
                  (Single 1) true true false Demo.fresh
                  (mkStore ∅ [(5%nat, [1; 8])]) eq_refl)).
Defined.

(** ** Further properties of [get_inconsistent_initial_conditions] *)

Lemma check_constraint_silent time tol t0 al inc lc s :
  fst (check_constraint time tol t0 al true inc lc s) = s.
Proof.
  unfold check_constraint.
  destruct (negb _); [reflexivity |].
  destruct (is_in_block_indexed_by lc time); [reflexivity |].
  unfold bind.
  destruct (get_index_set_except (loc_comp lc) time) as [e | info];
    [reflexivity |].
  cbn [lift ret]. generalize (set_except info). intros l. revert inc.
  induction l as [| other l IH]; intros inc; [reflexivity |].
  simpl. unfold bind.
  destruct (getitem (loc_comp lc) (index_getter info other t0)) as [e | d];
    simpl.
  - destruct al; simpl; [apply IH | reflexivity].
  - destruct (violated tol d); simpl; apply IH.
Qed.

(** X8: [get_inconsistent_initial_conditions] changes no activation flag,
    whether it returns or raises; with [suppress_warnings] set it leaves
    the whole store as it was. *)
Theorem get_inconsistent_initial_conditions_keeps_store
    model time tol t0 allow_skip suppress_warnings s :
  flags (fst (get_inconsistent_initial_conditions model time tol t0
                allow_skip suppress_warnings s)) = flags s
  /\ (suppress_warnings = true ->
      fst (get_inconsistent_initial_conditions model time tol t0 allow_skip
             suppress_warnings s) = s).
Proof.
  split.
  - destruct (get_inconsistent_initial_conditions_static model time tol t0
                allow_skip suppress_warnings s) as (s' & -> & H). exact H.
  - intros ->. unfold get_inconsistent_initial_conditions, bind.
    assert (fst (match t0 with
                 | None => lift (first time)
                 | Some t => ret t
                 end s) = s) as Ht.
    { destruct t0; [reflexivity |]. destruct (first time); reflexivity. }
    destruct (match t0 with
              | None => lift (first time)
              | Some t => ret t
              end s) as [s0 [e | t]]; simpl in Ht; subst s0; [reflexivity |].
    assert (forall a lc,
              triple (fun st => st = s)
                (check_constraint time tol t allow_skip true a lc)
                (fun _ st => st = s) (fun _ st => st = s)) as Hbody.
    { intros a lc st ->.
      pose proof (check_constraint_silent time tol t allow_skip a lc s) as E.
      destruct (check_constraint _ _ _ _ _ a lc s) as [s1 [e | a1]];
        exact E. }
    pose proof (triple_for_component_objects [Constraint]
                  (check_constraint time tol t allow_skip true)
                  (fun _ st => st = s) (fun _ st => st = s)
                  (blk_data model) (blk_parents model)
                  (fun a lc _ => Hbody a lc) [] s eq_refl) as H.
    destruct (for_component_objects [Constraint] _ _ _ [] s)
      as [s1 [e | inc1]]; [exact H |].
    subst s1. now rewrite second_loop_pure.
Qed.

Lemma cs_add_nodup d set :
  NoDup (map did set) -> NoDup (map did (cs_add d set)).
Proof.
  intros H. unfold cs_add. destruct (cs_mem d set) eqn:E; [exact H |].
  rewrite map_app. apply NoDup_app. split; [exact H |].
  split; [| apply NoDup_singleton].
  intros x Hx Hx'. apply list_elem_of_In in Hx, Hx'.
  destruct Hx' as [<- | []]. apply in_map_iff in Hx.
  destruct Hx as (y & Heq & Hy).
  assert (cs_mem d set = true) as E'; [| congruence].
  apply cs_mem_spec. eauto.
Qed.

(** X9: the list that [get_inconsistent_initial_conditions] returns holds
    each data object once: no identity occurs twice in it. *)
Theorem get_inconsistent_initial_conditions_no_repeat
    model time tol t0 allow_skip suppress_warnings s s' result :
  get_inconsistent_initial_conditions model time tol t0 allow_skip
    suppress_warnings s = (s', inr result) ->
  NoDup (map did result).
Proof.
  intros Hrun.
  destruct (get_inconsistent_initial_conditions_static model time tol t0
              allow_skip suppress_warnings s) as (s1 & Hstat & _).
  rewrite Hrun in Hstat. injection Hstat as _ Hres. symmetry in Hres.
  unfold inconsistent_from in Hres.
  destruct (match t0 with None => first time | Some t => inr t end)
    as [e | t]; [discriminate |].
  destruct (foldE (constraint_step allow_skip tol) [] _) as [e | inc1] eqn:H1;
    [discriminate |].
  apply (foldE_invariant block_step (fun a => NoDup (map did a))
           (block_events (is_active s) model time tol t)) with (a := inc1);
    [| | exact Hres].
  - intros a ev a' _ Ha Hstep.
    destruct ev as [e | | d]; simpl in Hstep; try discriminate.
    destruct (cs_mem d a); [discriminate |]. injection Hstep as <-.
    now apply cs_add_nodup.
  - apply (foldE_invariant (constraint_step allow_skip tol)
             (fun a => NoDup (map did a))
             (constraint_events (is_active s) model time t)) with (a := []);
      [| apply NoDup_nil_2 | exact H1].
    intros a ev a' _ Ha Hstep.
    destruct ev as [e | | d]; simpl in Hstep; try discriminate.
    + destruct allow_skip; [| discriminate]. now injection Hstep as <-.
    + injection Hstep as <-. destruct (violated tol d); [| exact Ha].
      now apply cs_add_nodup.
Qed.

Lemma get_inconsistent_initial_conditions_no_repeat_witness :
  NoDup (map did [Demo.condata 40 1 0 0; Demo.condata 230 3 0 0]).
Proof.
  apply (get_inconsistent_initial_conditions_no_repeat Demo.m Demo.time
           default_tol None true false Demo.fresh Demo.fresh).
  reflexivity.
Defined.

(** X10: every data object that [get_inconsistent_initial_conditions]
    returns passed the test of the source, whichever loop reported it: in
    double precision [body - upper > tol] or [lower - body > tol]. *)
Theorem get_inconsistent_initial_conditions_sound
    model time tol t0 allow_skip suppress_warnings s s' result x :
  get_inconsistent_initial_conditions model time tol t0 allow_skip
    suppress_warnings s = (s', inr result) ->
  In x result ->
  PrimFloat.ltb tol (PrimFloat.sub (body x) (upper x)) = true
  \/ PrimFloat.ltb tol (PrimFloat.sub (lower x) (body x)) = true.
Proof.
  intros Hrun Hx.
  destruct (get_inconsistent_initial_conditions_static model time tol t0
              allow_skip suppress_warnings s) as (s1 & Hstat & _).
  rewrite Hrun in Hstat. injection Hstat as _ Hres. symmetry in Hres.
  apply orb_true_iff.
  exact (proj1 (inconsistent_from_members _ _ _ _ _ _ _ _ Hres Hx)).
Qed.

Lemma get_inconsistent_initial_conditions_sound_witness :
  PrimFloat.ltb default_tol
    (PrimFloat.sub (body (Demo.condata 230 3 0 0))
       (upper (Demo.condata 230 3 0 0))) = true
  \/ PrimFloat.ltb default_tol
       (PrimFloat.sub (lower (Demo.condata 230 3 0 0))
          (body (Demo.condata 230 3 0 0))) = true.
Proof.
  apply (get_inconsistent_initial_conditions_sound Demo.m Demo.time
           default_tol None true false Demo.fresh Demo.fresh
           [Demo.condata 40 1 0 0; Demo.condata 230 3 0 0]).
  - reflexivity.
  - right. left. reflexivity.
Defined.

Lemma block_loop_covers x evs :
  forall inc inc',
    In (Found x) evs -> foldE block_step inc evs = inr inc' ->
    cs_mem x inc' = true.
Proof.
  intros inc inc' Hin Hrun. apply in_split in Hin.
  destruct Hin as (l1 & l2 & ->). rewrite foldE_app in Hrun.
  destruct (foldE block_step inc l1) as [e | inc1]; [discriminate |].
  simpl in Hrun. destruct (cs_mem x inc1); [discriminate |].
  eapply (foldE_invariant block_step (fun a => cs_mem x a = true));
    [| | exact Hrun].
  - intros a ev a' _. apply block_step_keeps.
  - apply cs_add_mem.
Qed.

Lemma resolve_t0 time (t0_arg : option Z) t0 :
  match t0_arg with
  | Some t => t = t0
  | None => first time = inr t0
  end ->
  match t0_arg with
  | None => first time
  | Some t => inr t
  end = inr t0.
Proof. destruct t0_arg; [now intros -> | auto]. Qed.

(** X11: when the call returns, for a model whose data objects are distinct
    objects, an active constraint data that [component_data_objects] reaches
    below the data at (other index, [t0]) of an eligible block is in the
    result if and only if the test of the source holds of it, in double
    precision [body - upper > tol or lower - body > tol]. *)
Theorem get_inconsistent_initial_conditions_blocks
    model time tol t0_arg t0 allow_skip suppress_warnings s s' result :
  NoDup (dids_below (blk_data model)) ->
  match t0_arg with
  | Some t => t = t0
  | None => first time = inr t0
  end ->
  get_inconsistent_initial_conditions model time tol t0_arg allow_skip
    suppress_warnings s = (s', inr result) ->
  forall blk info other blkdata x,
    In blk (component_objects (is_active s) [Block]
              (blk_parents model) (blk_data model)) ->
    eligible time blk = true ->
    get_index_set_except (loc_comp blk) time = inr info ->
    In other (set_except info) ->
    getitem (loc_comp blk) (index_getter info other t0) = inr blkdata ->
    In x (component_data_objects (is_active s) [Constraint]
            (loc_comp blk :: loc_parents blk) blkdata) ->
    (In x result <-> violated tol x = true).
Proof.
  intros Hnd Ht0 Hrun blk info other blkdata x Hblk Hel Hinfo Hother Hget Hx.
  destruct (get_inconsistent_initial_conditions_static model time tol t0_arg
              allow_skip suppress_warnings s) as (s1 & Hstat & _).
  rewrite Hrun in Hstat. injection Hstat as _ Hres. symmetry in Hres.
  split.
  - intros Hin. eapply inconsistent_from_members; eauto.
  - intros Hv.
    assert (In (Found x) (block_events (is_active s) model time tol t0))
      as Hev.
    { unfold block_events. apply in_flat_map. exists blk.
      split; [apply filter_In; now split |].
      unfold block_events_of. rewrite Hinfo. apply in_flat_map.
      exists other. split; [exact Hother |]. rewrite Hget.
      apply in_map. apply filter_In. now split. }
    assert (cs_mem x result = true) as Hmem.
    { unfold inconsistent_from in Hres. rewrite (resolve_t0 _ _ _ Ht0) in Hres.
      destruct (foldE (constraint_step allow_skip tol) [] _) as [e | inc1];
        [discriminate |].
      eapply block_loop_covers; eauto. }
    apply cs_mem_spec in Hmem. destruct Hmem as (y & Hy & Heq).
    assert (y = x) as <-; [| exact Hy].
    eapply data_unique; eauto.
    + eapply inconsistent_from_members; eauto.
    + eapply block_events_in_model; eauto.
Qed.

Lemma get_inconsistent_initial_conditions_blocks_witness :
  In (Demo.condata 230 3 0 0)
     [Demo.condata 40 1 0 0; Demo.condata 230 3 0 0]
  <-> violated default_tol (Demo.condata 230 3 0 0) = true.
Proof.
  eapply (get_inconsistent_initial_conditions_blocks Demo.m Demo.time
            default_tol None 0 true false Demo.fresh Demo.fresh
            [Demo.condata 40 1 0 0; Demo.condata 230 3 0 0]
            ltac:(apply (bool_decide_unpack _); vm_compute; exact I)
            eq_refl eq_refl (mkLoc Demo.b2 [Demo.fs]) _ [7]
            (CData 30 0 0 0 [Demo.inner_con 30 3])).
  - right. left. reflexivity.
  - reflexivity.
  - reflexivity.
  - simpl. left. reflexivity.
  - reflexivity.
  - left. reflexivity.
Defined.

(** X12: [allow_skip] does not cover blocks: when an eligible block has no
    data at some (other index, [t0]), the call does not return, whatever
    [allow_skip] is. *)
Theorem get_inconsistent_initial_conditions_block_missing
    model time tol t0_arg t0 allow_skip suppress_warnings s blk info other e :
  match t0_arg with
  | Some t => t = t0
  | None => first time = inr t0
  end ->
  In blk (component_objects (is_active s) [Block]
            (blk_parents model) (blk_data model)) ->
  eligible time blk = true ->
  get_index_set_except (loc_comp blk) time = inr info ->
  In other (set_except info) ->
  getitem (loc_comp blk) (index_getter info other t0) = inl e ->
  exists s' e',
    get_inconsistent_initial_conditions model time tol t0_arg allow_skip
      suppress_warnings s = (s', inl e').
Proof.
  intros Ht0 Hblk Hel Hinfo Hother Hget.
  destruct (get_inconsistent_initial_conditions_static model time tol t0_arg
              allow_skip suppress_warnings s) as (s' & Hstat & _).
  rewrite Hstat. unfold inconsistent_from. rewrite (resolve_t0 _ _ _ Ht0).
  destruct (foldE (constraint_step allow_skip tol) [] _) as [e1 | inc1];
    [eauto |].
  assert (In Missing (block_events (is_active s) model time tol t0)) as Hev.
  { unfold block_events. apply in_flat_map. exists blk.
    split; [apply filter_In; now split |].
    unfold block_events_of. rewrite Hinfo. apply in_flat_map.
    exists other. split; [exact Hother |]. rewrite Hget. now left. }
  apply in_split in Hev. destruct Hev as (l1 & l2 & ->).
  rewrite foldE_app. destruct (foldE block_step inc1 l1); simpl; eauto.
Qed.

Lemma get_inconsistent_initial_conditions_block_missing_witness :
  exists s' e',
    get_inconsistent_initial_conditions Demo.m Demo.time default_tol
      (Some 1) true false Demo.fresh = (s', inl e').
Proof.
  eapply (get_inconsistent_initial_conditions_block_missing Demo.m Demo.time
            default_tol (Some 1) 1 true false Demo.fresh
            (mkLoc Demo.b2 [Demo.fs]) _ [8] KeyError eq_refl).
  - right. left. reflexivity.
  - reflexivity.
  - reflexivity.
  - simpl. right. left. reflexivity.
  - reflexivity.
Defined.

(** X13: the outcome of [get_inconsistent_initial_conditions] depends on the
    store through the flags only, and not on [suppress_warnings]. *)
Theorem get_inconsistent_initial_conditions_warnings_irrelevant
    model time tol t0 allow_skip sw sw' s s' :
  flags s = flags s' ->
  snd (get_inconsistent_initial_conditions model time tol t0 allow_skip sw s)
  = snd (get_inconsistent_initial_conditions model time tol t0 allow_skip sw'
           s').
Proof.
  intros H.
  destruct (get_inconsistent_initial_conditions_static model time tol t0
              allow_skip sw s) as (s1 & -> & _).
  destruct (get_inconsistent_initial_conditions_static model time tol t0
              allow_skip sw' s') as (s2 & -> & _).
  simpl. now rewrite (is_active_flags _ _ H).
Qed.

Lemma get_inconsistent_initial_conditions_warnings_irrelevant_witness :
  snd (get_inconsistent_initial_conditions Demo.m Demo.time default_tol
         (Some 1) true true Demo.fresh)
  = snd (get_inconsistent_initial_conditions Demo.m Demo.time default_tol
           (Some 1) true false (mkStore ∅ [(5%nat, [1; 8])])).
Proof.
  apply (get_inconsistent_initial_conditions_warnings_irrelevant Demo.m
           Demo.time default_tol (Some 1) true true false Demo.fresh
           (mkStore ∅ [(5%nat, [1; 8])])).
  reflexivity.
Defined.

(** Where the members of the result come from. *)
Lemma inconsistent_from_origin act model time tol t0_arg t0 al result x :
  match t0_arg with
  | Some t => t = t0
  | None => first time = inr t0
  end ->
  inconsistent_from act model time tol t0_arg al = inr result ->
  In x result ->
  (In (Found x) (constraint_events act model time t0)
   /\ violated tol x = true)
  \/ In (Found x) (block_events act model time tol t0).
Proof.
  intros Ht0. unfold inconsistent_from. rewrite (resolve_t0 _ _ _ Ht0).
  destruct (foldE (constraint_step al tol) [] _) as [e | inc1] eqn:H1;
    [discriminate |].
  intros H2 Hx. revert x Hx.
  set (good := fun a : list cdata =>
                 forall x, In x a ->
                   (In (Found x) (constraint_events act model time t0)
                    /\ violated tol x = true)
                   \/ In (Found x) (block_events act model time tol t0)).
  assert (good inc1) as Hinc1.
  { apply (foldE_invariant (constraint_step al tol) good
             (constraint_events act model time t0)) with (a := []);
      [| intros x [] | exact H1].
    intros a ev a' Hev Ha Hstep.
    destruct ev as [e | | d]; simpl in Hstep; try discriminate.
    - destruct al; [| discriminate]. injection Hstep as <-. exact Ha.
    - injection Hstep as <-. destruct (violated tol d) eqn:Hv; [| exact Ha].
      intros x Hx. apply cs_add_members in Hx.
      destruct Hx as [Hx | ->]; [now apply Ha | now left]. }
  apply (foldE_invariant block_step good
           (block_events act model time tol t0)) with (a := inc1);
    [| exact Hinc1 | exact H2].
  intros a ev a' Hev Ha Hstep.
  destruct ev as [e | | d]; simpl in Hstep; try discriminate.
  destruct (cs_mem d a); [discriminate |]. injection Hstep as <-.
  intros x Hx. apply cs_add_members in Hx.
  destruct Hx as [Hx | ->]; [now apply Ha | now right].
Qed.

Lemma violated_mono tol tol' x :
  PrimFloat.leb tol tol' = true ->
  violated tol' x = true -> violated tol x = true.
Proof.
  unfold violated, float_gt. rewrite !orb_true_iff.
  intros Hle [H | H]; [left | right]; exact (ltb_leb_trans _ _ _ Hle H).
Qed.

Lemma block_events_mono act model time tol tol' t0 x :
  PrimFloat.leb tol tol' = true ->
  In (Found x) (block_events act model time tol' t0) ->
  In (Found x) (block_events act model time tol t0).
Proof.
  intros Hle. unfold block_events. rewrite !in_flat_map.
  intros (blk & Hblk & Hev). exists blk. split; [exact Hblk |].
  unfold block_events_of in *.
  destruct (get_index_set_except (loc_comp blk) time) as [e | info];
    [exact Hev |].
  rewrite in_flat_map in *. destruct Hev as (other & Hother & Hev).
  exists other. split; [exact Hother |].
  destruct (getitem _ _) as [e | blkdata]; [exact Hev |].
  rewrite in_map_iff in *. destruct Hev as (y & Heq & Hy).
  exists y. split; [exact Heq |]. rewrite filter_In in *.
  destruct Hy as [Hy Hv]. split; [exact Hy |]. eapply violated_mono; eauto.
Qed.

(** X14: raising the tolerance never adds to the result: for a model whose
    data objects are distinct objects, when the calls with [tol] and with a
    larger [tol'] both return, every data object reported with [tol'] is
    reported with [tol]. *)
Theorem get_inconsistent_initial_conditions_tolerance
    model time tol tol' t0_arg t0 allow_skip suppress_warnings s
    s1 result s2 result' x :
  NoDup (dids_below (blk_data model)) ->
  match t0_arg with
  | Some t => t = t0
  | None => first time = inr t0
  end ->
  PrimFloat.leb tol tol' = true ->
  get_inconsistent_initial_conditions model time tol t0_arg allow_skip
    suppress_warnings s = (s1, inr result) ->
  get_inconsistent_initial_conditions model time tol' t0_arg allow_skip
    suppress_warnings s = (s2, inr result') ->
  In x result' -> In x result.
Proof.
  intros Hnd Ht0 Hle Hrun Hrun' Hx.
  destruct (get_inconsistent_initial_conditions_static model time tol t0_arg
              allow_skip suppress_warnings s) as (s3 & Hstat & _).
  rewrite Hrun in Hstat. injection Hstat as _ Hres. symmetry in Hres.
  destruct (get_inconsistent_initial_conditions_static model time tol' t0_arg
              allow_skip suppress_warnings s) as (s4 & Hstat' & _).
  rewrite Hrun' in Hstat'. injection Hstat' as _ Hres'. symmetry in Hres'.
  assert (cs_mem x result = true) as Hmem.
  { pose proof Hres as Hres0. unfold inconsistent_from in Hres.
    rewrite (resolve_t0 _ _ _ Ht0) in Hres.
    destruct (foldE (constraint_step allow_skip tol) [] _)
      as [e | inc1] eqn:H1; [discriminate |].
    destruct (inconsistent_from_origin _ _ _ _ _ _ _ _ _ Ht0 Hres' Hx)
      as [[Hev Hv] | Hev].
    - eapply (foldE_invariant block_step (fun a => cs_mem x a = true));
        [| | exact Hres].
      + intros a ev a' _. apply block_step_keeps.
      + exact (first_loop_covers allow_skip tol x _ [] inc1 Hev
                 (violated_mono _ _ _ Hle Hv) H1).
    - eapply block_loop_covers; [| exact Hres].
      eapply block_events_mono; eauto. }
  apply cs_mem_spec in Hmem. destruct Hmem as (y & Hy & Heq).
  assert (y = x) as <-; [| exact Hy].
  apply (data_unique model y x Hnd); [| | exact Heq].
  - exact (proj2 (inconsistent_from_members _ _ _ _ _ _ _ _ Hres Hy)).
  - exact (proj2 (inconsistent_from_members _ _ _ _ _ _ _ _ Hres' Hx)).
Qed.

Lemma get_inconsistent_initial_conditions_tolerance_witness :
  In (Demo.condata 230 3 0 0)
     [Demo.condata 40 1 0 0; Demo.condata 230 3 0 0].
Proof.
  apply (get_inconsistent_initial_conditions_tolerance Demo.m Demo.time
           default_tol 2 None 0 true false Demo.fresh
           Demo.fresh [Demo.condata 40 1 0 0; Demo.condata 230 3 0 0]
           Demo.fresh [Demo.condata 230 3 0 0]).
  - apply (bool_decide_unpack _); vm_compute; exact I.
  - reflexivity.
  - reflexivity.
  - reflexivity.
  - reflexivity.
  - left. reflexivity.
Defined.

Lemma constraint_loop_stops evs :
  forall tol inc,
    Forall (fun ev => forall e, ev <> Fail e) evs ->
    In Missing evs ->
    foldE (constraint_step false tol) inc evs = inl KeyError.
Proof.
  induction evs as [| ev evs IH]; intros tol inc Hall Hin; [destruct Hin |].
  apply List.Forall_cons_iff in Hall. destruct Hall as [Hev Hall].
  simpl. destruct ev as [e | | d]; simpl.
  - now destruct (Hev e).
  - reflexivity.
  - destruct Hin as [[=] | Hin]. now apply IH.
Qed.

(** X15: with [allow_skip] off, when an eligible constraint has no data at
    some (other index, [t0]) and no set is used twice in an index, the call
    raises [KeyError]. *)
Theorem get_inconsistent_initial_conditions_constraint_missing
    model time tol t0_arg t0 suppress_warnings s con info other e :
  match t0_arg with
  | Some t => t = t0
  | None => first time = inr t0
  end ->
  Forall (fun lc => (occurrences time (cdims (loc_comp lc)) <= 1)%nat)
         (located_below (blk_parents model) (blk_data model)) ->
  In con (component_objects (is_active s) [Constraint]
            (blk_parents model) (blk_data model)) ->
  eligible time con = true ->
  get_index_set_except (loc_comp con) time = inr info ->
  In other (set_except info) ->
  getitem (loc_comp con) (index_getter info other t0) = inl e ->
  exists s',
    get_inconsistent_initial_conditions model time tol t0_arg false
      suppress_warnings s = (s', inl KeyError).
Proof.
  intros Ht0 Hocc Hcon Hel Hinfo Hother Hget.
  destruct (get_inconsistent_initial_conditions_static model time tol t0_arg
              false suppress_warnings s) as (s' & Hstat & _).
  exists s'. rewrite Hstat. f_equal. unfold inconsistent_from.
  rewrite (resolve_t0 _ _ _ Ht0). rewrite constraint_loop_stops; [reflexivity | |].
  - apply List.Forall_forall. intros ev Hev e' ->.
    unfold constraint_events in Hev. apply in_flat_map in Hev.
    destruct Hev as (lc & Hlc & Hev). apply filter_In in Hlc.
    destruct Hlc as [Hlc He]. unfold eligible in He.
    apply andb_true_iff in He.
    destruct (get_index_set_except_ok (loc_comp lc) time (proj1 He))
      as [info' Hinfo'].
    { rewrite List.Forall_forall in Hocc. apply Hocc.
      eapply component_objects_located; eauto. }
    unfold constraint_events_of in Hev. rewrite Hinfo' in Hev.
    apply in_map_iff in Hev. destruct Hev as (o & Heq & _).
    destruct (getitem (loc_comp lc) (index_getter info' o t0));
      discriminate Heq.
  - unfold constraint_events. apply in_flat_map. exists con.
    split; [apply filter_In; now split |].
    unfold constraint_events_of. rewrite Hinfo. apply in_map_iff.
    exists other. now rewrite Hget.
Qed.

Lemma get_inconsistent_initial_conditions_constraint_missing_witness :
  exists s',
    get_inconsistent_initial_conditions Demo.dense Demo.time default_tol
      (Some 5) false true Demo.fresh = (s', inl KeyError).
Proof.
  eapply (get_inconsistent_initial_conditions_constraint_missing Demo.dense
            Demo.time default_tol (Some 5) 5 true Demo.fresh
            (mkLoc Demo.con1 []) _ [] KeyError eq_refl).
  - simpl. repeat constructor.
  - left. reflexivity.
  - reflexivity.
  - reflexivity.
  - left. reflexivity.
  - reflexivity.
Defined.

(** ** Further properties of [solve_consistent_initial_conditions] *)

(** X16: the reactivation is not protected: when the solver raises, the
    exception goes through with the store as the solver left it and lines
    186 to 188 are not run, so that, if the solver left the flags alone,
    every data object of the dictionary is still inactive. *)
Theorem solve_consistent_initial_conditions_solver_raises {R : Type}
    (solver : block -> M R) model time scheme t0 s s1 dm s2 e :
  set_scheme time = Some scheme ->
  unsupported_scheme scheme = false ->
  first time = inr t0 ->
  deactivate_model_at model time (Many (tail (set_elems time))) true false s
  = (s1, inr dm) ->
  solver model s1 = (s2, inl e) ->
  solve_consistent_initial_conditions solver model time s = (s2, inl e)
  /\ (flags s2 = flags s1 ->
      forall pt i, In i (default [] (dm !! pt)) -> is_active s2 i = false).
Proof.
  intros Hs Hu Ht0 Hrun Hsolve. split.
  - unfold solve_consistent_initial_conditions, bind.
    rewrite Hs. simpl. rewrite Hu, Ht0. simpl. now rewrite Hrun, Hsolve.
  - intros Hfl pt i Hi.
    pose proof (deactivate_model_at_all_off model time
                  (Many (tail (set_elems time))) true false s) as H.
    rewrite Hrun in H. unfold is_active. now rewrite Hfl, (H pt i Hi).
Qed.

Lemma solve_consistent_initial_conditions_solver_raises_witness :
  exists s2,
    solve_consistent_initial_conditions failing_solver Demo.dense Demo.time
      Demo.fresh = (s2, inl ValueError)
    /\ is_active s2 41 = false.
Proof.
  destruct (deactivate_model_at Demo.dense Demo.time
              (Many (tail (set_elems Demo.time))) true false Demo.fresh)
    as [s1 r] eqn:Hrun.
  assert (r = inr {[ 1 := [41%nat]; 2 := [42%nat] ]}) as ->.
  { apply (f_equal snd) in Hrun. simpl in Hrun. rewrite <- Hrun.
    vm_compute. reflexivity. }
  destruct (solve_consistent_initial_conditions_solver_raises failing_solver
              Demo.dense Demo.time "LAGRANGE-RADAU" 0 Demo.fresh s1 _ s1
              ValueError eq_refl eq_refl eq_refl Hrun eq_refl) as [H1 H2].
  exists s1. split; [exact H1 |].
  apply (H2 eq_refl 1 41%nat). left. reflexivity.
Defined.

(** X17: on a set with a single point, when no set is used twice in an
    index, nothing is deactivated and the call is the call of the solver on
    the store as it is. *)
Theorem solve_consistent_initial_conditions_single_point {R : Type}
    (solver : block -> M R) model time scheme t0 s :
  set_scheme time = Some scheme ->
  unsupported_scheme scheme = false ->
  set_elems time = [t0] ->
  Forall (fun lc => (occurrences time (cdims (loc_comp lc)) <= 1)%nat)
         (located_below (blk_parents model) (blk_data model)) ->
  solve_consistent_initial_conditions solver model time s = solver model s.
Proof.
  intros Hs Hu He Hocc.
  unfold solve_consistent_initial_conditions, bind.
  rewrite Hs. simpl. rewrite Hu. unfold first. rewrite He. simpl.
  destruct (deactivate_model_at_returns model time (Many []) false s)
    as (s1 & dm & Hrun); [constructor | exact Hocc |].
  destruct (deactivate_model_at_no_point_run model time true false s)
    as [H | H]; rewrite H in Hrun; [| discriminate].
  rewrite H. destruct (solver model s) as [s2 [e | r]]; reflexivity.
Qed.

Lemma solve_consistent_initial_conditions_single_point_witness :
  solve_consistent_initial_conditions Demo.idle_solver Demo.dense
    (mkSet 1 [0] (Some "BACKWARD Difference"%string)) Demo.con1_1_off
  = Demo.idle_solver Demo.dense Demo.con1_1_off.
Proof.
  apply (solve_consistent_initial_conditions_single_point Demo.idle_solver
           Demo.dense (mkSet 1 [0] (Some "BACKWARD Difference"%string))
           "BACKWARD Difference" 0 Demo.con1_1_off).
  - reflexivity.
  - reflexivity.
  - reflexivity.
  - simpl. repeat constructor.
Defined.

(** X18: the initial conditions stay as they are during the solve: in a
    model whose components and data objects are distinct objects, on a set
    without repeated points, the deactivation that
    [solve_consistent_initial_conditions] performs returns, the solver is
    run on the store it leaves, and in that store the data object of any
    component at (other index, first point) has the flag it had before the
    call. *)
Theorem solve_consistent_initial_conditions_initial_point
    model time scheme t0 s :
  NoDup (cids_below (blk_data model)) ->
  NoDup (dids_below (blk_data model)) ->
  NoDup (set_elems time) ->
  set_scheme time = Some scheme ->
  unsupported_scheme scheme = false ->
  first time = inr t0 ->
  Forall (fun lc => (occurrences time (cdims (loc_comp lc)) <= 1)%nat)
         (located_below (blk_parents model) (blk_data model)) ->
  exists s1 dm,
    deactivate_model_at model time (Many (tail (set_elems time))) true false s
    = (s1, inr dm)
    /\ (forall (R : Type) (solver : block -> M R),
          solve_consistent_initial_conditions solver model time s
          = bind (solver model)
              (fun result =>
                 bind (reactivate (tail (set_elems time)) dm)
                      (fun _ => ret result)) s1)
    /\ forall con info other d,
         In con (located_below (blk_parents model) (blk_data model)) ->
         get_index_set_except (loc_comp con) time = inr info ->
         In other (set_except info) ->
         getitem (loc_comp con) (index_getter info other t0) = inr d ->
         flags s1 !! did d = flags s !! did d.
Proof.
  intros Hc Hd Hnd Hs Hu Ht0 Hocc.
  destruct (deactivate_model_at_returns model time
              (Many (tail (set_elems time))) false s) as (s1 & dm & Hrun).
  { simpl. apply List.Forall_forall. intros pt Hpt.
    apply contains_member. now apply tail_members. }
  { exact Hocc. }
  exists s1, dm. split; [exact Hrun |]. split.
  { intros R solver. unfold solve_consistent_initial_conditions.
    unfold bind at 1. rewrite Hs. simpl. rewrite Hu. simpl.
    unfold bind at 1. rewrite Ht0. simpl.
    unfold bind at 1. now rewrite Hrun. }
  intros con info other d Hcon Hinfo Hother Hget.
  apply (other_points_untouched model time (Many (tail (set_elems time)))
           true false s s1 dm Hc Hd Hrun con info other t0 d Hcon Hinfo
           Hother); [| exact Hget].
  unfold first in Ht0. simpl.
  destruct (set_elems time) as [| t ts]; [discriminate |].
  injection Ht0 as ->. apply NoDup_cons in Hnd. destruct Hnd as [Hnd _].
  simpl. intros Hin. apply Hnd. now apply list_elem_of_In.
Qed.

Lemma solve_consistent_initial_conditions_initial_point_witness :
  exists s1 dm,
    deactivate_model_at Demo.m Demo.time (Many [1; 2]) true false Demo.fresh
    = (s1, inr dm)
    /\ flags s1 !! 40%nat = flags Demo.fresh !! 40%nat.
Proof.
  destruct (solve_consistent_initial_conditions_initial_point Demo.m
              Demo.time "LAGRANGE-RADAU" 0 Demo.fresh)
    as (s1 & dm & Hrun & _ & Hkeep).
  - apply (bool_decide_unpack _); vm_compute; exact I.
  - apply (bool_decide_unpack _); vm_compute; exact I.
  - apply (bool_decide_unpack _); vm_compute; exact I.
  - reflexivity.
  - reflexivity.
  - reflexivity.
  - simpl. repeat constructor.
  - exists s1, dm. split; [exact Hrun |].
    eapply (Hkeep (mkLoc Demo.con1 [Demo.fs]) _ [] (Demo.condata 40 1 0 0)).
    + simpl. repeat first [left; reflexivity | right].
    + reflexivity.
    + left. reflexivity.
    + reflexivity.
Defined.

(** ** The set [visited] *)

(** An element on which the loop body does nothing, as long as an invariant
    of the accumulator holds, can be dropped from the list. *)
Lemma foldM_skip {A B} (f : A -> B -> M A) (I : A -> Prop) c :
  (forall a s, I a -> f a c s = (s, inr a)) ->
  (forall a x s s' a', I a -> f a x s = (s', inr a') -> I a') ->
  forall l1 l2 a s,
    I a -> foldM f a (l1 ++ c :: l2) s = foldM f a (l1 ++ l2) s.
Proof.
  intros Hc Hkeep l1 l2. induction l1 as [| x l1 IH]; intros a s Ha.
  - simpl. unfold bind. now rewrite Hc.
  - simpl. unfold bind. destruct (f a x s) as [s' [e | a']] eqn:Hx;
      [reflexivity |].
    apply IH. eapply Hkeep; eauto.
Qed.

(** The loop body only adds to [visited]. *)
Lemma deactivate_component_visited cset pts al sw vis dm lc s s' vis' dm' :
  deactivate_component cset pts al sw (vis, dm) lc s = (s', inr (vis', dm')) ->
  (forall x, x ∈ vis -> x ∈ vis') /\ cid (loc_comp lc) ∈ vis'.
Proof.
  destruct (decide (cid (loc_comp lc) ∈ vis)) as [Hin | Hout].
  - unfold deactivate_component. rewrite bool_decide_eq_true_2 by exact Hin.
    intros [= <- <- <-]. auto.
  - rewrite deactivate_component_unvisited by exact Hout.
    destruct (eligible cset lc).
    + destruct (deactivate_eligible cset pts al sw dm lc s)
        as [s1 [e | dm1]]; [discriminate |].
      intros [= <- <- <-]. split; intros; set_solver.
    + intros [= <- <- <-]. split; intros; set_solver.
Qed.

(** X20: a Constraint that the walk meets a second time in a block (as with
    a reference) is passed over: listing it twice among the components of
    the root gives the same store and the same result as listing it
    once. *)
Theorem deactivate_model_at_duplicate i bd lo up pre c mid post parents
    cset pts allow_skip suppress_warnings s :
  ckind c = Constraint ->
  deactivate_model_at
    (mkBlock (CData i bd lo up (pre ++ c :: mid ++ c :: post)) parents)
    cset pts allow_skip suppress_warnings s
  = deactivate_model_at
      (mkBlock (CData i bd lo up (pre ++ c :: mid ++ post)) parents)
      cset pts allow_skip suppress_warnings s.
Proof.
  intros Hk. unfold deactivate_model_at, bind. simpl blk_data.
  simpl blk_parents.
  destruct (check_points cset (as_list pts) s) as [s0 [e | []]];
    [reflexivity |].
  cbn [for_component_objects]. unfold bind, get_active. cbv beta.
  destruct (is_active s0 i); [| reflexivity].
  set (body := deactivate_component cset (as_list pts) allow_skip
                 suppress_warnings).
  assert (forall acc st,
            foldM (hand_out [Block; Constraint] body parents) acc
              (pre ++ c :: mid ++ c :: post) st
            = foldM (hand_out [Block; Constraint] body parents) acc
                (pre ++ c :: mid ++ post) st) as Hown.
  { induction pre as [| x pre IH]; intros acc st.
    - simpl. unfold bind. unfold hand_out at 1 3.
      destruct (requested [Block; Constraint] c) eqn:Hreq.
      + destruct acc as [vis dm].
        destruct (body (vis, dm) (mkLoc c parents) st)
          as [s1 [e | [vis1 dm1]]] eqn:Hc; [reflexivity |].
        apply deactivate_component_visited in Hc. destruct Hc as [_ Hc].
        simpl in Hc.
        apply (foldM_skip _ (fun acc => cid c ∈ fst acc)); [| | exact Hc].
        * intros [v d] st' Hv. unfold hand_out. rewrite Hreq.
          unfold body, deactivate_component. simpl in Hv. simpl loc_comp.
          now rewrite bool_decide_eq_true_2 by exact Hv.
        * intros [v d] x st1 st2 [v' d'] Hv. unfold hand_out.
          destruct (requested [Block; Constraint] x).
          -- intros Hx. apply deactivate_component_visited in Hx.
             simpl in *. now apply Hx.
          -- intros [= <- <- <-]. exact Hv.
      + simpl. apply (foldM_skip _ (fun _ => True)); [| auto | exact I].
        intros a st' _. unfold hand_out. now rewrite Hreq.
    - simpl. unfold bind.
      destruct (hand_out [Block; Constraint] body parents acc x st)
        as [s1 [e | acc1]]; [reflexivity | apply IH]. }
  rewrite Hown.
  destruct (foldM (hand_out [Block; Constraint] body parents) _
              (pre ++ c :: mid ++ post) s0) as [s1 [e | acc1]];
    [reflexivity |].
  replace (pre ++ c :: mid ++ c :: post)
    with ((pre ++ c :: mid) ++ c :: post)
    by (now rewrite <- app_assoc).
  replace (pre ++ c :: mid ++ post) with ((pre ++ c :: mid) ++ post)
    by (now rewrite <- app_assoc).
  rewrite (foldM_skip _ (fun _ => True) c); [reflexivity | | auto | exact I].
  intros a st _. destruct c as [ci k on ds es]. simpl in Hk. subst k.
  reflexivity.
Qed.

Lemma deactivate_model_at_duplicate_witness :
  deactivate_model_at
    (mkBlock (CData 0 0 0 0 ([] ++ Demo.con1 :: [Demo.con2]
                                 ++ Demo.con1 :: [])) [])
    Demo.time (Single 1) true false Demo.fresh
  = deactivate_model_at
      (mkBlock (CData 0 0 0 0 ([] ++ Demo.con1 :: [Demo.con2] ++ [])) [])
      Demo.time (Single 1) true false Demo.fresh.
Proof.
  apply (deactivate_model_at_duplicate 0 0 0 0 [] Demo.con1 [Demo.con2] []
           [] Demo.time (Single 1) true false Demo.fresh).
  reflexivity.
Defined.
